(** * Telegram-Helper 4.0.2: media-group aggregation and fan-out forwarding

    A shallow embedding of the forwarding core of [src/4.0.2/bot.py]:
    [MediaGroupHandler] (debounced grouping of album items),
    [DeepSeekRewriter.rewrite_text], and the [TelegramForwardBot] methods
    [get_message_type], [should_filter_message], [apply_paraphrase_rules],
    [build_caption], [forward_messages_group], [forward_media_group],
    [forward_single_message], [create_input_media] and [handle_message].

    Python dictionaries are finite maps ([gmap]), Python lists are lists,
    [str] is [string], [int] is [Z].  Coroutines are cut at their [await]
    points into the synchronous blocks the asyncio loop runs atomically. *)

From Stdlib Require Import ZArith List String Ascii Bool Lia.
From Stdlib Require Import Sorted Permutation DecimalString.
From stdpp Require Import gmap strings list fin_maps.
Import ListNotations.

Local Open Scope string_scope.
Local Open Scope list_scope.
Local Open Scope Z_scope.

(** ** Telegram objects (the attributes of [telegram.Message] the bot reads) *)

Record User := {
  user_id : Z;
  full_name : string
}.

Record Chat := {
  chat_ident : Z;              (* message.chat.id *)
  title : option string        (* message.chat.title *)
}.

(** [message.date] is a [datetime]; only [strftime] is applied to it. *)
Record DateTime := {
  year : nat; month : nat; day : nat;
  hour : nat; minute : nat; second : nat
}.

Record Message := {
  message_id : Z;
  chat : Chat;
  date : DateTime;
  from_user : option User;
  media_group_id : option string;
  text : option string;
  caption : option string;
  photo : list string;         (* file ids of the photo sizes, smallest first *)
  video : option string;       (* file id *)
  document : option string;
  audio : option string;
  voice : option string;
  sticker : option string;
  animation : option string;
  location : bool;             (* a location object is attached *)
  poll : bool                  (* a poll object is attached *)
}.

Definition chat_id (m : Message) : Z := chat_ident (chat m).

(** Python truthiness of the attributes the code tests with [if x] / [not x]. *)
Definition truthy_str (o : option string) : bool :=
  match o with
  | Some s => negb (String.eqb s "")
  | None => false
  end.

Definition truthy_obj {A : Type} (o : option A) : bool :=
  match o with Some _ => true | None => false end.

Definition truthy_list {A : Type} (l : list A) : bool :=
  match l with [] => false | _ :: _ => true end.

(** [a or b] on optional strings: the first truthy operand, else the last. *)
Definition py_or (a b : option string) : option string :=
  if truthy_str a then a else b.

(** The group id the handler keys on: [None] when [not message.media_group_id]. *)
Definition group_key (m : Message) : option string :=
  if truthy_str (media_group_id m) then media_group_id m else None.

(** ** [list.sort(key=lambda m: m.message_id)]: a stable sort by message id *)

Fixpoint insert_by_id (m : Message) (l : list Message) : list Message :=
  match l with
  | [] => [m]
  | x :: r =>
      if message_id m <=? message_id x then m :: x :: r
      else x :: insert_by_id m r
  end.

Definition sort_by_id (l : list Message) : list Message :=
  foldr insert_by_id [] l.

(** ** MediaGroupHandler on the asyncio loop

    A task created by [asyncio.create_task] is either suspended in
    [asyncio.sleep], suspended inside [await forward_callback(messages)],
    finished, or cancelled. *)

Inductive task_status :=
| Sleeping (deadline : Z)
| Forwarding
| Finished
| Cancelled.

Record task := {
  task_group : string;         (* the group_id argument of the coroutine *)
  status : task_status
}.

Record handler := {
  media_groups : gmap string (list Message);
  group_timers : gmap string nat;        (* group id -> task handle *)
  timeout_seconds : Z;
  tasks : list task;                     (* every task created, by handle *)
  now : Z;                               (* loop clock *)
  forwarded : list (list Message)        (* arguments of the forward_callback
                                            calls made so far, oldest first *)
}.

Definition init (timeout : Z) : handler :=
  {| media_groups := ∅; group_timers := ∅; timeout_seconds := timeout;
     tasks := []; now := 0; forwarded := [] |}.

Definition set_status (tid : nat) (s : task_status) (ts : list task) : list task :=
  alter (fun t => {| task_group := task_group t; status := s |}) tid ts.

(** [Task.cancel()]: a suspended task is cancelled (CancelledError is raised
    at its await point and, being a BaseException, is not caught by the
    [except Exception] clauses of the bot); a completed task is unaffected. *)
Definition cancel (tid : nat) (ts : list task) : list task :=
  match ts !! tid with
  | Some t =>
      match status t with
      | Sleeping _ | Forwarding => set_status tid Cancelled ts
      | Finished | Cancelled => ts
      end
  | None => ts
  end.

(** [add_message]: runs without suspension on the group path; on the
    group-less path it calls [forward_callback([message])] at once.  On the
    group path the item is appended to whatever list the dictionary holds,
    also when that list has already been handed to [forward_callback]; the
    task found in [group_timers] is cancelled whatever it is doing. *)
Definition add_message (m : Message) (h : handler) : handler :=
  match group_key m with
  | None =>
      {| media_groups := media_groups h; group_timers := group_timers h;
         timeout_seconds := timeout_seconds h; tasks := tasks h; now := now h;
         forwarded := forwarded h ++ [[m]] |}
  | Some g =>
      let buf := default [] (media_groups h !! g) ++ [m] in
      let ts := match group_timers h !! g with
                | Some tid => cancel tid (tasks h)
                | None => tasks h
                end in
      {| media_groups := <[g := buf]> (media_groups h);
         group_timers := <[g := length ts]> (group_timers h);
         timeout_seconds := timeout_seconds h;
         tasks := ts ++ [{| task_group := g;
                            status := Sleeping (now h + timeout_seconds h) |}];
         now := now h;
         forwarded := forwarded h |}
  end.

(** [_process_group_after_timeout], from the return of [asyncio.sleep] to the
    suspension in [await forward_callback(messages)].  The sort is in place:
    the buffer stored in [media_groups] is the list handed to the callback. *)
Definition timer_fires (tid : nat) (h : handler) : handler :=
  match tasks h !! tid with
  | Some t =>
      match status t with
      | Sleeping d =>
          if d <=? now h then
            match media_groups h !! task_group t with
            | Some messages =>
                let sorted := sort_by_id messages in
                {| media_groups := <[task_group t := sorted]> (media_groups h);
                   group_timers := group_timers h;
                   timeout_seconds := timeout_seconds h;
                   tasks := set_status tid Forwarding (tasks h);
                   now := now h;
                   forwarded := forwarded h ++ [sorted] |}
            | None =>
                {| media_groups := media_groups h;
                   group_timers := group_timers h;
                   timeout_seconds := timeout_seconds h;
                   tasks := set_status tid Finished (tasks h);
                   now := now h;
                   forwarded := forwarded h |}
            end
          else h
      | _ => h
      end
  | None => h
  end.

(** [_process_group_after_timeout], from the return of [forward_callback] to
    the end: both dictionary entries of the group are deleted. *)
Definition forward_returns (tid : nat) (h : handler) : handler :=
  match tasks h !! tid with
  | Some t =>
      match status t with
      | Forwarding =>
          {| media_groups := delete (task_group t) (media_groups h);
             group_timers := delete (task_group t) (group_timers h);
             timeout_seconds := timeout_seconds h;
             tasks := set_status tid Finished (tasks h);
             now := now h;
             forwarded := forwarded h |}
      | _ => h
      end
  | None => h
  end.

Definition with_now (t : Z) (h : handler) : handler :=
  {| media_groups := media_groups h; group_timers := group_timers h;
     timeout_seconds := timeout_seconds h; tasks := tasks h;
     now := t; forwarded := forwarded h |}.

(** The clock moves to [t]; every sleep whose deadline has passed returns, in
    the order the tasks were created (which is the order of their deadlines,
    the timeout being constant). *)
Definition advance (t : Z) (h : handler) : handler :=
  foldl (fun s tid => timer_fires tid s)
        (with_now (Z.max (now h) t) h)
        (seq 0 (length (tasks h))).

(** What the loop can observe: an item arriving at time [t], time passing
    until [t], and a dispatch started by task [tid] completing. *)
Inductive event :=
| Submit (t : Z) (m : Message)
| Tick (t : Z)
| ForwardReturns (tid : nat).

Definition step (h : handler) (e : event) : handler :=
  match e with
  | Submit t m => add_message m (advance t h)
  | Tick t => advance t h
  | ForwardReturns tid => forward_returns tid h
  end.

Definition run (es : list event) (h : handler) : handler :=
  foldl step h es.

(** ** Strings: the [str] methods the bot uses *)

Definition nl : string := String (ascii_of_nat 10) EmptyString.

(** [pat in s] on strings. *)
Fixpoint is_substring (pat s : string) : bool :=
  String.prefix pat s ||
  match s with
  | EmptyString => false
  | String _ r => is_substring pat r
  end.

(** [s.replace(old, new)]: leftmost non-overlapping occurrences; with an
    empty [old], [new] is inserted before every character and at the end.
    A character is a code point: on the UTF-8 bytes of a text nothing is
    inserted before a continuation byte. *)
Definition is_continuation_byte (c : ascii) : bool :=
  let n := nat_of_ascii c in
  (128 <=? n)%nat && (n <? 192)%nat.

Fixpoint replace_empty (new s : string) : string :=
  match s with
  | EmptyString => new
  | String c r =>
      if is_continuation_byte c then String c (replace_empty new r)
      else new +:+ String c (replace_empty new r)
  end.

Fixpoint replace_from (old new : string) (skip : nat) (s : string) : string :=
  match s with
  | EmptyString => EmptyString
  | String c r =>
      match skip with
      | S k => replace_from old new k r
      | O =>
          if String.prefix old s
          then new +:+ replace_from old new (Nat.pred (String.length old)) r
          else String c (replace_from old new O r)
      end
  end.

Definition str_replace (old new s : string) : string :=
  if String.eqb old "" then replace_empty new s else replace_from old new O s.

(** [str(n)] for an integer and zero-padded decimal fields of [strftime]. *)
Definition str_of_int (z : Z) : string := NilZero.string_of_int (Z.to_int z).

Definition str_of_nat (n : nat) : string := NilZero.string_of_uint (Nat.to_uint n).

Fixpoint zeros (n : nat) : string :=
  match n with O => EmptyString | S k => String "0"%char (zeros k) end.

Definition zero_pad (width n : nat) : string :=
  let d := str_of_nat n in zeros (width - String.length d) +:+ d.

(** [date.strftime('%Y-%m-%d %H:%M:%S')] *)
Definition strftime (d : DateTime) : string :=
  zero_pad 4 (year d) +:+ "-" +:+ zero_pad 2 (month d) +:+ "-" +:+ zero_pad 2 (day d)
  +:+ " " +:+ zero_pad 2 (hour d) +:+ ":" +:+ zero_pad 2 (minute d) +:+ ":"
  +:+ zero_pad 2 (second d).

(** ** Configuration ([bot_config.json] as loaded into [self.config]) *)

Record ForwardSettings := {
  preserve_sender : bool;
  add_source_info : bool;
  filter_content_types : list string;
  keyword_filter : list string;
  delay_seconds : Z;
  media_group_timeout : Z
}.

(** [temperature] is a float that is only passed through to the API; it is
    left out of the record. *)
Record DeepSeekSettings := {
  enabled : bool;
  system_prompt : string;
  model : string;
  max_tokens : Z
}.

Record Config := {
  admins : list Z;
  source_channels : list Z;
  target_channels : list Z;
  forward_settings : ForwardSettings;
  notify_admin_on_error : bool;
  paraphrase_rules : list (string * string);   (* dict, in insertion order *)
  deepseek_settings : DeepSeekSettings
}.

(** ** The chat-completions client of [DeepSeekRewriter]

    A request either raises (network error, timeout, API error) or returns
    the [message.content] of each choice. *)
Record ChatRequest := {
  req_model : string;
  req_system : string;
  req_user : string;
  req_max_tokens : Z
}.

Inductive ChatResponse :=
| ChatRaises (e : string)
| ChatChoices (contents : list (option string)).

Definition Client := ChatRequest -> ChatResponse.

(** ** Bot API calls and the effects of a dispatch *)

Inductive media_kind := Photo | Video | Document | Audio.

(** [InputMediaPhoto], [InputMediaVideo], [InputMediaDocument], [InputMediaAudio] *)
Record InputMedia := {
  im_kind : media_kind;
  im_media : string;
  im_caption : option string
}.

Inductive api_call :=
| send_message (chat : Z) (body : string)
| send_photo (chat : Z) (file : string) (cap : string)
| send_video (chat : Z) (file : string) (cap : string)
| send_document (chat : Z) (file : string) (cap : string)
| send_audio (chat : Z) (file : string) (cap : string)
| send_voice (chat : Z) (file : string) (cap : string)
| send_animation (chat : Z) (file : string) (cap : string)
| copy_message (chat : Z) (from_chat_id : Z) (msg : Z)
| send_media_group (chat : Z) (media : list InputMedia).

(** The Telegram side: a call returns ([None]) or raises an [Exception]
    whose [str] is the given text. *)
Definition BotApi := api_call -> option string.

Inductive stat_key :=
| messages_received | messages_forwarded | failed_forwards | media_groups_forwarded.

(** The arguments of one [log_forward] call (a row of [forward_logs]). *)
Record log_row := {
  source_chat_id : Z;
  target_chat_id : Z;
  original_msg_id : Z;
  forwarded_msg_id : option Z;
  content_type : string;
  row_media_group_id : option string;
  is_media_group : bool;
  success : bool;
  error_msg : option string
}.

Inductive effect :=
| Sleep (secs : Z)                                   (* asyncio.sleep(delay) *)
| Called (c : api_call) (raised : option string)     (* a bot API call and how it ended *)
| Stat (k : stat_key) (n : nat)                      (* self.stats[k] += n *)
| LogForward (r : log_row)                           (* self.log_forward(...) *)
| NotifyAdminsError (m : Message) (target : Z) (e : string).
                                                     (* self.notify_admins_error(...),
                                                        which catches its own errors *)

(** A computation leaves a trace of effects and either returns or raises. *)
Inductive result (A : Type) :=
| Ok (a : A)
| Raise (e : string).
Arguments Ok {A} a.
Arguments Raise {A} e.

Definition M (A : Type) : Type := (list effect * result A)%type.

Definition ret {A} (a : A) : M A := ([], Ok a).
Definition raise {A} (e : string) : M A := ([], Raise e).
Definition emit (e : effect) : M unit := ([e], Ok tt).

Definition bind {A B} (m : M A) (f : A -> M B) : M B :=
  match snd m with
  | Ok a => (fst m ++ fst (f a), snd (f a))
  | Raise e => (fst m, Raise e)
  end.

Notation "x <- m ;; k" := (bind m (fun x => k))
  (at level 100, m at next level, right associativity).
Notation "m ;;; k" := (bind m (fun _ => k))
  (at level 100, right associativity).

(** [try: body / except Exception as e: handler(str(e))] *)
Definition try_except {A} (body : M A) (handler : string -> M A) : M A :=
  match snd body with
  | Ok a => body
  | Raise e => (fst body ++ fst (handler e), snd (handler e))
  end.

(** [for x in xs: body(x)]: an exception leaving the body ends the loop. *)
Fixpoint for_each {X} (xs : list X) (body : X -> M unit) : M unit :=
  match xs with
  | [] => ret tt
  | x :: r => body x ;;; for_each r body
  end.

Definition when (b : bool) (m : M unit) : M unit := if b then m else ret tt.

Definition call (api : BotApi) (c : api_call) : M unit :=
  match api c with
  | None => emit (Called c None)
  | Some e => emit (Called c (Some e)) ;;; raise e
  end.

Definition logs (tr : list effect) : list log_row :=
  omap (fun e => match e with LogForward r => Some r | _ => None end) tr.

Definition calls (tr : list effect) : list api_call :=
  omap (fun e => match e with Called c _ => Some c | _ => None end) tr.

Definition notifications (tr : list effect) : list Z :=
  omap (fun e => match e with NotifyAdminsError _ t _ => Some t | _ => None end) tr.

(** ** TelegramForwardBot *)

Definition get_message_type (m : Message) : string :=
  if truthy_str (text m) then "text"
  else if truthy_list (photo m) then "photo"
  else if truthy_obj (video m) then "video"
  else if truthy_obj (document m) then "document"
  else if truthy_obj (audio m) then "audio"
  else if truthy_obj (voice m) then "voice"
  else if truthy_obj (sticker m) then "sticker"
  else if truthy_obj (animation m) then "animation"
  else if location m then "location"
  else if poll m then "poll"
  else "other".

Definition apply_paraphrase_rules (cfg : Config) (s : string) : string :=
  if negb (truthy_list (paraphrase_rules cfg)) || String.eqb s "" then s
  else foldl (fun modified rule => str_replace (fst rule) (snd rule) modified)
             s (paraphrase_rules cfg).

(** [create_input_media]; the [InputMedia*] constructors take a file id and
    an optional caption and do not raise, so the [except] branch is not
    modelled. *)
Definition create_input_media (m : Message) (cap : option string) : option InputMedia :=
  match photo m with
  | p :: ps => Some {| im_kind := Photo; im_media := List.last (p :: ps) p; im_caption := cap |}
  | [] =>
      match video m with
      | Some f => Some {| im_kind := Video; im_media := f; im_caption := cap |}
      | None =>
          match document m with
          | Some f => Some {| im_kind := Document; im_media := f; im_caption := cap |}
          | None =>
              match audio m with
              | Some f => Some {| im_kind := Audio; im_media := f; im_caption := cap |}
              | None => None
              end
          end
      end
  end.

Definition need_process (cfg : Config) : bool :=
  enabled (deepseek_settings cfg)
  || truthy_list (paraphrase_rules cfg)
  || add_source_info (forward_settings cfg).

Section Bot.

(** [str.lower] and [str.strip] act on Unicode text; the embedding is
    parametric in them. *)
Variable lower : string -> string.
Variable strip : string -> string.

Definition should_filter_message (cfg : Config) (m : Message) (ct : string) : bool :=
  if existsb (String.eqb ct) (filter_content_types (forward_settings cfg)) then true
  else
    let message_content := default "" (py_or (text m) (caption m)) in
    if negb (String.eqb message_content "")
       && truthy_list (keyword_filter (forward_settings cfg))
    then
      let text_lower := lower message_content in
      existsb (fun keyword => is_substring (lower keyword) text_lower)
              (keyword_filter (forward_settings cfg))
    else false.

(** The arguments of [client.chat.completions.create]. *)
Definition chat_request (settings : DeepSeekSettings) (s : string) : ChatRequest :=
  {| req_model := model settings;
     req_system := system_prompt settings;
     req_user := s;
     req_max_tokens := max_tokens settings |}.

(** [DeepSeekRewriter.rewrite_text]; [client] is [self.client]. *)
Definition rewrite_text (settings : DeepSeekSettings) (client : option Client)
    (s : string) : string :=
  if negb (enabled settings) then s
  else
    match client with
    | None => s
    | Some create =>
        if String.eqb s "" || String.eqb (strip s) "" then s
        else
          match create (chat_request settings s) with
          | ChatRaises _ => s
          | ChatChoices [] => s                    (* choices[0]: IndexError *)
          | ChatChoices (None :: _) => s           (* None.strip(): AttributeError *)
          | ChatChoices (Some content :: _) => strip content
          end
    end.

Definition source_info (cfg : Config) (m : Message) : string :=
  let chat_title :=
    if truthy_str (title (chat m)) then default "" (title (chat m))
    else str_of_int (chat_ident (chat m)) in
  let time_str := strftime (date m) in
  nl +:+ nl +:+ "📢 来源: " +:+ chat_title +:+ nl +:+ "⏰ 时间: " +:+ time_str
  +:+ match from_user m with
      | Some u =>
          if preserve_sender (forward_settings cfg)
          then nl +:+ "👤 发送者: " +:+ full_name u
          else ""
      | None => ""
      end.

Definition build_caption (cfg : Config) (client : option Client) (m : Message) : string :=
  let original_text := default "" (py_or (caption m) (text m)) in
  let processed_text := apply_paraphrase_rules cfg original_text in
  let processed_text :=
    if enabled (deepseek_settings cfg)
    then rewrite_text (deepseek_settings cfg) client processed_text
    else processed_text in
  if add_source_info (forward_settings cfg)
  then processed_text +:+ source_info cfg m
  else processed_text.

(** The body of the [for i, message in enumerate(messages)] loop of
    [forward_media_group], with the running index. *)
Fixpoint build_media_list (caption_text : string) (i : nat) (messages : list Message)
    : list InputMedia :=
  match messages with
  | [] => []
  | message :: rest =>
      let input_media :=
        match i with
        | O => create_input_media message (Some caption_text)
        | S _ => create_input_media message None
        end in
      match input_media with
      | Some im => im :: build_media_list caption_text (S i) rest
      | None => build_media_list caption_text (S i) rest
      end
  end.

Definition group_row (target : Z) (ok : bool) (e : option string) (msg : Message) : log_row :=
  {| source_chat_id := chat_id msg; target_chat_id := target;
     original_msg_id := message_id msg; forwarded_msg_id := None;
     content_type := get_message_type msg;
     row_media_group_id := media_group_id msg;
     is_media_group := true; success := ok; error_msg := e |}.

Definition single_row (target : Z) (ct : string) (ok : bool) (e : option string)
    (msg : Message) : log_row :=
  {| source_chat_id := chat_id msg; target_chat_id := target;
     original_msg_id := message_id msg; forwarded_msg_id := None;
     content_type := ct; row_media_group_id := None;
     is_media_group := false; success := ok; error_msg := e |}.

(** [messages[0]] *)
Definition first_message (messages : list Message) : M Message :=
  match messages with
  | [] => raise "IndexError"
  | m0 :: _ => ret m0
  end.

Definition forward_media_group (cfg : Config) (api : BotApi) (client : option Client)
    (messages : list Message) : M unit :=
  for_each (target_channels cfg) (fun target_id =>
    try_except
      (m0 <- first_message messages ;;
       let caption_text := build_caption cfg client m0 in
       let media_list := build_media_list caption_text O messages in
       when (truthy_list media_list)
         (call api (send_media_group target_id media_list) ;;;
          emit (Stat messages_forwarded (length messages)) ;;;
          emit (Stat media_groups_forwarded 1) ;;;
          for_each messages (fun msg =>
            emit (LogForward (group_row target_id true None msg)))))
      (fun e =>
         emit (Stat failed_forwards (length messages)) ;;;
         for_each messages (fun msg =>
           emit (LogForward (group_row target_id false (Some e) msg))) ;;;
         when (notify_admin_on_error cfg)
           (m0 <- first_message messages ;;
            emit (NotifyAdminsError m0 target_id e)))).

(** The attribute reads of the typed sends: [message.photo[-1].file_id],
    [message.video.file_id], ... *)
Definition last_photo (m : Message) : M string :=
  match photo m with
  | [] => raise "IndexError"
  | p :: ps => ret (List.last (p :: ps) p)
  end.

Definition file_id (o : option string) : M string :=
  match o with
  | None => raise "AttributeError"
  | Some f => ret f
  end.

Definition send_single (cfg : Config) (api : BotApi) (client : option Client)
    (message : Message) (ct : string) (target_id : Z) : M unit :=
  if need_process cfg then
    let cap := build_caption cfg client message in
    if String.eqb ct "text" then call api (send_message target_id cap)
    else if String.eqb ct "photo" then
      f <- last_photo message ;; call api (send_photo target_id f cap)
    else if String.eqb ct "video" then
      f <- file_id (video message) ;; call api (send_video target_id f cap)
    else if String.eqb ct "document" then
      f <- file_id (document message) ;; call api (send_document target_id f cap)
    else if String.eqb ct "audio" then
      f <- file_id (audio message) ;; call api (send_audio target_id f cap)
    else if String.eqb ct "voice" then
      f <- file_id (voice message) ;; call api (send_voice target_id f cap)
    else if String.eqb ct "animation" then
      f <- file_id (animation message) ;; call api (send_animation target_id f cap)
    else call api (copy_message target_id (chat_id message) (message_id message))
  else call api (copy_message target_id (chat_id message) (message_id message)).

Definition forward_single_message (cfg : Config) (api : BotApi) (client : option Client)
    (message : Message) : M unit :=
  let ct := get_message_type message in
  for_each (target_channels cfg) (fun target_id =>
    try_except
      (send_single cfg api client message ct target_id ;;;
       emit (Stat messages_forwarded 1) ;;;
       emit (LogForward (single_row target_id ct true None message)))
      (fun e =>
         emit (Stat failed_forwards 1) ;;;
         emit (LogForward (single_row target_id ct false (Some e) message)) ;;;
         when (notify_admin_on_error cfg)
           (emit (NotifyAdminsError message target_id e)))).

Definition forward_messages_group (cfg : Config) (api : BotApi) (client : option Client)
    (messages : list Message) : M unit :=
  match messages with
  | [] => ret tt
  | m0 :: _ =>
      if negb (truthy_list (target_channels cfg)) then ret tt
      else
        when (0 <? delay_seconds (forward_settings cfg))
             (emit (Sleep (delay_seconds (forward_settings cfg)))) ;;;
        if (1 <? length messages)%nat && truthy_str (media_group_id m0)
        then forward_media_group cfg api client messages
        else forward_single_message cfg api client m0
  end.

(** [handle_message] up to the hand-over to the media-group handler.
    [awaiting_input] is [context.user_data.get('awaiting_input')]; the
    counter [stats['messages_received']] is not part of the handler state. *)
Inductive route := NoMessage | AdminInput | NotSource | Filtered | Aggregated.

Definition handle_message_route (cfg : Config) (awaiting_input : bool)
    (update : option Message) : route :=
  match update with
  | None => NoMessage
  | Some message =>
      let is_admin :=
        match from_user message with
        | Some u => negb (user_id u =? 0) && existsb (Z.eqb (user_id u)) (admins cfg)
        | None => false
        end in
      if is_admin && awaiting_input then AdminInput
      else if negb (existsb (Z.eqb (chat_id message)) (source_channels cfg)) then NotSource
      else if should_filter_message cfg message (get_message_type message) then Filtered
      else Aggregated
  end.

Definition handle_message (cfg : Config) (awaiting_input : bool)
    (update : option Message) (h : handler) : handler :=
  match handle_message_route cfg awaiting_input update, update with
  | Aggregated, Some message => add_message message h
  | _, _ => h
  end.

End Bot.

(** ** ASCII instances of [str.lower] and [str.strip], for running examples *)

Definition lower_char (c : ascii) : ascii :=
  let n := nat_of_ascii c in
  if (65 <=? n)%nat && (n <=? 90)%nat then ascii_of_nat (n + 32) else c.

Fixpoint ascii_lower (s : string) : string :=
  match s with
  | EmptyString => EmptyString
  | String c r => String (lower_char c) (ascii_lower r)
  end.

Definition is_space (c : ascii) : bool :=
  let n := nat_of_ascii c in
  ((9 <=? n)%nat && (n <=? 13)%nat) || ((28 <=? n)%nat && (n <=? 32)%nat).

Fixpoint lstrip (l : list ascii) : list ascii :=
  match l with
  | c :: r => if is_space c then lstrip r else l
  | [] => []
  end.

Definition ascii_strip (s : string) : string :=
  string_of_list_ascii
    (rev (lstrip (rev (lstrip (list_ascii_of_string s))))).

Definition mk_item (id : Z) (g : option string) : Message :=
  {| message_id := id; chat := {| chat_ident := -100; title := Some "src" |};
     date := {| year := 2024; month := 1; day := 2; hour := 3; minute := 4; second := 5 |};
     from_user := None; media_group_id := g; text := None; caption := None;
     photo := ["p" ]; video := None; document := None; audio := None;
     voice := None; sticker := None; animation := None;
     location := false; poll := false |}.

Definition cfg0 : Config :=
  {| admins := [1]; source_channels := [-100]; target_channels := [7; 8];
     forward_settings :=
       {| preserve_sender := true; add_source_info := true;
          filter_content_types := []; keyword_filter := ["spam"];
          delay_seconds := 0; media_group_timeout := 3 |};
     notify_admin_on_error := true;
     paraphrase_rules := [("src", "dst")];
     deepseek_settings := {| enabled := false; system_prompt := ""; model := "deepseek-chat"; max_tokens := 2000 |} |}.

(** ** Vocabulary of the statements about the handler *)

Definition sleeping (t : task) : Prop :=
  match status t with Sleeping _ => True | _ => False end.

Definition ascending (l : list Message) : Prop :=
  StronglySorted Z.le (map message_id l).

Definition unique_ids (l : list Message) : Prop :=
  NoDup (map message_id l).

(** The messages submitted by a list of events, oldest first. *)
Definition submitted (es : list event) : list Message :=
  omap (fun e => match e with Submit _ m => Some m | _ => None end) es.

(** The key under which an item is buffered, paired with its id. *)
Definition buffer_slot (m : Message) : option string * Z :=
  (group_key m, message_id m).

(** Example items: the album of the scenario (ids 5 and 3, group "g1"), a
    group-less item, and a late third item of the album. *)
Definition item_A : Message := mk_item 5 (Some "g1").
Definition item_B : Message := mk_item 3 (Some "g1").
Definition item_C : Message := mk_item 9 (Some "g1").
Definition item_S : Message := mk_item 8 None.

(** Items buffered under the same group have pairwise distinct ids. *)
Definition distinct_in_group (l : list Message) : Prop :=
  NoDup (map buffer_slot (filter (fun m => is_Some (group_key m)) l)).

(** What C8 asks of the handler reached from a fresh start by the events
    [es]: every buffer and every forwarded batch is unique by item id. *)
Definition unique_batches (w : Z) (es : list event) : Prop :=
  (forall g buf, media_groups (run es (init w)) !! g = Some buf -> unique_ids buf) /\
  (forall b, b ∈ forwarded (run es (init w)) -> unique_ids b).

(** Every buffer is duplicate-free and made of submitted items of its own
    group; every forwarded batch is duplicate-free. *)
Definition buffers_unique (S : list Message) (h : handler) : Prop :=
  (forall g buf, media_groups h !! g = Some buf ->
     unique_ids buf /\ forall x, x ∈ buf -> x ∈ S /\ group_key x = Some g) /\
  (forall b, b ∈ forwarded h -> unique_ids b).

(** ** Vocabulary for a group debounced amid other traffic *)

Definition live (x : task) : Prop :=
  match status x with Sleeping _ | Forwarding => True | _ => False end.

(** A batch forwarded for group [g]: its first item is keyed [g]. *)
Definition batch_of (g : string) (b : list Message) : bool :=
  match b with
  | m :: _ => bool_decide (group_key m = Some g)
  | [] => false
  end.

Definition batches_of (g : string) (F : list (list Message)) : list (list Message) :=
  List.filter (batch_of g) F.

(** Every buffer is non-empty and holds items of its own key; every timer
    handle denotes a task of its own group. *)
Definition keyed (h : handler) : Prop :=
  (forall g' buf, media_groups h !! g' = Some buf ->
     buf <> [] /\ Forall (fun x => group_key x = Some g') buf) /\
  (forall g' tid, group_timers h !! g' = Some tid ->
     exists x, tasks h !! tid = Some x /\ task_group x = g').

(** Group [g] has nothing buffered, no timer and no live task. *)
Definition fresh (g : string) (h : handler) : Prop :=
  media_groups h !! g = None /\ group_timers h !! g = None /\
  (forall i x, tasks h !! i = Some x -> task_group x = g -> ~ live x).

(** Group [g] holds [msgs]; its timer, task [tid], sleeps until [d]; no other
    task of the group is live. *)
Definition armed (g : string) (d : Z) (msgs : list Message) (tid : nat)
    (h : handler) : Prop :=
  keyed h /\
  media_groups h !! g = Some msgs /\
  group_timers h !! g = Some tid /\
  tasks h !! tid = Some {| task_group := g; status := Sleeping d |} /\
  (forall i x, i <> tid -> tasks h !! i = Some x -> task_group x = g -> ~ live x).

(** No task of group [g] is waiting on its timer. *)
Definition settled (g : string) (h : handler) : Prop :=
  keyed h /\
  (forall i x, tasks h !! i = Some x -> task_group x = g -> ~ sleeping x).

(** Events that submit nothing to group [g]. *)
Definition foreign (g : string) (e : event) : Prop :=
  match e with
  | Submit _ m => group_key m <> Some g
  | _ => True
  end.

(** A run of events after an item of [g] arrived at time [t], the clock
    standing at [n]: time does not go back, every further item of [g] arrives
    less than [w] after the one before it, and everything else happens before
    the window of the latest item of [g] has elapsed. *)
Fixpoint paced (w : Z) (g : string) (t n : Z) (es : list event) : Prop :=
  match es with
  | [] => True
  | Submit t' m :: r =>
      n <= t' < t + w /\
      if bool_decide (group_key m = Some g) then paced w g t' t' r
      else paced w g t t' r
  | Tick t' :: r => n <= t' < t + w /\ paced w g t t' r
  | ForwardReturns _ :: r => paced w g t n r
  end.

(** The arrival time of the last item of [g], [t] if there is none. *)
Fixpoint last_arrival (g : string) (t : Z) (es : list event) : Z :=
  match es with
  | [] => t
  | Submit t' m :: r =>
      if bool_decide (group_key m = Some g) then last_arrival g t' r
      else last_arrival g t r
  | _ :: r => last_arrival g t r
  end.

(** The items of [g] among the submitted ones, oldest first. *)
Definition items_of (g : string) (es : list event) : list Message :=
  List.filter (fun m => bool_decide (group_key m = Some g)) (submitted es).

(** Task [i], if it was live, may have left its state for one that is not a
    sleep; nothing else changed. *)
Definition retires (i : nat) (ts ts' : list task) : Prop :=
  ts' = ts \/
  exists x s, ts !! i = Some x /\ live x /\ (forall d, s <> Sleeping d) /\
              ts' = set_status i s ts.

(** The tasks of group [g] are the same, under the same handles. *)
Definition tasks_kept (g : string) (ts ts' : list task) : Prop :=
  (forall j x, ts !! j = Some x -> task_group x = g -> ts' !! j = Some x) /\
  (forall j y, ts' !! j = Some y -> task_group y = g -> ts !! j = Some y).

(** An item of another album, for traffic beside group g1. *)
Definition item_X : Message := mk_item 7 (Some "g2").

(** ** Vocabulary of the statements about the rewriter and the filter *)

(** The client is missing, or the request raises inside the [try] block:
    the API call itself (error, timeout), [choices[0]] on an empty list, or
    [.strip()] on a missing content. *)
Definition rewrite_unavailable (client : option Client) (req : ChatRequest) : Prop :=
  match client with
  | None => True
  | Some create =>
      match create req with
      | ChatRaises _ | ChatChoices [] | ChatChoices (None :: _) => True
      | ChatChoices (Some _ :: _) => False
      end
  end.

Definition ai_disabled (cfg : Config) : Config :=
  {| admins := admins cfg; source_channels := source_channels cfg;
     target_channels := target_channels cfg;
     forward_settings := forward_settings cfg;
     notify_admin_on_error := notify_admin_on_error cfg;
     paraphrase_rules := paraphrase_rules cfg;
     deepseek_settings :=
       {| enabled := false;
          system_prompt := system_prompt (deepseek_settings cfg);
          model := model (deepseek_settings cfg);
          max_tokens := max_tokens (deepseek_settings cfg) |} |}.

(** The text [build_caption] hands to the rewriter. *)
Definition pre_transform_text (cfg : Config) (m : Message) : string :=
  apply_paraphrase_rules cfg (default "" (py_or (caption m) (text m))).

(** An optional string attribute is present with value [s]. *)
Definition present (o : option string) (s : string) : Prop :=
  o = Some s /\ s <> "".

(** [kw] occurs in [s] when case is ignored. *)
Definition keyword_hit (lower : string -> string) (kw s : string) : Prop :=
  exists pre post, lower s = pre +:+ lower kw +:+ post.

(** C4 as stated: the text body or the caption contains a keyword. *)
Definition filters_text_or_caption (lower : string -> string)
    (cfg : Config) (m : Message) (ct : string) : Prop :=
  should_filter_message lower cfg m ct = true <->
  (In ct (filter_content_types (forward_settings cfg)) \/
   exists kw s, In kw (keyword_filter (forward_settings cfg)) /\
                (present (text m) s \/ present (caption m) s) /\
                keyword_hit lower kw s).

(** The one text the filter looks at: the text body when there is one,
    otherwise the caption. *)
Definition effective_text (m : Message) : option string :=
  if truthy_str (text m) then text m
  else if truthy_str (caption m) then caption m
  else None.

Definition with_text (m : Message) (t c : option string) : Message :=
  {| message_id := message_id m; chat := chat m; date := date m;
     from_user := from_user m; media_group_id := media_group_id m;
     text := t; caption := c; photo := photo m; video := video m;
     document := document m; audio := audio m; voice := voice m;
     sticker := sticker m; animation := animation m;
     location := location m; poll := poll m |}.

(** A photo with the caption of the scenario, and an item carrying both a
    text body and a caption. *)
Definition item_spam : Message := with_text item_S None (Some "This is SPAM").
Definition item_both : Message := with_text item_S (Some "hello") (Some "this is spam").

(** ** Vocabulary of the statements about the dispatcher *)

Definition call_chat (c : api_call) : Z :=
  match c with
  | send_message t _ | send_photo t _ _ | send_video t _ _
  | send_document t _ _ | send_audio t _ _ | send_voice t _ _
  | send_animation t _ _ | copy_message t _ _ | send_media_group t _ => t
  end.

(** The delivery attempts of a trace: destination and whether the send
    returned. *)
Definition attempts (tr : list effect) : list (Z * bool) :=
  omap (fun e => match e with
                 | Called c r => Some (call_chat c, negb (truthy_obj r))
                 | _ => None
                 end) tr.

(** What [log_forward] recorded: destination and success flag of each row. *)
Definition recorded (tr : list effect) : list (Z * bool) :=
  map (fun r => (target_chat_id r, success r)) (logs tr).

(** The bot API call [forward_single_message] makes for a message whose
    content type is [get_message_type message]. *)
Definition single_call (strip : string -> string) (cfg : Config)
    (client : option Client) (m : Message) (t : Z) : api_call :=
  let cap := build_caption strip cfg client m in
  let copy := copy_message t (chat_id m) (message_id m) in
  if negb (need_process cfg) then copy
  else if truthy_str (text m) then send_message t cap
  else
    match photo m, video m, document m, audio m, voice m with
    | p :: ps, _, _, _, _ => send_photo t (List.last (p :: ps) p) cap
    | [], Some f, _, _, _ => send_video t f cap
    | [], None, Some f, _, _ => send_document t f cap
    | [], None, None, Some f, _ => send_audio t f cap
    | [], None, None, None, Some f => send_voice t f cap
    | [], None, None, None, None =>
        if truthy_obj (sticker m) then copy
        else match animation m with
             | Some f => send_animation t f cap
             | None => copy
             end
    end.

(** The effects of one round of the destination loop. *)
Definition notify_effect (cfg : Config) (m : Message) (t : Z) (e : string) : list effect :=
  if notify_admin_on_error cfg then [NotifyAdminsError m t e] else [].

Definition attempt_single (strip : string -> string) (cfg : Config) (api : BotApi)
    (client : option Client) (m : Message) (t : Z) : list effect :=
  let c := single_call strip cfg client m t in
  let ct := get_message_type m in
  match api c with
  | None =>
      [Called c None; Stat messages_forwarded 1;
       LogForward (single_row t ct true None m)]
  | Some e =>
      [Called c (Some e); Stat failed_forwards 1;
       LogForward (single_row t ct false (Some e) m)] ++ notify_effect cfg m t e
  end.

Definition attempt_group (strip : string -> string) (cfg : Config) (api : BotApi)
    (client : option Client) (m0 : Message) (messages : list Message) (t : Z)
    : list effect :=
  let media_list := build_media_list (build_caption strip cfg client m0) O messages in
  let c := send_media_group t media_list in
  if truthy_list media_list then
    match api c with
    | None =>
        [Called c None; Stat messages_forwarded (length messages);
         Stat media_groups_forwarded 1]
        ++ map (fun msg => LogForward (group_row t true None msg)) messages
    | Some e =>
        [Called c (Some e); Stat failed_forwards (length messages)]
        ++ map (fun msg => LogForward (group_row t false (Some e) msg)) messages
        ++ notify_effect cfg m0 t e
    end
  else [].

(** Batches as the handler forms them: one item, or several items of a
    group. *)
Definition well_formed_batch (msgs : list Message) : Prop :=
  match msgs with
  | [] => False
  | [_] => True
  | m0 :: _ => truthy_str (media_group_id m0) = true
  end.

(** An item [create_input_media] can encode. *)
Definition encodable (m : Message) : bool :=
  truthy_obj (create_input_media m None).

(** The batch gives the destination loop something to send. *)
Definition sendable (msgs : list Message) : bool :=
  match msgs with
  | [_] => true
  | _ => existsb encodable msgs
  end.

(** Every destination, in order, has one outcome; the rows logged for it
    (one per item of the batch) carry that outcome, which is the result of
    the send to it; [notified] says which destinations the admins hear of. *)
Definition outcomes_recorded (notified : list (Z * bool) -> list Z)
    (targets : list Z) (items : nat) (r : M unit) : Prop :=
  snd r = Ok tt /\
  exists outcomes : list bool,
    length outcomes = length targets /\
    attempts (fst r) = zip targets outcomes /\
    recorded (fst r) = flat_map (fun p => repeat p items) (zip targets outcomes) /\
    notifications (fst r) = notified (zip targets outcomes).

Definition failed_targets (l : list (Z * bool)) : list Z :=
  map fst (filter (fun p => snd p = false) l).

(** C3 as stated: one outcome per destination and one notification per
    failed destination. *)
Definition one_outcome_per_destination (strip : string -> string) (cfg : Config)
    (api : BotApi) (client : option Client) (msgs : list Message) : Prop :=
  outcomes_recorded failed_targets (target_channels cfg) (length msgs)
    (forward_messages_group strip cfg api client msgs).

(** The sleep before the destination loop. *)
Definition delay_effects (cfg : Config) : list effect :=
  if truthy_list (target_channels cfg) && (0 <? delay_seconds (forward_settings cfg))
  then [Sleep (delay_seconds (forward_settings cfg))] else [].

(** The admins hear of the failed destinations only when the switch is on. *)
Definition notified_if (on : bool) (l : list (Z * bool)) : list Z :=
  if on then failed_targets l else [].

(** Whether the send of one round returned. *)
Definition sent_ok (api : BotApi) (c : api_call) : bool := negb (truthy_obj (api c)).

(** The media of a group: what the first item contributes, with the caption,
    and what the others contribute, without one. *)
Definition lead_media (cap : string) (m0 : Message) : list InputMedia :=
  option_list (create_input_media m0 (Some cap)).

Definition other_media (rest : list Message) : list InputMedia :=
  omap (fun m => create_input_media m None) rest.

(** C6 as stated: every item of the batch is copied to every destination. *)
Definition copied_verbatim (strip : string -> string) (cfg : Config)
    (api : BotApi) (client : option Client) (msgs : list Message) : Prop :=
  calls (fst (forward_messages_group strip cfg api client msgs))
  = flat_map (fun t => map (fun m => copy_message t (chat_id m) (message_id m)) msgs)
             (target_channels cfg).

(** The text of an item before any transformation. *)
Definition original_text (m : Message) : string :=
  default "" (py_or (caption m) (text m)).

Definition media_types : list string := ["photo"; "video"; "document"; "audio"].

(** C10 as stated: an item is encoded exactly when its content type is one
    of the four media types. *)
Definition encoded_by_content_type (m : Message) : Prop :=
  encodable m = true <-> In (get_message_type m) media_types.

(** The content type of the item is one of the four media types. *)
Definition media_typed (m : Message) : bool :=
  existsb (String.eqb (get_message_type m)) media_types.

(** Items as Telegram delivers them: media comes with a caption, never with
    a text body. *)
Definition text_or_media (m : Message) : Prop :=
  truthy_str (text m) && encodable m = false.

(** The item carries photo, video, document or audio media. *)
Definition carries_media (m : Message) : Prop :=
  photo m <> [] \/ is_Some (video m) \/ is_Some (document m) \/ is_Some (audio m).

(** ** Example configurations, Telegram behaviours and items *)

(** No transformation configured; admins are told of errors. *)
Definition cfg_plain : Config :=
  {| admins := [1]; source_channels := [-100]; target_channels := [7; 8];
     forward_settings :=
       {| preserve_sender := true; add_source_info := false;
          filter_content_types := ["sticker"]; keyword_filter := ["spam"];
          delay_seconds := 0; media_group_timeout := 3 |};
     notify_admin_on_error := true;
     paraphrase_rules := [];
     deepseek_settings :=
       {| enabled := false; system_prompt := "rewrite"; model := "deepseek-chat";
          max_tokens := 2000 |} |}.

(** The same with [notify_admin_on_error] switched off. *)
Definition cfg_silent : Config :=
  {| admins := admins cfg_plain; source_channels := source_channels cfg_plain;
     target_channels := target_channels cfg_plain;
     forward_settings := forward_settings cfg_plain;
     notify_admin_on_error := false;
     paraphrase_rules := paraphrase_rules cfg_plain;
     deepseek_settings := deepseek_settings cfg_plain |}.

(** AI rewriting switched on. *)
Definition cfg_ai : Config :=
  {| admins := admins cfg_plain; source_channels := source_channels cfg_plain;
     target_channels := target_channels cfg_plain;
     forward_settings := forward_settings cfg_plain;
     notify_admin_on_error := true;
     paraphrase_rules := [("cat", "dog")];
     deepseek_settings :=
       {| enabled := true; system_prompt := "rewrite"; model := "deepseek-chat";
          max_tokens := 2000 |} |}.

(** Every send to chat 7 raises, every other send returns. *)
Definition api_x_down : BotApi :=
  fun c => if call_chat c =? 7 then Some "Forbidden" else None.

Definition api_up : BotApi := fun _ => None.

(** A client whose every request times out. *)
Definition client_timeout : Client := fun _ => ChatRaises "Request timed out.".

Definition with_media (m : Message) (ph : list string) (vo : option string) : Message :=
  {| message_id := message_id m; chat := chat m; date := date m;
     from_user := from_user m; media_group_id := media_group_id m;
     text := text m; caption := caption m; photo := ph; video := video m;
     document := document m; audio := audio m; voice := vo;
     sticker := sticker m; animation := animation m;
     location := location m; poll := poll m |}.

(** Two voice notes sharing a group id, an album whose second photo has a
    caption, and an item carrying both a text body and a photo. *)
Definition voice_1 : Message := with_media item_B [] (Some "v1").
Definition voice_2 : Message := with_media item_A [] (Some "v2").
Definition photo_1 : Message := item_B.
Definition photo_2 : Message := with_text item_A None (Some "second").
Definition text_photo : Message := with_text item_A (Some "hi") None.
Definition cat_photo : Message := with_text item_S None (Some "a cat").

(** ** Vocabulary of the further properties of handler and dispatcher *)

(** The two shapes of a batch handed to the forward callback. *)
Definition batch_shape (b : list Message) : Prop :=
  (exists m, b = [m] /\ group_key m = None) \/
  (exists g, b <> [] /\ Forall (fun x => group_key x = Some g) b).

(** Timers, live tasks and buffers go together: a live task is the one
    registered for its group, a registered task is live, and a group has a
    timer exactly when it has a buffer. *)
Definition coherent (h : handler) : Prop :=
  (forall i x, tasks h !! i = Some x -> live x ->
     group_timers h !! task_group x = Some i) /\
  (forall g i, group_timers h !! g = Some i ->
     exists x, tasks h !! i = Some x /\ task_group x = g /\ live x) /\
  (forall g, is_Some (group_timers h !! g) <-> is_Some (media_groups h !! g)).

Definition same_stat (a b : stat_key) : bool :=
  match a, b with
  | messages_received, messages_received
  | messages_forwarded, messages_forwarded
  | failed_forwards, failed_forwards
  | media_groups_forwarded, media_groups_forwarded => true
  | _, _ => false
  end.

(** What a trace adds to counter [k] of [self.stats]. *)
Fixpoint stat_total (k : stat_key) (tr : list effect) : nat :=
  match tr with
  | [] => O
  | Stat k' n :: r => ((if same_stat k k' then n else O) + stat_total k r)%nat
  | _ :: r => stat_total k r
  end.

Definition sleeps (tr : list effect) : list Z :=
  omap (fun e => match e with Sleep s => Some s | _ => None end) tr.

(** The number of destinations whose send returned, and of those whose send
    raised. *)
Definition delivered (tr : list effect) : nat :=
  length (List.filter (fun p => snd p) (attempts tr)).

Definition undelivered (tr : list effect) : nat :=
  length (List.filter (fun p => negb (snd p)) (attempts tr)).

Definition with_sender (m : Message) (u : option User) : Message :=
  {| message_id := message_id m; chat := chat m; date := date m;
     from_user := u; media_group_id := media_group_id m;
     text := text m; caption := caption m; photo := photo m; video := video m;
     document := document m; audio := audio m; voice := voice m;
     sticker := sticker m; animation := animation m;
     location := location m; poll := poll m |}.


(** The trace of the destination loop a non-empty batch is routed to. *)
Definition rounds (strip : string -> string) (cfg : Config) (api : BotApi)
    (client : option Client) (m0 : Message) (rest : list Message) : list effect :=
  if (1 <? length (m0 :: rest))%nat && truthy_str (media_group_id m0)
  then flat_map (attempt_group strip cfg api client m0 (m0 :: rest)) (target_channels cfg)
  else flat_map (attempt_single strip cfg api client m0) (target_channels cfg).



(** Rows of [forward_logs] written with and without the success flag. *)
Definition rows_ok (tr : list effect) : nat :=
  length (List.filter success (logs tr)).

Definition rows_failed (tr : list effect) : nat :=
  length (List.filter (fun r => negb (success r)) (logs tr)).


(** ** [escape_markdown_v2]

    [re.sub] with the character class of [escape_chars] puts a backslash
    before every character of the class. The characters of the class are
    ASCII, so on the UTF-8 bytes of a text the substitution is the same as on
    its code points. *)
Definition escape_chars : string := "_*[]()~`>#+-=|{}.!".

Definition is_escape_char (c : ascii) : bool :=
  existsb (Ascii.eqb c) (list_ascii_of_string escape_chars).

Definition backslash : ascii := ascii_of_nat 92.

Fixpoint escape_markdown_v2 (s : string) : string :=
  match s with
  | EmptyString => EmptyString
  | String c r =>
      if is_escape_char c
      then String backslash (String c (escape_markdown_v2 r))
      else String c (escape_markdown_v2 r)
  end.

(** The number of characters of the class in a text. *)
Fixpoint specials (s : string) : nat :=
  match s with
  | EmptyString => O
  | String c r => ((if is_escape_char c then 1 else 0) + specials r)%nat
  end.


(** ** [handle_admin_input]

    The branches that change a field of [Config]. The action is the value
    stored in [user_data] by [button_callback]; [input_text] is
    [update.message.text], absent when the admin sends something that is not
    text. The coroutine's replies are reduced to their kind. *)
Inductive admin_action :=
| add_admin | remove_admin
| add_source | remove_source
| add_target | remove_target
| set_delay
| add_paraphrase_rule | remove_paraphrase_rule
| add_keyword_filter | remove_keyword_filter
| set_deepseek_prompt | set_deepseek_model.

Inductive reply :=
| Accepted         (* the change was made and [save_config] called *)
| Refused          (* an error reply of the branch itself *)
| InvalidNumber    (* [except ValueError] *)
| Failed.          (* [except Exception] *)

(** [l.remove(x)]: the first occurrence goes. *)
Fixpoint py_remove {A} (eqb : A -> A -> bool) (x : A) (l : list A) : list A :=
  match l with
  | [] => []
  | y :: r => if eqb y x then r else y :: py_remove eqb x r
  end.

(** [d[k] = v], [del d[k]] and [k in d] on a dict kept in insertion order. *)
Fixpoint dict_set (k v : string) (d : list (string * string)) : list (string * string) :=
  match d with
  | [] => [(k, v)]
  | (k', v') :: r =>
      if String.eqb k' k then (k', v) :: r else (k', v') :: dict_set k v r
  end.

Fixpoint dict_del (k : string) (d : list (string * string)) : list (string * string) :=
  match d with
  | [] => []
  | (k', v') :: r => if String.eqb k' k then r else (k', v') :: dict_del k r
  end.

Definition dict_has (k : string) (d : list (string * string)) : bool :=
  existsb (fun p => String.eqb (fst p) k) d.

(** ['=' in s] and [s.split('=', 1)] in one: the parts around the first
    equals sign, if there is one. *)
Fixpoint split_eq (s : string) : option (string * string) :=
  match s with
  | EmptyString => None
  | String c r =>
      if Ascii.eqb c "="%char then Some (EmptyString, r)
      else match split_eq r with
           | Some (k, v) => Some (String c k, v)
           | None => None
           end
  end.

Definition with_admins (cfg : Config) (l : list Z) : Config :=
  {| admins := l; source_channels := source_channels cfg;
     target_channels := target_channels cfg;
     forward_settings := forward_settings cfg;
     notify_admin_on_error := notify_admin_on_error cfg;
     paraphrase_rules := paraphrase_rules cfg;
     deepseek_settings := deepseek_settings cfg |}.

Definition with_sources (cfg : Config) (l : list Z) : Config :=
  {| admins := admins cfg; source_channels := l;
     target_channels := target_channels cfg;
     forward_settings := forward_settings cfg;
     notify_admin_on_error := notify_admin_on_error cfg;
     paraphrase_rules := paraphrase_rules cfg;
     deepseek_settings := deepseek_settings cfg |}.

Definition with_targets (cfg : Config) (l : list Z) : Config :=
  {| admins := admins cfg; source_channels := source_channels cfg;
     target_channels := l;
     forward_settings := forward_settings cfg;
     notify_admin_on_error := notify_admin_on_error cfg;
     paraphrase_rules := paraphrase_rules cfg;
     deepseek_settings := deepseek_settings cfg |}.

Definition with_forward_settings (cfg : Config) (fs : ForwardSettings) : Config :=
  {| admins := admins cfg; source_channels := source_channels cfg;
     target_channels := target_channels cfg;
     forward_settings := fs;
     notify_admin_on_error := notify_admin_on_error cfg;
     paraphrase_rules := paraphrase_rules cfg;
     deepseek_settings := deepseek_settings cfg |}.

Definition with_delay (cfg : Config) (d : Z) : Config :=
  with_forward_settings cfg
    {| preserve_sender := preserve_sender (forward_settings cfg);
       add_source_info := add_source_info (forward_settings cfg);
       filter_content_types := filter_content_types (forward_settings cfg);
       keyword_filter := keyword_filter (forward_settings cfg);
       delay_seconds := d;
       media_group_timeout := media_group_timeout (forward_settings cfg) |}.

Definition with_keywords (cfg : Config) (l : list string) : Config :=
  with_forward_settings cfg
    {| preserve_sender := preserve_sender (forward_settings cfg);
       add_source_info := add_source_info (forward_settings cfg);
       filter_content_types := filter_content_types (forward_settings cfg);
       keyword_filter := l;
       delay_seconds := delay_seconds (forward_settings cfg);
       media_group_timeout := media_group_timeout (forward_settings cfg) |}.

Definition with_rules (cfg : Config) (d : list (string * string)) : Config :=
  {| admins := admins cfg; source_channels := source_channels cfg;
     target_channels := target_channels cfg;
     forward_settings := forward_settings cfg;
     notify_admin_on_error := notify_admin_on_error cfg;
     paraphrase_rules := d;
     deepseek_settings := deepseek_settings cfg |}.

Definition with_deepseek (cfg : Config) (ds : DeepSeekSettings) : Config :=
  {| admins := admins cfg; source_channels := source_channels cfg;
     target_channels := target_channels cfg;
     forward_settings := forward_settings cfg;
     notify_admin_on_error := notify_admin_on_error cfg;
     paraphrase_rules := paraphrase_rules cfg;
     deepseek_settings := ds |}.

Section AdminInput.

(** [int(input_text)], [None] standing for [ValueError], and [str.strip]. *)
Variable parse_int : string -> option Z.
Variable strip : string -> string.

(** [if x not in l: l.append(x)] with its two replies. *)
Definition add_to (l : list Z) (x : Z) (store : list Z -> Config) (cfg : Config)
    : Config * reply :=
  if negb (existsb (Z.eqb x) l) then (store (l ++ [x]), Accepted) else (cfg, Refused).

(** [if x in l: l.remove(x)] with its two replies. *)
Definition remove_from (l : list Z) (x : Z) (store : list Z -> Config) (cfg : Config)
    : Config * reply :=
  if existsb (Z.eqb x) l then (store (py_remove Z.eqb x l), Accepted) else (cfg, Refused).

Definition handle_admin_input (action : admin_action) (input_text : option string)
    (cfg : Config) : Config * reply :=
  match input_text with
  | None => (cfg, Failed)        (* int(None), '=' in None, None.strip() *)
  | Some input_text =>
      match action with
      | add_admin =>
          match parse_int input_text with
          | Some n => add_to (admins cfg) n (with_admins cfg) cfg
          | None => (cfg, InvalidNumber)
          end
      | remove_admin =>
          match parse_int input_text with
          | Some n => remove_from (admins cfg) n (with_admins cfg) cfg
          | None => (cfg, InvalidNumber)
          end
      | add_source =>
          match parse_int input_text with
          | Some n => add_to (source_channels cfg) n (with_sources cfg) cfg
          | None => (cfg, InvalidNumber)
          end
      | remove_source =>
          match parse_int input_text with
          | Some n => remove_from (source_channels cfg) n (with_sources cfg) cfg
          | None => (cfg, InvalidNumber)
          end
      | add_target =>
          match parse_int input_text with
          | Some n => add_to (target_channels cfg) n (with_targets cfg) cfg
          | None => (cfg, InvalidNumber)
          end
      | remove_target =>
          match parse_int input_text with
          | Some n => remove_from (target_channels cfg) n (with_targets cfg) cfg
          | None => (cfg, InvalidNumber)
          end
      | set_delay =>
          match parse_int input_text with
          | Some delay =>
              if delay <? 0 then (cfg, Refused) else (with_delay cfg delay, Accepted)
          | None => (cfg, InvalidNumber)
          end
      | add_paraphrase_rule =>
          match split_eq input_text with
          | Some (key, value) =>
              let key := strip key in
              let value := strip value in
              if negb (String.eqb key "") && negb (String.eqb value "")
              then (with_rules cfg (dict_set key value (paraphrase_rules cfg)), Accepted)
              else (cfg, Refused)
          | None => (cfg, Refused)
          end
      | remove_paraphrase_rule =>
          let key := strip input_text in
          if dict_has key (paraphrase_rules cfg)
          then (with_rules cfg (dict_del key (paraphrase_rules cfg)), Accepted)
          else (cfg, Refused)
      | add_keyword_filter =>
          let keyword := strip input_text in
          if negb (String.eqb keyword "")
             && negb (existsb (String.eqb keyword) (keyword_filter (forward_settings cfg)))
          then (with_keywords cfg (keyword_filter (forward_settings cfg) ++ [keyword]),
                Accepted)
          else (cfg, Refused)
      | remove_keyword_filter =>
          let keyword := strip input_text in
          if existsb (String.eqb keyword) (keyword_filter (forward_settings cfg))
          then (with_keywords cfg
                  (py_remove String.eqb keyword (keyword_filter (forward_settings cfg))),
                Accepted)
          else (cfg, Refused)
      | set_deepseek_prompt =>
          (with_deepseek cfg
             {| enabled := enabled (deepseek_settings cfg);
                system_prompt := strip input_text;
                model := model (deepseek_settings cfg);
                max_tokens := max_tokens (deepseek_settings cfg) |}, Accepted)
      | set_deepseek_model =>
          (with_deepseek cfg
             {| enabled := enabled (deepseek_settings cfg);
                system_prompt := system_prompt (deepseek_settings cfg);
                model := strip input_text;
                max_tokens := max_tokens (deepseek_settings cfg) |}, Accepted)
      end
  end.

(** A sequence of admin inputs, each handled on the configuration the
    previous one left. *)
Definition admin_inputs (ins : list (admin_action * option string)) (cfg : Config)
    : Config :=
  foldl (fun c i => fst (handle_admin_input (fst i) (snd i) c)) cfg ins.

End AdminInput.

(** What the admin inputs keep true of a configuration: no list names an id
    or keyword twice, no rule key occurs twice, the delay is not negative,
    and no keyword and no side of a rule is empty. *)
Definition tidy (cfg : Config) : Prop :=
  NoDup (admins cfg) /\ NoDup (source_channels cfg) /\ NoDup (target_channels cfg) /\
  NoDup (keyword_filter (forward_settings cfg)) /\
  NoDup (map fst (paraphrase_rules cfg)) /\
  0 <= delay_seconds (forward_settings cfg) /\
  Forall (fun kw => kw <> "") (keyword_filter (forward_settings cfg)) /\
  Forall (fun r => fst r <> "" /\ snd r <> "") (paraphrase_rules cfg).

(** A decimal reader for running examples: an optional sign and digits. *)
Definition parse_decimal (s : string) : option Z :=
  match NilZero.int_of_string s with
  | Some d => Some (Z.of_int d)
  | None => None
  end.

(** A count over traces that adds up over concatenation. *)
Definition additive (f : list effect -> nat) : Prop :=
  f [] = O /\ forall a b, f (a ++ b) = (f a + f b)%nat.


(** ** [notify_admins_error]

    [now] is [datetime.now()]. *)
Definition error_text (now : DateTime) (m : Message) (target_id : Z) (error_msg : string)
    : string :=
  let chat_title :=
    if truthy_str (title (chat m)) then default "" (title (chat m))
    else str_of_int (chat_ident (chat m)) in
  let time_str := strftime now in
  "❌ 转发失败通知" +:+ nl +:+ nl
  +:+ "📢 源频道: " +:+ chat_title +:+ nl
  +:+ "🎯 目标频道: " +:+ str_of_int target_id +:+ nl
  +:+ "⚠️ 错误信息: " +:+ error_msg +:+ nl
  +:+ "⏰ 时间: " +:+ time_str.

Definition notify_admins_error (cfg : Config) (api : BotApi) (now : DateTime)
    (m : Message) (target_id : Z) (error_msg : string) : M unit :=
  let text := error_text now m target_id error_msg in
  for_each (admins cfg) (fun admin_id =>
    try_except (call api (send_message admin_id text)) (fun _ => ret tt)).

(** ** [load_config]

    What [json.load] returns. A float is kept as its literal. Objects are
    kept in insertion order. *)
#[warnings="-register-all"]
Inductive json :=
| JNull
| JBool (b : bool)
| JInt (n : Z)
| JFloat (literal : string)
| JStr (s : string)
| JList (l : list json)
| JDict (d : list (string * json)).

Fixpoint jget (k : string) (d : list (string * json)) : option json :=
  match d with
  | [] => None
  | (k', v) :: r => if String.eqb k' k then Some v else jget k r
  end.

Fixpoint jset (k : string) (v : json) (d : list (string * json)) : list (string * json) :=
  match d with
  | [] => [(k, v)]
  | (k', v') :: r => if String.eqb k' k then (k', v) :: r else (k', v') :: jset k v r
  end.

Definition is_str (k : string) (j : json) : bool :=
  match j with
  | JStr s => String.eqb s k
  | _ => false
  end.

(** [k in c], [c[k]] and [c[k] = v] for a string [k]; [None] is the
    exception Python raises ([TypeError], [KeyError]). *)
Definition py_contains (c : json) (k : string) : option bool :=
  match c with
  | JDict d => Some (bool_decide (is_Some (jget k d)))
  | JList l => Some (existsb (is_str k) l)
  | JStr s => Some (is_substring k s)
  | JNull | JBool _ | JInt _ | JFloat _ => None
  end.

Definition py_getitem (c : json) (k : string) : option json :=
  match c with
  | JDict d => jget k d
  | _ => None
  end.

Definition py_setitem (c : json) (k : string) (v : json) : option json :=
  match c with
  | JDict d => Some (JDict (jset k v d))
  | _ => None
  end.

(** The inner loop over [value.items()]: every round reads [config[key]];
    the assignment [config[key][sub_key] = sub_value] changes that object in
    place, which is written here as storing the changed section back under
    [key]. *)
Fixpoint merge_sub (subs : list (string * json)) (key : string) (config : json)
    : option json :=
  match subs with
  | [] => Some config
  | (sub_key, sub_value) :: rest =>
      match py_getitem config key with
      | None => None
      | Some section =>
          match py_contains section sub_key with
          | None => None
          | Some true => merge_sub rest key config
          | Some false =>
              match py_setitem section sub_key sub_value with
              | None => None
              | Some section' =>
                  match py_setitem config key section' with
                  | None => None
                  | Some config' => merge_sub rest key config'
                  end
              end
          end
      end
  end.

(** The loop over [default_config.items()]. *)
Fixpoint merge_top (defaults : list (string * json)) (config : json) : option json :=
  match defaults with
  | [] => Some config
  | (key, value) :: rest =>
      match py_contains config key with
      | None => None
      | Some false =>
          match py_setitem config key value with
          | None => None
          | Some config' => merge_top rest config'
          end
      | Some true =>
          match value with
          | JDict subs =>
              match merge_sub subs key config with
              | None => None
              | Some config' => merge_top rest config'
              end
          | _ => merge_top rest config
          end
      end
  end.

Definition default_entries : list (string * json) :=
  [ ("bot_token", JStr "YOUR_BOT_TOKEN_HERE");
    ("admins", JList []);
    ("source_channels", JList []);
    ("target_channels", JList []);
    ("forward_settings", JDict
       [ ("preserve_sender", JBool true);
         ("add_source_info", JBool true);
         ("filter_content_types", JList []);
         ("keyword_filter", JList []);
         ("delay_seconds", JInt 0);
         ("batch_forward", JBool false);
         ("max_forwards_per_minute", JInt 60);
         ("media_group_timeout", JInt 3) ]);
    ("notification_settings", JDict
       [ ("notify_admin_on_error", JBool true);
         ("daily_report", JBool true);
         ("report_channel", JNull) ]);
    ("paraphrase_rules", JDict []);
    ("deepseek_settings", JDict
       [ ("enabled", JBool false);
         ("api_key", JStr EmptyString);
         ("base_url", JStr "https://api.deepseek.com");
         ("model", JStr "deepseek-chat");
         ("system_prompt", JStr "你是一个专业的文本重写助手。请将用户提供的文本进行重写，保持原意但使用不同的表达方式。保持原文的语言。只返回重写后的文本，不要添加任何解释。");
         ("max_tokens", JInt 2000);
         ("temperature", JFloat "0.7") ]) ].

Definition default_config : json := JDict default_entries.

(** The configuration file: absent, not readable as JSON, or parsed. *)
Inductive config_file :=
| Missing
| Unreadable
| Loaded (j : json).

(** [load_config]: the configuration returned and, when the file is
    created, what [save_config] writes. *)
Definition load_config (f : config_file) : json * option json :=
  match f with
  | Missing => (default_config, Some default_config)
  | Unreadable => (default_config, None)
  | Loaded config =>
      match merge_top default_entries config with
      | Some config' => (config', None)
      | None => (default_config, None)
      end
  end.

(** A value that is neither a container nor a string. *)
Definition scalar (j : json) : bool :=
  match j with
  | JNull | JBool _ | JInt _ | JFloat _ => true
  | JStr _ | JList _ | JDict _ => false
  end.

Definition is_dict (j : json) : bool :=
  match j with
  | JDict _ => true
  | _ => false
  end.

(** The keys of [default_config] whose default is an object. *)
Definition section_defaults (k : string) : option (list (string * json)) :=
  match jget k default_entries with
  | Some (JDict subs) => Some subs
  | _ => None
  end.

(** What the inner loop makes of a section that is there: the defaults of
    the sub-keys it lacks are added. *)
Fixpoint fill_section (subs : list (string * json)) (section : json) : option json :=
  match subs with
  | [] => Some section
  | (sub_key, sub_value) :: rest =>
      match py_contains section sub_key with
      | None => None
      | Some true => fill_section rest section
      | Some false =>
          match py_setitem section sub_key sub_value with
          | None => None
          | Some section' => fill_section rest section'
          end
      end
  end.

(** What the outer loop leaves under key [k]. *)
Definition merged_entry (defaults d : list (string * json)) (k : string) : option json :=
  match jget k d with
  | None => jget k defaults
  | Some v =>
      match jget k defaults with
      | Some (JDict subs) => fill_section subs v
      | _ => Some v
      end
  end.


(** Every buffered item and every item of a forwarded batch is one of [S]. *)
Definition from_among (S : list Message) (h : handler) : Prop :=
  (forall g buf x, media_groups h !! g = Some buf -> x ∈ buf -> x ∈ S) /\
  (forall b x, b ∈ forwarded h -> x ∈ b -> x ∈ S).

(** ** [DeepSeekRewriter._init_client] and the status line of
    [button_callback]

    [api_key] is [settings.get('api_key')], a string when present;
    [connect] stands for the [AsyncOpenAI] constructor. *)
Definition init_client (connect : string -> string -> Client)
    (api_key base_url : option string) : option Client :=
  let api_key := default "" api_key in
  let base_url := default "https://api.deepseek.com" base_url in
  if negb (String.eqb api_key "")
     && negb (existsb (String.eqb api_key) [""; "put your api key here"; "your_api_key"])
  then Some (connect api_key base_url)
  else None.

(** [api_configured] of ["show_deepseek_status"]: whether the panel says
    the key is configured. *)
Definition api_configured (api_key : option string) : bool :=
  truthy_str api_key
  && negb (existsb (String.eqb (default "" api_key)) [""; "put your api key here"]).

(* ===================================================================== *)
(** * Properties *)
(* ===================================================================== *)

(** ** The stable sort by message id *)

Lemma insert_by_id_perm m l : Permutation (insert_by_id m l) (m :: l).
Proof.
  induction l as [|x r IH]; simpl; [reflexivity|].
  destruct (message_id m <=? message_id x); [reflexivity|].
  rewrite IH. apply perm_swap.
Qed.

Lemma sort_by_id_perm l : Permutation (sort_by_id l) l.
Proof.
  induction l as [|x r IH]; simpl; [constructor|].
  unfold sort_by_id in *. simpl. rewrite insert_by_id_perm. by constructor.
Qed.

Lemma insert_by_id_ascending m l : ascending l -> ascending (insert_by_id m l).
Proof.
  unfold ascending. induction l as [|x r IH]; simpl; intros Hs.
  - repeat constructor.
  - destruct (Z.leb_spec (message_id m) (message_id x)) as [Hle|Hgt]; simpl.
    + constructor; [exact Hs|].
      inversion Hs as [|? ? _ Hall]; subst. constructor; [exact Hle|].
      eapply Forall_impl; [exact Hall|]. simpl. intros; lia.
    + inversion Hs as [|? ? Hr Hall]; subst. constructor; [by apply IH|].
      assert (Hp : Permutation (map message_id (insert_by_id m r))
                               (message_id m :: map message_id r)).
      { change (message_id m :: map message_id r) with (map message_id (m :: r)).
        apply Permutation_map, insert_by_id_perm. }
      rewrite Hp. constructor; [lia | exact Hall].
Qed.

Lemma sort_by_id_ascending l : ascending (sort_by_id l).
Proof.
  induction l as [|x r IH]; [constructor|].
  unfold sort_by_id in *. simpl. by apply insert_by_id_ascending.
Qed.

Lemma sort_by_id_unique l : unique_ids l -> unique_ids (sort_by_id l).
Proof.
  unfold unique_ids. intros H.
  by rewrite (Permutation_map message_id (sort_by_id_perm l)).
Qed.

(** ** Timers *)

Lemma timer_fires_not_due tid h :
  (forall t d, tasks h !! tid = Some t -> status t = Sleeping d -> now h < d) ->
  timer_fires tid h = h.
Proof.
  intros H. unfold timer_fires.
  destruct (tasks h !! tid) as [t|] eqn:Ht; [|done].
  destruct (status t) as [d| | |] eqn:Hs; try done.
  specialize (H t d eq_refl Hs).
  destruct (Z.leb_spec d (now h)); [lia|done].
Qed.

(** The scenario of the specification: A (id 5) and B (id 3) of group g1
    arrive one unit apart, the window is 3; nothing is forwarded at time 3,
    and at time 4 the one batch [B, A] is. *)
Example scenario_album :
  forwarded (run [Submit 0 item_A; Submit 1 item_B; Tick 3] (init 3)) = [] /\
  forwarded (run [Submit 0 item_A; Submit 1 item_B; Tick 4] (init 3))
  = [[item_B; item_A]].
Proof. vm_compute. done. Qed.

(** C5. An item without a group id ([not message.media_group_id], which
    holds for a missing id and for an empty one): [add_message] calls the
    forward callback at once with the one-item batch; no buffer, timer or task
    is touched and the clock has not moved. *)
Theorem groupless_item_forwarded_at_once m h :
  group_key m = None ->
  forwarded (add_message m h) = forwarded h ++ [[m]] /\
  media_groups (add_message m h) = media_groups h /\
  group_timers (add_message m h) = group_timers h /\
  tasks (add_message m h) = tasks h /\
  now (add_message m h) = now h.
Proof.
  intros Hg. unfold add_message. rewrite Hg. simpl. done.
Qed.

Lemma groupless_item_witness :
  forwarded (add_message item_S (run [Submit 0 item_A] (init 3))) = [[item_S]] /\
  tasks (add_message item_S (run [Submit 0 item_A] (init 3)))
    = tasks (run [Submit 0 item_A] (init 3)).
Proof.
  destruct (groupless_item_forwarded_at_once item_S
              (run [Submit 0 item_A] (init 3)) eq_refl) as (Hf & _ & _ & Ht & _).
  split; [exact Hf | exact Ht].
Defined.

(** ** A group debounced amid other traffic *)

Lemma set_status_lookup i s ts j :
  set_status i s ts !! j
  = (fun x => {| task_group := task_group x;
                 status := if decide (i = j) then s else status x |}) <$> ts !! j.
Proof.
  unfold set_status. destruct (decide (i = j)) as [->|Hne].
  - rewrite list_lookup_alter_eq. by destruct (ts !! j).
  - rewrite list_lookup_alter_ne by done. by destruct (ts !! j) as [[]|].
Qed.

Lemma set_status_group i s ts j x :
  set_status i s ts !! j = Some x ->
  exists y, ts !! j = Some y /\ task_group y = task_group x /\
            status x = if decide (i = j) then s else status y.
Proof.
  rewrite set_status_lookup. destruct (ts !! j) as [y|]; [|done].
  simpl. intros [= <-]. by exists y.
Qed.

Lemma set_status_other i s ts j :
  i <> j -> set_status i s ts !! j = ts !! j.
Proof. intros H. unfold set_status. by rewrite list_lookup_alter_ne. Qed.

Lemma set_status_timers (timers : gmap string nat) i s ts :
  (forall g' tid, timers !! g' = Some tid ->
     exists x, ts !! tid = Some x /\ task_group x = g') ->
  forall g' tid, timers !! g' = Some tid ->
     exists x, set_status i s ts !! tid = Some x /\ task_group x = g'.
Proof.
  intros H g' tid Hl. destruct (H g' tid Hl) as (x & Hx & Hg).
  rewrite set_status_lookup, Hx. simpl. eexists. split; [done|]. done.
Qed.

Lemma sort_by_id_keyed g msgs :
  msgs <> [] -> Forall (fun x => group_key x = Some g) msgs ->
  sort_by_id msgs <> [] /\ Forall (fun x => group_key x = Some g) (sort_by_id msgs) /\
  batch_of g (sort_by_id msgs) = true.
Proof.
  intros Hne Hk.
  assert (Hk' : Forall (fun x => group_key x = Some g) (sort_by_id msgs))
    by (by rewrite (sort_by_id_perm msgs)).
  assert (Hne' : sort_by_id msgs <> []).
  { intros E. pose proof (sort_by_id_perm msgs) as Hp. rewrite E in Hp.
    apply Permutation_nil in Hp. done. }
  repeat split; try done.
  destruct (sort_by_id msgs) as [|m r]; [done|].
  apply Forall_cons in Hk' as [Hm _]. simpl. by apply bool_decide_eq_true.
Qed.

Lemma batches_of_snoc g F b :
  batches_of g (F ++ [b]) = batches_of g F ++ (if batch_of g b then [b] else []).
Proof. unfold batches_of. rewrite List.filter_app. simpl. by destruct (batch_of g b). Qed.

Lemma foreign_batch g g' b :
  g' <> g -> b <> [] -> Forall (fun x => group_key x = Some g') b ->
  batch_of g b = false.
Proof.
  intros Hne Hb Hk. destruct b as [|m r]; [done|].
  apply Forall_cons in Hk as [Hm _]. simpl.
  apply bool_decide_eq_false. rewrite Hm. congruence.
Qed.

Lemma retires_lookup i ts ts' j y :
  retires i ts ts' -> ts' !! j = Some y ->
  exists x, ts !! j = Some x /\ task_group x = task_group y /\
            (sleeping y -> sleeping x) /\ (live y -> live x) /\
            (j <> i -> y = x).
Proof.
  intros [->|(x & s & Hx & Hlive & Hs & ->)] Hy.
  - by exists y.
  - apply set_status_group in Hy as (z & Hz & Hg & Hst).
    exists z. split; [done|]. split; [done|].
    destruct (decide (i = j)) as [<-|Hne].
    + assert (z = x) as -> by congruence.
      repeat split; try done.
      intros Hsl. unfold sleeping in Hsl. rewrite Hst in Hsl.
      destruct s; try done. by destruct (Hs deadline).
    + assert (y = z) as -> by (destruct y, z; simpl in *; congruence).
      repeat split; done.
Qed.

Lemma retires_other i ts ts' j :
  retires i ts ts' -> j <> i -> ts' !! j = ts !! j.
Proof.
  intros [->|(x & s & _ & _ & _ & ->)] Hne; [done|].
  by apply set_status_other.
Qed.

Lemma retires_length i ts ts' : retires i ts ts' -> length ts' = length ts.
Proof.
  intros [->|(x & s & _ & _ & _ & ->)]; [done|].
  unfold set_status. apply length_alter.
Qed.

Lemma retires_timers (timers : gmap string nat) i ts ts' :
  retires i ts ts' ->
  (forall g' tid, timers !! g' = Some tid ->
     exists x, ts !! tid = Some x /\ task_group x = g') ->
  forall g' tid, timers !! g' = Some tid ->
     exists x, ts' !! tid = Some x /\ task_group x = g'.
Proof.
  intros [->|(x & s & _ & _ & _ & ->)] H; [done|]. by apply set_status_timers.
Qed.

Lemma cancel_retires tid ts : retires tid ts (cancel tid ts).
Proof.
  unfold cancel. destruct (ts !! tid) as [x|] eqn:Hx; [|by left].
  destruct (status x) eqn:Hs; try (by left);
    right; exists x, Cancelled; repeat split; try done;
    unfold live; by rewrite Hs.
Qed.

Lemma tasks_kept_refl g ts : tasks_kept g ts ts.
Proof. by split. Qed.

Lemma retires_kept g i ts ts' :
  retires i ts ts' ->
  (forall x, ts !! i = Some x -> live x -> task_group x <> g) ->
  tasks_kept g ts ts'.
Proof.
  intros Hr Hi.
  destruct Hr as [->|(x & s & Hx & Hlive & Hs & ->)]; [apply tasks_kept_refl|].
  pose proof (Hi x Hx Hlive) as Hne. split.
  - intros j y Hy Hg. destruct (decide (i = j)) as [<-|Hn].
    + congruence.
    + by rewrite set_status_other.
  - intros j y Hy Hg. destruct (decide (i = j)) as [<-|Hn].
    + apply set_status_group in Hy as (z & Hz & Hgz & _). congruence.
    + by rewrite set_status_other in Hy.
Qed.

Lemma tasks_kept_snoc g ts ts' new :
  tasks_kept g ts ts' -> length ts' = length ts -> task_group new <> g ->
  tasks_kept g ts (ts' ++ [new]).
Proof.
  intros [Ha Hb] Hlen Hn. split.
  - intros j x Hx Hg. rewrite lookup_app_l; [by apply Ha|].
    rewrite Hlen. by eapply lookup_lt_Some.
  - intros j y Hy Hg. apply lookup_app_Some in Hy as [Hy|[_ Hy]].
    + by apply Hb.
    + destruct (j - length ts')%nat; [|done]. simpl in Hy. congruence.
Qed.

(** What a timer firing for a group other than [g] leaves untouched. *)
Lemma timer_fires_frame g i h :
  keyed h ->
  (forall x, tasks h !! i = Some x -> sleeping x -> task_group x <> g) ->
  keyed (timer_fires i h) /\
  media_groups (timer_fires i h) !! g = media_groups h !! g /\
  group_timers (timer_fires i h) !! g = group_timers h !! g /\
  batches_of g (forwarded (timer_fires i h)) = batches_of g (forwarded h) /\
  tasks_kept g (tasks h) (tasks (timer_fires i h)) /\
  length (tasks (timer_fires i h)) = length (tasks h) /\
  now (timer_fires i h) = now h /\
  timeout_seconds (timer_fires i h) = timeout_seconds h.
Proof.
  intros [K1 K2] Hfor. unfold timer_fires.
  destruct (tasks h !! i) as [x|] eqn:Hx; [|by split_and!; try apply tasks_kept_refl].
  destruct (status x) as [d| | |] eqn:Hs;
    try (by split_and!; try apply tasks_kept_refl).
  destruct (d <=? now h); [|by split_and!; try apply tasks_kept_refl].
  assert (Hne : task_group x <> g).
  { apply (Hfor x eq_refl). unfold sleeping. by rewrite Hs. }
  assert (Hlive : live x) by (unfold live; by rewrite Hs).
  assert (Hkept : forall s, (forall d', s <> Sleeping d') ->
            retires i (tasks h) (set_status i s (tasks h)) /\
            tasks_kept g (tasks h) (set_status i s (tasks h))).
  { intros s Hsn.
    assert (Hret : retires i (tasks h) (set_status i s (tasks h))).
    { right. exists x, s. repeat split; done. }
    split; [done|]. apply (retires_kept g i); [done|]. intros y Hy _. congruence. }
  destruct (media_groups h !! task_group x) as [buf|] eqn:Hb; simpl.
  - destruct (K1 _ _ Hb) as [Hbne Hbk].
    destruct (sort_by_id_keyed _ _ Hbne Hbk) as (Hsne & Hsk & _).
    destruct (Hkept Forwarding) as [Hret Hk]; [done|].
    split_and!; try done.
    + split; simpl.
      * intros g' buf' Hl. destruct (decide (task_group x = g')) as [<-|Hn].
        -- rewrite lookup_insert_eq in Hl. by injection Hl as <-.
        -- rewrite lookup_insert_ne in Hl by done. by apply K1.
      * by apply (retires_timers _ i (tasks h)).
    + by rewrite lookup_insert_ne.
    + rewrite batches_of_snoc.
      rewrite (foreign_batch g (task_group x)) by done. by rewrite app_nil_r.
    + by apply retires_length in Hret.
  - destruct (Hkept Finished) as [Hret Hk]; [done|].
    split_and!; try done.
    + split; simpl; [done|]. by apply (retires_timers _ i (tasks h)).
    + by apply retires_length in Hret.
Qed.

Lemma forward_returns_keyed i h : keyed h -> keyed (forward_returns i h).
Proof.
  intros [K1 K2]. unfold forward_returns.
  destruct (tasks h !! i) as [x|] eqn:Hx; [|done].
  destruct (status x) eqn:Hs; try done.
  split; simpl.
  - intros g' buf Hl. apply lookup_delete_Some in Hl as [_ Hl]. by apply K1.
  - intros g' tid Hl. apply lookup_delete_Some in Hl as [_ Hl].
    by apply (set_status_timers (group_timers h)).
Qed.

Lemma forward_returns_retires i h :
  retires i (tasks h) (tasks (forward_returns i h)) /\
  forwarded (forward_returns i h) = forwarded h /\
  now (forward_returns i h) = now h /\
  timeout_seconds (forward_returns i h) = timeout_seconds h.
Proof.
  unfold forward_returns.
  destruct (tasks h !! i) as [x|] eqn:Hx; [|by split_and!; try left].
  destruct (status x) eqn:Hs; try (by split_and!; try left).
  split_and!; try done. right. exists x, Finished.
  split_and!; try done. unfold live. by rewrite Hs.
Qed.

(** What the completion of a dispatch of another group leaves untouched. *)
Lemma forward_returns_frame g i h :
  (forall x, tasks h !! i = Some x -> live x -> task_group x <> g) ->
  media_groups (forward_returns i h) !! g = media_groups h !! g /\
  group_timers (forward_returns i h) !! g = group_timers h !! g /\
  tasks_kept g (tasks h) (tasks (forward_returns i h)).
Proof.
  intros Hfor.
  destruct (forward_returns_retires i h) as (Hret & _).
  split_and!; [| |by apply (retires_kept g i)].
  - unfold forward_returns.
    destruct (tasks h !! i) as [x|] eqn:Hx; [|done].
    destruct (status x) eqn:Hs; try done. simpl.
    apply lookup_delete_ne, (Hfor x eq_refl). unfold live. by rewrite Hs.
  - unfold forward_returns.
    destruct (tasks h !! i) as [x|] eqn:Hx; [|done].
    destruct (status x) eqn:Hs; try done. simpl.
    apply lookup_delete_ne, (Hfor x eq_refl). unfold live. by rewrite Hs.
Qed.

(** What an item of another group, or of none, leaves untouched. *)
Lemma add_message_frame g m h :
  keyed h -> group_key m <> Some g ->
  keyed (add_message m h) /\
  media_groups (add_message m h) !! g = media_groups h !! g /\
  group_timers (add_message m h) !! g = group_timers h !! g /\
  batches_of g (forwarded (add_message m h)) = batches_of g (forwarded h) /\
  tasks_kept g (tasks h) (tasks (add_message m h)) /\
  now (add_message m h) = now h /\
  timeout_seconds (add_message m h) = timeout_seconds h.
Proof.
  intros [K1 K2] Hne. unfold add_message.
  destruct (group_key m) as [g'|] eqn:Hg.
  - assert (Hgg : g' <> g) by congruence.
    set (ts := match group_timers h !! g' with
               | Some tid => cancel tid (tasks h)
               | None => tasks h
               end).
    assert (Hts : tasks_kept g (tasks h) ts /\ length ts = length (tasks h) /\
                  forall g'' tid', group_timers h !! g'' = Some tid' ->
                    exists x, ts !! tid' = Some x /\ task_group x = g'').
    { subst ts. destruct (group_timers h !! g') as [tid|] eqn:Ht.
      - pose proof (cancel_retires tid (tasks h)) as Hret. split_and!.
        + apply (retires_kept g tid); [done|].
          intros x Hx _. destruct (K2 _ _ Ht) as (y & Hy & Hgy). congruence.
        + by apply retires_length in Hret.
        + by apply (retires_timers _ tid (tasks h)).
      - split_and!; [apply tasks_kept_refl|done|done]. }
    destruct Hts as (Hkept & Hlen & Htim).
    simpl. split_and!; try done.
    + split; simpl.
      * intros g'' buf Hl. destruct (decide (g' = g'')) as [<-|Hn].
        -- rewrite lookup_insert_eq in Hl. injection Hl as <-.
           split; [by destruct (default [] _)|].
           rewrite Forall_app. split; [|by repeat constructor].
           destruct (media_groups h !! g') as [old|] eqn:Ho; [|constructor].
           by destruct (K1 _ _ Ho).
        -- rewrite lookup_insert_ne in Hl by done. by apply K1.
      * intros g'' tid' Hl. destruct (decide (g' = g'')) as [<-|Hn].
        -- rewrite lookup_insert_eq in Hl. injection Hl as <-.
           eexists. split; [by apply list_lookup_middle|done].
        -- rewrite lookup_insert_ne in Hl by done.
           destruct (Htim _ _ Hl) as (x & Hx & Hgx).
           exists x. split; [|done]. rewrite lookup_app_l; [done|].
           by eapply lookup_lt_Some.
    + by rewrite lookup_insert_ne.
    + by rewrite lookup_insert_ne.
    + by apply tasks_kept_snoc.
  - simpl. split_and!; try done; try apply tasks_kept_refl.
    rewrite batches_of_snoc. simpl.
    rewrite bool_decide_eq_false_2 by (rewrite Hg; done). by rewrite app_nil_r.
Qed.

Lemma armed_kept g d msgs tid h h' :
  armed g d msgs tid h -> keyed h' ->
  media_groups h' !! g = media_groups h !! g ->
  group_timers h' !! g = group_timers h !! g ->
  tasks_kept g (tasks h) (tasks h') ->
  armed g d msgs tid h'.
Proof.
  intros (_ & Hm & Ht & Hx & Hothers) Hk Hm' Ht' [Ha Hb].
  split_and!; try done; try congruence.
  - by apply Ha.
  - intros i x Hi Hl Hg. apply (Hothers i x Hi); [|done]. by apply Hb.
Qed.

Lemma settled_kept g h h' :
  settled g h -> keyed h' -> tasks_kept g (tasks h) (tasks h') -> settled g h'.
Proof.
  intros [_ Hs] Hk [_ Hb]. split; [done|].
  intros i x Hx Hg. apply (Hs i x); [|done]. by apply Hb.
Qed.

Lemma live_sleeping x : sleeping x -> live x.
Proof. unfold sleeping, live. by destruct (status x). Qed.

Lemma timer_fires_armed_foreign g d msgs tid i h :
  armed g d msgs tid h -> i <> tid ->
  armed g d msgs tid (timer_fires i h) /\
  batches_of g (forwarded (timer_fires i h)) = batches_of g (forwarded h) /\
  length (tasks (timer_fires i h)) = length (tasks h) /\
  now (timer_fires i h) = now h /\
  timeout_seconds (timer_fires i h) = timeout_seconds h.
Proof.
  intros Ha Hi. pose proof Ha as (Hk & _ & _ & _ & Hothers).
  destruct (timer_fires_frame g i h Hk) as (Hk' & Hm & Ht & Hb & Hkept & Hrest).
  { intros x Hx Hs Hg. apply (Hothers i x Hi Hx Hg). by apply live_sleeping. }
  split; [by eapply armed_kept|]. by split.
Qed.

Lemma timer_fires_armed_early g d msgs tid h :
  armed g d msgs tid h -> now h < d -> timer_fires tid h = h.
Proof.
  intros (_ & _ & _ & Hx & _) Hn. apply timer_fires_not_due.
  intros t d' Ht Hs. rewrite Hx in Ht. injection Ht as <-. simpl in Hs.
  injection Hs as <-. done.
Qed.

Lemma timer_fires_armed_due g d msgs tid h :
  armed g d msgs tid h -> d <= now h ->
  settled g (timer_fires tid h) /\
  batches_of g (forwarded (timer_fires tid h))
  = batches_of g (forwarded h) ++ [sort_by_id msgs] /\
  length (tasks (timer_fires tid h)) = length (tasks h) /\
  now (timer_fires tid h) = now h /\
  timeout_seconds (timer_fires tid h) = timeout_seconds h.
Proof.
  intros ([K1 K2] & Hm & Ht & Hx & Hothers) Hd. unfold timer_fires.
  rewrite Hx. simpl. destruct (Z.leb_spec d (now h)); [|lia].
  rewrite Hm. simpl.
  destruct (K1 _ _ Hm) as [Hne Hkey].
  destruct (sort_by_id_keyed _ _ Hne Hkey) as (Hsne & Hsk & Hbo).
  split_and!; try done.
  - split; [split|]; simpl.
    + intros g' buf Hl. destruct (decide (g = g')) as [<-|Hn].
      * rewrite lookup_insert_eq in Hl. by injection Hl as <-.
      * rewrite lookup_insert_ne in Hl by done. by apply K1.
    + by apply set_status_timers.
    + intros i y Hy Hg Hs.
      apply set_status_group in Hy as (z & Hz & Hgz & Hst).
      destruct (decide (tid = i)) as [<-|Hn].
      * unfold sleeping in Hs. by rewrite Hst in Hs.
      * apply (Hothers i z); [done|done|congruence|].
        apply live_sleeping. unfold sleeping in *. by rewrite <- Hst.
  - rewrite batches_of_snoc. by rewrite Hbo.
  - unfold set_status. apply length_alter.
Qed.

Lemma timer_fires_settled g i h :
  settled g h ->
  settled g (timer_fires i h) /\
  batches_of g (forwarded (timer_fires i h)) = batches_of g (forwarded h) /\
  length (tasks (timer_fires i h)) = length (tasks h) /\
  now (timer_fires i h) = now h /\
  timeout_seconds (timer_fires i h) = timeout_seconds h.
Proof.
  intros Hs. pose proof Hs as [Hk Hns].
  destruct (timer_fires_frame g i h Hk) as (Hk' & _ & _ & Hb & Hkept & Hrest).
  { intros x Hx Hsl Hg. by apply (Hns i x). }
  split; [by eapply settled_kept|]. by split.
Qed.

Lemma foldl_invariant {A B} (I : A -> Prop) (f : A -> B -> A) (l : list B) :
  forall a, I a -> (forall a x, In x l -> I a -> I (f a x)) -> I (foldl f a l).
Proof.
  induction l as [|x r IH]; intros a Ha Hstep; [done|].
  simpl. apply IH.
  - apply Hstep; [by left|done].
  - intros a' y Hy. apply Hstep. by right.
Qed.

Lemma advance_armed_early g d msgs tid T h :
  armed g d msgs tid h -> Z.max (now h) T < d ->
  armed g d msgs tid (advance T h) /\
  batches_of g (forwarded (advance T h)) = batches_of g (forwarded h) /\
  now (advance T h) = Z.max (now h) T /\
  timeout_seconds (advance T h) = timeout_seconds h.
Proof.
  intros Ha Hn. unfold advance.
  apply (foldl_invariant
    (fun s => armed g d msgs tid s /\
              batches_of g (forwarded s) = batches_of g (forwarded h) /\
              now s = Z.max (now h) T /\
              timeout_seconds s = timeout_seconds h)).
  - by split_and!.
  - intros s i _ (Hs & Hb & Hnow & Hto).
    destruct (decide (i = tid)) as [->|Hi].
    + rewrite (timer_fires_armed_early g d msgs tid s) by (done || lia).
      by split_and!.
    + destruct (timer_fires_armed_foreign g d msgs tid i s Hs Hi)
        as (Hs' & Hb' & _ & Hnow' & Hto').
      split_and!; congruence.
Qed.

Lemma advance_settled g T h :
  settled g h ->
  settled g (advance T h) /\
  batches_of g (forwarded (advance T h)) = batches_of g (forwarded h) /\
  timeout_seconds (advance T h) = timeout_seconds h.
Proof.
  intros Hs. unfold advance.
  apply (foldl_invariant
    (fun s => settled g s /\
              batches_of g (forwarded s) = batches_of g (forwarded h) /\
              timeout_seconds s = timeout_seconds h)).
  - by split_and!.
  - intros s i _ (Hs' & Hb & Hto).
    destruct (timer_fires_settled g i s Hs') as (Hs'' & Hb' & _ & _ & Hto').
    split_and!; congruence.
Qed.

Lemma advance_armed_due g d msgs tid T h :
  armed g d msgs tid h -> d <= Z.max (now h) T ->
  settled g (advance T h) /\
  batches_of g (forwarded (advance T h))
  = batches_of g (forwarded h) ++ [sort_by_id msgs] /\
  timeout_seconds (advance T h) = timeout_seconds h.
Proof.
  intros Ha Hd. unfold advance.
  pose proof Ha as (_ & _ & _ & Hx & _).
  apply lookup_lt_Some in Hx.
  replace (length (tasks h))
    with (tid + S (length (tasks h) - S tid))%nat by lia.
  rewrite seq_app, foldl_app. simpl seq. simpl foldl.
  set (s0 := with_now (Z.max (now h) T) h).
  assert (H1 : armed g d msgs tid (foldl (fun s i => timer_fires i s) s0 (seq 0 tid)) /\
               batches_of g (forwarded (foldl (fun s i => timer_fires i s) s0 (seq 0 tid)))
               = batches_of g (forwarded h) /\
               now (foldl (fun s i => timer_fires i s) s0 (seq 0 tid)) = Z.max (now h) T /\
               timeout_seconds (foldl (fun s i => timer_fires i s) s0 (seq 0 tid))
               = timeout_seconds h).
  { apply (foldl_invariant
      (fun s => armed g d msgs tid s /\
                batches_of g (forwarded s) = batches_of g (forwarded h) /\
                now s = Z.max (now h) T /\
                timeout_seconds s = timeout_seconds h)).
    - by split_and!.
    - intros s i Hi (Hs & Hb & Hnow & Hto).
      apply in_seq in Hi.
      destruct (timer_fires_armed_foreign g d msgs tid i s Hs)
        as (Hs' & Hb' & _ & Hnow' & Hto'); [lia|].
      split_and!; congruence. }
  destruct H1 as (Hs1 & Hb1 & Hn1 & Ht1).
  destruct (timer_fires_armed_due g d msgs tid _ Hs1) as (Hs2 & Hb2 & _ & _ & Ht2);
    [lia|].
  apply (foldl_invariant
    (fun s => settled g s /\
              batches_of g (forwarded s)
              = batches_of g (forwarded h) ++ [sort_by_id msgs] /\
              timeout_seconds s = timeout_seconds h)).
  - split_and!; congruence.
  - intros s i _ (Hs' & Hb & Hto).
    destruct (timer_fires_settled g i s Hs') as (Hs'' & Hb' & _ & _ & Hto').
    split_and!; congruence.
Qed.

Lemma forward_returns_armed g d msgs tid i h :
  armed g d msgs tid h -> armed g d msgs tid (forward_returns i h).
Proof.
  intros Ha. pose proof Ha as (Hk & _ & _ & Hx & Hothers).
  destruct (decide (i = tid)) as [->|Hi].
  - unfold forward_returns. by rewrite Hx.
  - destruct (forward_returns_frame g i h) as (Hm & Ht & Hkept).
    { intros x Hxi Hl Hg. by apply (Hothers i x). }
    eapply armed_kept; try done. by apply forward_returns_keyed.
Qed.

Lemma forward_returns_settled g i h :
  settled g h -> settled g (forward_returns i h).
Proof.
  intros [Hk Hs]. split; [by apply forward_returns_keyed|].
  intros j y Hy Hg Hsl.
  destruct (forward_returns_retires i h) as (Hret & _).
  destruct (retires_lookup _ _ _ _ _ Hret Hy) as (x & Hx & Hgx & Hslx & _).
  apply (Hs j x); [done|congruence|by apply Hslx].
Qed.

(** An item of [g] joining the armed group re-arms it. *)
Lemma add_message_own g d msgs tid m h :
  armed g d msgs tid h -> group_key m = Some g ->
  armed g (now h + timeout_seconds h) (msgs ++ [m]) (length (tasks h))
        (add_message m h) /\
  forwarded (add_message m h) = forwarded h /\
  now (add_message m h) = now h /\
  timeout_seconds (add_message m h) = timeout_seconds h.
Proof.
  intros ([K1 K2] & Hm & Ht & Hx & Hothers) Hg.
  unfold add_message. rewrite Hg, Hm, Ht. simpl.
  assert (Hc : cancel tid (tasks h) = set_status tid Cancelled (tasks h)).
  { unfold cancel. by rewrite Hx. }
  rewrite Hc.
  assert (Hlen : length (set_status tid Cancelled (tasks h)) = length (tasks h))
    by (unfold set_status; apply length_alter).
  rewrite Hlen.
  destruct (K1 _ _ Hm) as [Hne Hkey].
  split_and!; try done.
  split_and!; simpl.
  - split; simpl.
    + intros g' buf Hl. destruct (decide (g = g')) as [<-|Hn].
      * rewrite lookup_insert_eq in Hl. injection Hl as <-.
        split; [by destruct msgs|]. rewrite Forall_app. by split; [|repeat constructor].
      * rewrite lookup_insert_ne in Hl by done. by apply K1.
    + intros g' tid' Hl. destruct (decide (g = g')) as [<-|Hn].
      * rewrite lookup_insert_eq in Hl. injection Hl as <-.
        eexists. split; [rewrite <- Hlen; by apply list_lookup_middle|done].
      * rewrite lookup_insert_ne in Hl by done.
        destruct (set_status_timers _ tid Cancelled _ K2 _ _ Hl) as (x & Hxl & Hgx).
        exists x. split; [|done]. rewrite lookup_app_l; [done|].
        by eapply lookup_lt_Some.
  - by rewrite lookup_insert_eq.
  - by rewrite lookup_insert_eq.
  - rewrite <- Hlen. by apply list_lookup_middle.
  - intros i x Hi Hl Hgx.
    apply lookup_app_Some in Hl as [Hl|[Hge Hl]].
    + apply set_status_group in Hl as (z & Hz & Hgz & Hst).
      case_decide as Hn.
      * unfold live. rewrite Hst. tauto.
      * intros Hlive. apply (Hothers i z); [done|done|congruence|].
        unfold live in *. by rewrite <- Hst.
    + rewrite Hlen in *. apply lookup_lt_Some in Hl. simpl in Hl. lia.
Qed.

(** The first item of [g] arms the group. *)
Lemma add_message_first g m h :
  keyed h -> fresh g h -> group_key m = Some g ->
  armed g (now h + timeout_seconds h) [m] (length (tasks h)) (add_message m h) /\
  forwarded (add_message m h) = forwarded h /\
  now (add_message m h) = now h /\
  timeout_seconds (add_message m h) = timeout_seconds h.
Proof.
  intros [K1 K2] (Hm & Ht & Hdead) Hg.
  unfold add_message. rewrite Hg, Hm, Ht. simpl.
  split_and!; try done.
  split_and!; simpl.
  - split; simpl.
    + intros g' buf Hl. destruct (decide (g = g')) as [<-|Hn].
      * rewrite lookup_insert_eq in Hl. injection Hl as <-.
        split; [done|]. by repeat constructor.
      * rewrite lookup_insert_ne in Hl by done. by apply K1.
    + intros g' tid' Hl. destruct (decide (g = g')) as [<-|Hn].
      * rewrite lookup_insert_eq in Hl. injection Hl as <-.
        eexists. split; [by apply list_lookup_middle|done].
      * rewrite lookup_insert_ne in Hl by done.
        destruct (K2 _ _ Hl) as (x & Hxl & Hgx).
        exists x. split; [|done]. rewrite lookup_app_l; [done|].
        by eapply lookup_lt_Some.
  - by rewrite lookup_insert_eq.
  - by rewrite lookup_insert_eq.
  - by apply list_lookup_middle.
  - intros i x Hi Hl Hgx.
    apply lookup_app_Some in Hl as [Hl|[Hge Hl]].
    + by apply (Hdead i x).
    + apply lookup_lt_Some in Hl. simpl in Hl. lia.
Qed.

Lemma keyed_init w : keyed (init w).
Proof. split; intros ? ? H; simpl in H; by rewrite lookup_empty in H. Qed.

Lemma other_key (k : option string) : exists g, k <> Some g.
Proof.
  destruct k as [s|]; [|by exists ""].
  exists (String "x" s). intros [= H].
  apply (f_equal String.length) in H. simpl in H. lia.
Qed.

(** [keyed] holds in every state the handler can reach. *)
Lemma keyed_step h e : keyed h -> keyed (step h e).
Proof.
  intros Hk.
  assert (Hadv : forall t, keyed (advance t h)).
  { intros t. unfold advance. apply (foldl_invariant keyed); [done|].
    intros s i _ Hs.
    destruct (tasks s !! i) as [x|] eqn:Hx.
    - destruct (other_key (Some (task_group x))) as [g Hg].
      apply (timer_fires_frame g i s Hs). intros y Hy _. congruence.
    - apply (timer_fires_frame "" i s Hs). intros y Hy. congruence. }
  destruct e as [t m|t|i]; simpl.
  - destruct (other_key (group_key m)) as [g Hg].
    by apply (add_message_frame g m _ (Hadv t) Hg).
  - apply Hadv.
  - by apply forward_returns_keyed.
Qed.

Lemma keyed_run es : forall h, keyed h -> keyed (run es h).
Proof.
  induction es as [|e r IH]; intros h Hk; [done|].
  apply (IH (step h e)). by apply keyed_step.
Qed.

Lemma fresh_init g w : fresh g (init w).
Proof. by split_and!. Qed.

Lemma advance_fresh g T h :
  keyed h -> fresh g h ->
  keyed (advance T h) /\ fresh g (advance T h) /\
  batches_of g (forwarded (advance T h)) = batches_of g (forwarded h) /\
  now (advance T h) = Z.max (now h) T /\
  timeout_seconds (advance T h) = timeout_seconds h.
Proof.
  intros Hk Hf. unfold advance.
  apply (foldl_invariant
    (fun s => keyed s /\ fresh g s /\
              batches_of g (forwarded s) = batches_of g (forwarded h) /\
              now s = Z.max (now h) T /\
              timeout_seconds s = timeout_seconds h)).
  - by split_and!.
  - intros s i _ (Hks & (Hm & Ht & Hdead) & Hb & Hnow & Hto).
    destruct (timer_fires_frame g i s Hks)
      as (Hk' & Hm' & Ht' & Hb' & [_ Hkept] & _ & Hnow' & Hto').
    { intros x Hx Hs Hg. apply (Hdead i x Hx Hg). by apply live_sleeping. }
    split_and!; try congruence. split_and!; try congruence.
    intros j y Hy Hg. apply (Hdead j y); [|done]. by apply Hkept.
Qed.

Lemma items_of_cons g e r :
  items_of g (e :: r) =
  match e with
  | Submit _ m => if bool_decide (group_key m = Some g) then m :: items_of g r
                  else items_of g r
  | _ => items_of g r
  end.
Proof. unfold items_of, submitted. by destruct e. Qed.

Lemma paced_run w g : 0 < w -> forall es h t msgs tid,
  armed g (t + w) msgs tid h -> timeout_seconds h = w -> now h < t + w ->
  paced w g t (now h) es ->
  exists tid',
    armed g (last_arrival g t es + w) (msgs ++ items_of g es) tid' (run es h) /\
    timeout_seconds (run es h) = w /\
    now (run es h) < last_arrival g t es + w /\
    batches_of g (forwarded (run es h)) = batches_of g (forwarded h).
Proof.
  intros Hw. induction es as [|e r IH]; intros h t msgs tid Ha Hto Hn Hp.
  - exists tid. simpl. rewrite app_nil_r. by split_and!.
  - change (run (e :: r) h) with (run r (step h e)).
    rewrite items_of_cons.
    destruct e as [t' m|t'|i]; simpl in Hp |- *.
    + destruct Hp as [Ht' Hp].
      destruct (advance_armed_early g (t + w) msgs tid t' h Ha)
        as (Ha1 & Hb1 & Hn1 & Hto1); [lia|].
      replace (Z.max (now h) t') with t' in Hn1 by lia.
      destruct (bool_decide (group_key m = Some g)) eqn:Hg.
      * apply bool_decide_eq_true in Hg.
        destruct (add_message_own g _ msgs tid m _ Ha1 Hg) as (Ha2 & Hf2 & Hn2 & Hto2).
        rewrite Hn1, Hto1, Hto in Ha2.
        destruct (IH (add_message m (advance t' h)) t' (msgs ++ [m]) _ Ha2)
          as (tid' & Ha3 & Hto3 & Hn3 & Hb3); [congruence|lia|by rewrite Hn2, Hn1|].
        exists tid'. rewrite <- app_assoc in Ha3. split_and!; try done.
        rewrite Hb3, Hf2. done.
      * apply bool_decide_eq_false in Hg.
        pose proof Ha1 as (Hk1 & _).
        destruct (add_message_frame g m _ Hk1 Hg)
          as (Hk2 & Hm2 & Ht2 & Hb2 & Hkept2 & Hn2 & Hto2).
        assert (Ha2 : armed g (t + w) msgs tid (add_message m (advance t' h)))
          by (by eapply armed_kept).
        destruct (IH (add_message m (advance t' h)) t msgs tid Ha2)
          as (tid' & Ha3 & Hto3 & Hn3 & Hb3); [congruence|lia|by rewrite Hn2, Hn1|].
        exists tid'. split_and!; try done. congruence.
    + destruct Hp as [Ht' Hp].
      destruct (advance_armed_early g (t + w) msgs tid t' h Ha)
        as (Ha1 & Hb1 & Hn1 & Hto1); [lia|].
      replace (Z.max (now h) t') with t' in Hn1 by lia.
      destruct (IH (advance t' h) t msgs tid Ha1)
        as (tid' & Ha3 & Hto3 & Hn3 & Hb3); [congruence|lia|by rewrite Hn1|].
      exists tid'. split_and!; try done. congruence.
    + destruct (forward_returns_retires i h) as (_ & Hf & Hn1 & Hto1).
      destruct (IH (forward_returns i h) t msgs tid)
        as (tid' & Ha3 & Hto3 & Hn3 & Hb3);
        [by apply forward_returns_armed|congruence|lia|by rewrite Hn1|].
      exists tid'. split_and!; try done. congruence.
Qed.

Lemma settled_run g es : forall h,
  settled g h -> Forall (foreign g) es ->
  settled g (run es h) /\
  batches_of g (forwarded (run es h)) = batches_of g (forwarded h).
Proof.
  induction es as [|e r IH]; intros h Hs Hf; [done|].
  apply Forall_cons in Hf as [He Hf].
  change (run (e :: r) h) with (run r (step h e)).
  assert (Hstep : settled g (step h e) /\
                  batches_of g (forwarded (step h e)) = batches_of g (forwarded h)).
  { destruct e as [t m|t|i]; simpl in *.
    - destruct (advance_settled g t h Hs) as (Hs1 & Hb1 & _).
      pose proof Hs1 as [Hk1 _].
      destruct (add_message_frame g m _ Hk1 He) as (Hk2 & _ & _ & Hb2 & Hkept & _).
      split; [by eapply settled_kept|congruence].
    - destruct (advance_settled g t h Hs) as (Hs1 & Hb1 & _). done.
    - destruct (forward_returns_retires i h) as (_ & Hfw & _).
      split; [by apply forward_returns_settled|by rewrite Hfw]. }
  destruct Hstep as [Hs1 Hb1].
  destruct (IH _ Hs1 Hf) as [Hs2 Hb2]. split; [done|congruence].
Qed.

(** C1. Items of one group [g], the first arriving at [t1] when the group is
    fresh, each further one less than the debounce window [w] after the one
    before it, amid any other traffic (items of other groups or of none,
    their timers and dispatches): no batch of [g] is forwarded while the
    window of the latest item has not elapsed; once time has reached the last
    arrival plus [w], exactly one batch of [g] has been forwarded, and it
    stays the only one whatever follows short of a new item of [g]; that
    batch holds every submitted item of [g], ascending by message id. *)
Theorem debounced_group_emits_one_sorted_batch w g h0 t1 m1 es :
  0 < w -> timeout_seconds h0 = w -> keyed h0 -> fresh g h0 -> now h0 <= t1 ->
  group_key m1 = Some g -> paced w g t1 t1 es ->
  let h := run (Submit t1 m1 :: es) h0 in
  let batch := sort_by_id (m1 :: items_of g es) in
  batches_of g (forwarded h) = batches_of g (forwarded h0) /\
  (forall T es', last_arrival g t1 es + w <= T -> Forall (foreign g) es' ->
     batches_of g (forwarded (run es' (advance T h)))
     = batches_of g (forwarded h0) ++ [batch]) /\
  Permutation batch (m1 :: items_of g es) /\
  ascending batch.
Proof.
  intros Hw Hto Hk Hf Hnow Hg Hp h batch.
  destruct (advance_fresh g t1 h0 Hk Hf) as (Hk1 & Hf1 & Hb1 & Hn1 & Hto1).
  replace (Z.max (now h0) t1) with t1 in Hn1 by lia.
  destruct (add_message_first g m1 _ Hk1 Hf1 Hg) as (Ha2 & Hfw2 & Hn2 & Hto2).
  rewrite Hn1, Hto1, Hto in Ha2.
  destruct (paced_run w g Hw es (add_message m1 (advance t1 h0)) t1 [m1] _ Ha2)
    as (tid & Ha3 & Hto3 & Hn3 & Hb3);
    [congruence|lia|by rewrite Hn2, Hn1|].
  change (run es (add_message m1 (advance t1 h0))) with h in *.
  assert (Hquiet : batches_of g (forwarded h) = batches_of g (forwarded h0)).
  { rewrite Hb3, Hfw2. done. }
  split_and!.
  - done.
  - intros T es' HT Hes'.
    destruct (advance_armed_due g _ _ tid T h Ha3) as (Hs4 & Hb4 & _); [lia|].
    destruct (settled_run g es' _ Hs4 Hes') as [_ Hb5].
    rewrite Hb5, Hb4, Hquiet. done.
  - apply sort_by_id_perm.
  - apply sort_by_id_ascending.
Qed.

Lemma debounced_group_witness :
  batches_of "g1"
    (forwarded
       (run [Submit 5 item_X; ForwardReturns 1%nat; Tick 20]
          (advance 4
             (run [Submit 0 item_A; Submit 1 item_S; Submit 1 item_B; Tick 3]
                (init 3)))))
  = [[item_B; item_A]].
Proof.
  assert (H0 : 0 < 3) by lia.
  assert (H1 : timeout_seconds (init 3) = 3) by reflexivity.
  assert (H2 : now (init 3) <= 0) by (simpl; lia).
  assert (H3 : group_key item_A = Some "g1") by reflexivity.
  assert (H4 : paced 3 "g1" 0 0 [Submit 1 item_S; Submit 1 item_B; Tick 3])
    by (simpl; lia).
  destruct (debounced_group_emits_one_sorted_batch 3 "g1" (init 3) 0 item_A
              [Submit 1 item_S; Submit 1 item_B; Tick 3]
              H0 H1 (keyed_init 3) (fresh_init "g1" 3) H2 H3 H4) as (_ & H & _).
  apply (H 4 [Submit 5 item_X; ForwardReturns 1%nat; Tick 20]).
  - simpl. lia.
  - repeat constructor; simpl; discriminate.
Defined.

(** ** Uniqueness of item ids in buffers and batches *)

Lemma buffers_unique_init w : buffers_unique [] (init w).
Proof.
  split; simpl.
  - intros g buf H. by rewrite lookup_empty in H.
  - intros b H. by apply not_elem_of_nil in H.
Qed.

Lemma timer_fires_unique S tid h :
  buffers_unique S h -> buffers_unique S (timer_fires tid h).
Proof.
  intros [Hb Hf]. unfold timer_fires.
  destruct (tasks h !! tid) as [t|]; [|done].
  destruct (status t) as [d| | |]; try done.
  destruct (d <=? now h); [|done].
  destruct (media_groups h !! task_group t) as [msgs|] eqn:Hm; [|done].
  destruct (Hb _ _ Hm) as [Hu Hin].
  split; simpl.
  - intros g buf Hl.
    destruct (decide (task_group t = g)) as [<-|Hne].
    + rewrite lookup_insert_eq in Hl. injection Hl as <-.
      split; [by apply sort_by_id_unique|].
      intros x Hx. apply Hin. by rewrite <- (sort_by_id_perm msgs).
    + rewrite lookup_insert_ne in Hl by done. by apply Hb.
  - intros b Hbin. apply elem_of_app in Hbin as [Hbin|Hbin]; [by apply Hf|].
    apply list_elem_of_singleton in Hbin as ->. by apply sort_by_id_unique.
Qed.

Lemma advance_unique S T h :
  buffers_unique S h -> buffers_unique S (advance T h).
Proof.
  intros H. unfold advance.
  assert (H' : buffers_unique S (with_now (Z.max (now h) T) h)) by exact H.
  revert H'. generalize (with_now (Z.max (now h) T) h).
  generalize (seq 0 (length (tasks h))).
  induction l as [|tid l IH]; intros h' H'; simpl; [done|].
  apply IH. by apply timer_fires_unique.
Qed.

Lemma forward_returns_unique S tid h :
  buffers_unique S h -> buffers_unique S (forward_returns tid h).
Proof.
  intros [Hb Hf]. unfold forward_returns.
  destruct (tasks h !! tid) as [t|]; [|done].
  destruct (status t); try done.
  split; simpl; [|done].
  intros g buf Hl. apply lookup_delete_Some in Hl as [_ Hl]. by apply Hb.
Qed.

Lemma add_message_unique S m h :
  buffers_unique S h ->
  (forall x, x ∈ S -> is_Some (group_key m) -> group_key x = group_key m ->
             message_id x <> message_id m) ->
  buffers_unique (S ++ [m]) (add_message m h).
Proof.
  intros [Hb Hf] Hfresh. unfold add_message.
  destruct (group_key m) as [g|] eqn:Hg; split; simpl.
  - intros g' buf Hl.
    destruct (decide (g = g')) as [<-|Hne].
    + rewrite lookup_insert_eq in Hl. injection Hl as <-.
      destruct (media_groups h !! g) as [old|] eqn:Hm; simpl.
      * destruct (Hb _ _ Hm) as [Hu Hin]. split.
        -- unfold unique_ids in *. rewrite map_app. simpl.
           apply NoDup_app. split; [done|]. split; [|apply NoDup_singleton].
           intros i Hi Hi'. apply list_elem_of_singleton in Hi' as ->.
           apply list_elem_of_fmap in Hi as (x & Hx & Hxin).
           destruct (Hin x Hxin) as [HxS Hxg].
           by apply (Hfresh x HxS (mk_is_Some _ _ eq_refl) Hxg).
        -- intros x Hx. apply elem_of_app in Hx as [Hx|Hx].
           ++ destruct (Hin x Hx). split; [apply elem_of_app; by left|done].
           ++ apply list_elem_of_singleton in Hx as ->.
              split; [apply elem_of_app; right; by apply list_elem_of_singleton|done].
      * split; [apply NoDup_singleton|].
        intros x Hx. apply list_elem_of_singleton in Hx as ->.
        split; [apply elem_of_app; right; by apply list_elem_of_singleton|done].
    + rewrite lookup_insert_ne in Hl by done.
      destruct (Hb _ _ Hl) as [Hu Hin]. split; [done|].
      intros x Hx. destruct (Hin x Hx). split; [apply elem_of_app; by left|done].
  - done.
  - intros g buf Hl. destruct (Hb _ _ Hl) as [Hu Hin]. split; [done|].
    intros x Hx. destruct (Hin x Hx). split; [apply elem_of_app; by left|done].
  - intros b Hbin. apply elem_of_app in Hbin as [Hbin|Hbin]; [by apply Hf|].
    apply list_elem_of_singleton in Hbin as ->. apply NoDup_singleton.
Qed.

Lemma submitted_snoc es e :
  submitted (es ++ [e]) =
  submitted es ++ match e with Submit _ m => [m] | _ => [] end.
Proof. unfold submitted. rewrite omap_app. by destruct e. Qed.

Lemma run_snoc es e h : run (es ++ [e]) h = step (run es h) e.
Proof. unfold run. by rewrite foldl_app. Qed.

Lemma distinct_in_group_snoc S m :
  distinct_in_group (S ++ [m]) ->
  distinct_in_group S /\
  (forall x, x ∈ S -> is_Some (group_key m) -> group_key x = group_key m ->
             message_id x <> message_id m).
Proof.
  unfold distinct_in_group. rewrite filter_app, map_app.
  destruct (decide (is_Some (group_key m))) as [Hs|Hn].
  - rewrite (filter_cons_True _ m []) by done. simpl.
    intros H. apply NoDup_app in H as (H1 & H2 & _). split; [done|].
    intros x Hx _ Hg Hid. apply (H2 (buffer_slot m)).
    + apply list_elem_of_fmap. exists x. split.
      * unfold buffer_slot. by rewrite Hg, Hid.
      * apply list_elem_of_filter. split; [by rewrite Hg | done].
    + by apply list_elem_of_singleton.
  - rewrite (filter_cons_False _ m []) by done. simpl. rewrite app_nil_r.
    intros H. split; [done|]. intros x _ Hs. by destruct Hn.
Qed.

Lemma run_unique w es :
  distinct_in_group (submitted es) ->
  buffers_unique (submitted es) (run es (init w)).
Proof.
  induction es as [|e es IH] using rev_ind; intros Hd.
  - apply buffers_unique_init.
  - rewrite submitted_snoc in *. rewrite run_snoc.
    destruct e as [t m|t|tid]; simpl.
    + apply distinct_in_group_snoc in Hd as [Hd Hfresh].
      apply add_message_unique; [|done]. by apply advance_unique, IH.
    + rewrite app_nil_r in *. by apply advance_unique, IH.
    + rewrite app_nil_r in *. by apply forward_returns_unique, IH.
Qed.

(** C8, as amended. When the items submitted to a group have pairwise
    distinct ids, every pending buffer and every forwarded batch is unique by
    item id, whatever the order and timing of the events. *)
Theorem distinct_ids_give_unique_batches w es :
  distinct_in_group (submitted es) -> unique_batches w es.
Proof.
  intros Hd. destruct (run_unique w es Hd) as [Hb Hf]. split.
  - intros g buf Hl. by destruct (Hb g buf Hl).
  - done.
Qed.

Lemma distinct_ids_witness :
  unique_batches 3 [Submit 0 item_A; Submit 1 item_B; Tick 4; Submit 9 item_C].
Proof.
  apply (distinct_ids_give_unique_batches 3
           [Submit 0 item_A; Submit 1 item_B; Tick 4; Submit 9 item_C]).
  apply (bool_decide_unpack _). vm_compute. exact I.
Defined.

(** C8, as stated, fails: the handler appends without looking at the ids, so
    an item submitted twice is buffered and forwarded twice. *)
Lemma resubmitted_item_is_duplicated :
  ~ unique_batches 3 [Submit 0 item_A; Submit 1 item_A; Tick 4].
Proof.
  intros [_ H].
  assert (Hin : [item_A; item_A] ∈
                forwarded (run [Submit 0 item_A; Submit 1 item_A; Tick 4] (init 3))).
  { vm_compute. apply list_elem_of_here. }
  specialize (H _ Hin). unfold unique_ids in H. simpl in H.
  apply NoDup_cons in H as [Hn _]. apply Hn. apply list_elem_of_here.
Qed.

(** C2. An item of a group that arrives after the group's timer has fired,
    while the batch is still being dispatched: it is appended to the very
    buffer that was handed to the dispatcher, the dispatching task is
    cancelled, a new timer is armed, and the group is forwarded a second
    time with the old items in it. *)
Theorem late_item_reopens_dispatched_group :
  let h1 := run [Submit 0 item_A; Submit 1 item_B; Tick 4] (init 3) in
  let h2 := step h1 (Submit 5 item_C) in
  (forwarded h1 = [[item_B; item_A]] /\
   tasks h1 !! 1%nat = Some {| task_group := "g1"; status := Forwarding |}) /\
  (media_groups h2 !! "g1" = Some [item_B; item_A; item_C] /\
   tasks h2 !! 1%nat = Some {| task_group := "g1"; status := Cancelled |}) /\
  forwarded (run [Tick 8] h2) = [[item_B; item_A]; [item_B; item_A; item_C]].
Proof. vm_compute. repeat split. Qed.

(** ** The destination loop *)

Lemma for_each_returns {X} (xs : list X) (body : X -> M unit) :
  (forall x, snd (body x) = Ok tt) ->
  for_each xs body = (flat_map (fun x => fst (body x)) xs, Ok tt).
Proof.
  intros H. induction xs as [|x r IH]; [done|].
  simpl. unfold bind. rewrite H, IH. done.
Qed.

Lemma for_each_rounds {X} (xs : list X) (body : X -> M unit) (f : X -> list effect) :
  (forall x, body x = (f x, Ok tt)) ->
  for_each xs body = (flat_map f xs, Ok tt).
Proof.
  intros H. rewrite for_each_returns by (intros x; by rewrite H).
  f_equal. induction xs as [|x r IH]; [done|]. simpl. by rewrite H, IH.
Qed.

Lemma for_each_emit {X} (xs : list X) (f : X -> effect) :
  for_each xs (fun x => emit (f x)) = (map f xs, Ok tt).
Proof.
  induction xs as [|x r IH]; [done|].
  simpl. unfold bind. by rewrite IH.
Qed.

Lemma send_single_call strip cfg api client m t :
  send_single strip cfg api client m (get_message_type m) t
  = call api (single_call strip cfg client m t).
Proof.
  unfold send_single, single_call, get_message_type.
  destruct (need_process cfg); [|done]. simpl.
  destruct (truthy_str (text m)); [done|]. simpl.
  unfold last_photo.
  destruct (photo m) as [|p ps]; simpl.
  2:{ unfold bind. simpl. by destruct (call api _). }
  destruct (video m); simpl.
  { unfold bind. simpl. by destruct (call api _). }
  destruct (document m); simpl.
  { unfold bind. simpl. by destruct (call api _). }
  destruct (audio m); simpl.
  { unfold bind. simpl. by destruct (call api _). }
  destruct (voice m); simpl.
  { unfold bind. simpl. by destruct (call api _). }
  destruct (sticker m); simpl; [done|].
  destruct (animation m); simpl.
  { unfold bind. simpl. by destruct (call api _). }
  by destruct (location m), (poll m).
Qed.

Lemma forward_single_message_trace strip cfg api client m :
  forward_single_message strip cfg api client m
  = (flat_map (attempt_single strip cfg api client m) (target_channels cfg), Ok tt).
Proof.
  unfold forward_single_message.
  assert (Hbody : forall t,
    try_except
      (send_single strip cfg api client m (get_message_type m) t ;;;
       emit (Stat messages_forwarded 1) ;;;
       emit (LogForward (single_row t (get_message_type m) true None m)))
      (fun e =>
         emit (Stat failed_forwards 1) ;;;
         emit (LogForward (single_row t (get_message_type m) false (Some e) m)) ;;;
         when (notify_admin_on_error cfg) (emit (NotifyAdminsError m t e)))
    = (attempt_single strip cfg api client m t, Ok tt)).
  { intros t. rewrite send_single_call. unfold attempt_single, call, notify_effect.
    destruct (api (single_call strip cfg client m t)) as [e|]; simpl.
    - unfold try_except, bind, when. simpl.
      by destruct (notify_admin_on_error cfg).
    - done. }
  by apply for_each_rounds.
Qed.

Lemma group_round strip cfg api client m0 msgs t :
  try_except
    (x <- ret m0 ;;
     when (truthy_list (build_media_list (build_caption strip cfg client x) O msgs))
       (call api (send_media_group t
                    (build_media_list (build_caption strip cfg client x) O msgs)) ;;;
        emit (Stat messages_forwarded (length msgs)) ;;;
        emit (Stat media_groups_forwarded 1) ;;;
        for_each msgs (fun msg => emit (LogForward (group_row t true None msg)))))
    (fun e =>
       emit (Stat failed_forwards (length msgs)) ;;;
       for_each msgs (fun msg => emit (LogForward (group_row t false (Some e) msg))) ;;;
       when (notify_admin_on_error cfg)
         (x <- ret m0 ;; emit (NotifyAdminsError x t e)))
  = (attempt_group strip cfg api client m0 msgs t, Ok tt).
Proof.
  assert (Hret : forall (k : Message -> M unit), (x <- ret m0 ;; k x) = k m0).
  { intros k. unfold bind, ret. simpl. by destruct (k m0). }
  rewrite Hret.
  unfold attempt_group, notify_effect.
  generalize (build_media_list (build_caption strip cfg client m0) O msgs).
  intros media.
  destruct (truthy_list media); [|reflexivity].
  unfold when at 1. unfold call.
  destruct (api (send_media_group t media)) as [e|].
  - unfold try_except, bind at 1 2 3. simpl.
    unfold bind at 1. simpl. unfold bind at 1. rewrite for_each_emit. simpl.
    rewrite Hret.
    destruct (notify_admin_on_error cfg); simpl.
    + reflexivity.
    + by rewrite ?app_nil_r.
  - unfold try_except, bind. simpl. by rewrite for_each_emit.
Qed.

Lemma forward_media_group_trace strip cfg api client m0 rest :
  forward_media_group strip cfg api client (m0 :: rest)
  = (flat_map (attempt_group strip cfg api client m0 (m0 :: rest))
              (target_channels cfg), Ok tt).
Proof.
  unfold forward_media_group. apply for_each_rounds. intros t.
  exact (group_round strip cfg api client m0 (m0 :: rest) t).
Qed.

Lemma dispatch_single strip cfg api client m :
  forward_messages_group strip cfg api client [m]
  = (delay_effects cfg
     ++ flat_map (attempt_single strip cfg api client m) (target_channels cfg), Ok tt).
Proof.
  unfold forward_messages_group, delay_effects.
  destruct (target_channels cfg) as [|t ts] eqn:Ht; [done|].
  cbn [negb truthy_list length Nat.ltb Nat.leb andb].
  rewrite forward_single_message_trace, Ht.
  unfold when. by destruct (0 <? delay_seconds (forward_settings cfg)).
Qed.

Lemma dispatch_group strip cfg api client m0 m1 rest :
  truthy_str (media_group_id m0) = true ->
  forward_messages_group strip cfg api client (m0 :: m1 :: rest)
  = (delay_effects cfg
     ++ flat_map (attempt_group strip cfg api client m0 (m0 :: m1 :: rest))
                 (target_channels cfg), Ok tt).
Proof.
  intros Hg. unfold forward_messages_group, delay_effects.
  destruct (target_channels cfg) as [|t ts] eqn:Ht; [done|].
  cbn [negb truthy_list length Nat.ltb Nat.leb andb]. rewrite Hg.
  cbn [andb].
  rewrite forward_media_group_trace, Ht.
  unfold when. by destruct (0 <? delay_seconds (forward_settings cfg)).
Qed.

(** Dispatching a batch never raises. *)
Lemma dispatch_returns strip cfg api client msgs :
  well_formed_batch msgs ->
  snd (forward_messages_group strip cfg api client msgs) = Ok tt.
Proof.
  destruct msgs as [|m0 [|m1 rest]]; [done| |]; intros H.
  - by rewrite dispatch_single.
  - by rewrite dispatch_group.
Qed.

(** ** Reading a trace *)

Lemma attempts_app a b : attempts (a ++ b) = attempts a ++ attempts b.
Proof. apply omap_app. Qed.

Lemma recorded_app a b : recorded (a ++ b) = recorded a ++ recorded b.
Proof. unfold recorded, logs. by rewrite omap_app, map_app. Qed.

Lemma notifications_app a b :
  notifications (a ++ b) = notifications a ++ notifications b.
Proof. apply omap_app. Qed.

Lemma calls_app a b : calls (a ++ b) = calls a ++ calls b.
Proof. apply omap_app. Qed.

Lemma delay_silent cfg :
  attempts (delay_effects cfg) = [] /\ recorded (delay_effects cfg) = [] /\
  notifications (delay_effects cfg) = [] /\ calls (delay_effects cfg) = [].
Proof. unfold delay_effects. by destruct (_ && _). Qed.

Lemma single_call_chat strip cfg client m t :
  call_chat (single_call strip cfg client m t) = t.
Proof.
  unfold single_call.
  destruct (negb (need_process cfg)); [done|].
  destruct (truthy_str (text m)); [done|].
  destruct (photo m), (video m), (document m), (audio m), (voice m); try done.
  destruct (truthy_obj (sticker m)); [done|]. by destruct (animation m).
Qed.

Lemma logs_rows (f : Message -> log_row) msgs tail :
  logs (map (fun m => LogForward (f m)) msgs ++ tail) = map f msgs ++ logs tail.
Proof.
  induction msgs as [|m r IH]; [done|]. simpl. by rewrite <- IH.
Qed.

Lemma attempts_rows (f : Message -> log_row) msgs tail :
  attempts (map (fun m => LogForward (f m)) msgs ++ tail) = attempts tail.
Proof. induction msgs as [|m r IH]; [done|]. simpl. exact IH. Qed.

Lemma notifications_rows (f : Message -> log_row) msgs tail :
  notifications (map (fun m => LogForward (f m)) msgs ++ tail) = notifications tail.
Proof. induction msgs as [|m r IH]; [done|]. simpl. exact IH. Qed.

Lemma map_const_repeat {A B} (b : B) (l : list A) :
  map (fun _ => b) l = repeat b (length l).
Proof. induction l as [|x r IH]; [done|]. simpl. by rewrite IH. Qed.

(** One round of the single-message loop. *)
Lemma attempt_single_read strip cfg api client m t :
  let ok := sent_ok api (single_call strip cfg client m t) in
  attempts (attempt_single strip cfg api client m t) = [(t, ok)] /\
  recorded (attempt_single strip cfg api client m t) = repeat (t, ok) 1 /\
  notifications (attempt_single strip cfg api client m t)
  = if notify_admin_on_error cfg && negb ok then [t] else [].
Proof.
  unfold attempt_single, sent_ok, notify_effect.
  pose proof (single_call_chat strip cfg client m t) as Hc.
  destruct (api (single_call strip cfg client m t)) as [e|]; simpl.
  - rewrite Hc. destruct (notify_admin_on_error cfg); done.
  - rewrite Hc. by rewrite andb_false_r.
Qed.

(** One round of the media-group loop, when there is something to send. *)
Lemma attempt_group_read strip cfg api client m0 msgs t :
  let media := build_media_list (build_caption strip cfg client m0) O msgs in
  let ok := sent_ok api (send_media_group t media) in
  truthy_list media = true ->
  attempts (attempt_group strip cfg api client m0 msgs t) = [(t, ok)] /\
  recorded (attempt_group strip cfg api client m0 msgs t)
  = repeat (t, ok) (length msgs) /\
  notifications (attempt_group strip cfg api client m0 msgs t)
  = if notify_admin_on_error cfg && negb ok then [t] else [].
Proof.
  intros media ok Hm. subst ok. unfold attempt_group, sent_ok, notify_effect.
  fold media. rewrite Hm.
  destruct (api (send_media_group t media)) as [e|]; simpl.
  - rewrite attempts_rows, notifications_rows.
    unfold recorded.
    change (logs (Called (send_media_group t media) (Some e)
                  :: Stat failed_forwards (length msgs)
                  :: ?X)) with (logs X).
    rewrite logs_rows, map_app, map_map. simpl.
    rewrite map_const_repeat.
    destruct (notify_admin_on_error cfg); simpl; by rewrite app_nil_r.
  - rewrite <- (app_nil_r (map _ msgs)).
    rewrite attempts_rows, notifications_rows.
    unfold recorded.
    change (logs (Called (send_media_group t media) None
                  :: Stat messages_forwarded (length msgs)
                  :: Stat media_groups_forwarded 1
                  :: ?X)) with (logs X).
    rewrite logs_rows, map_app, map_map. simpl.
    rewrite map_const_repeat, andb_false_r. by rewrite app_nil_r.
Qed.

Lemma attempt_group_nothing strip cfg api client m0 msgs t :
  truthy_list (build_media_list (build_caption strip cfg client m0) O msgs) = false ->
  attempt_group strip cfg api client m0 msgs t = [].
Proof. intros H. unfold attempt_group. by rewrite H. Qed.

(** Rounds that each leave one attempt, [k] rows and at most one
    notification add up to one outcome per destination. *)
Lemma rounds_outcomes (round : Z -> list effect) (ok : Z -> bool) (k : nat)
    (notify : bool) (targets : list Z) :
  (forall t, attempts (round t) = [(t, ok t)] /\
             recorded (round t) = repeat (t, ok t) k /\
             notifications (round t) = if notify && negb (ok t) then [t] else []) ->
  let found := zip targets (map ok targets) in
  attempts (flat_map round targets) = found /\
  recorded (flat_map round targets) = flat_map (fun p => repeat p k) found /\
  notifications (flat_map round targets) = notified_if notify found.
Proof.
  intros H. induction targets as [|t r IH]; simpl.
  - by destruct notify.
  - destruct (H t) as (Ha & Hr & Hn). destruct IH as (IHa & IHr & IHn).
    rewrite attempts_app, recorded_app, notifications_app.
    rewrite Ha, Hr, Hn, IHa, IHr, IHn. repeat split; try done.
    unfold notified_if, failed_targets.
    destruct notify; [|done].
    destruct (ok t); cbn [andb negb].
    + by rewrite filter_cons_False by done.
    + by rewrite filter_cons_True by done.
Qed.

Lemma create_input_media_truthy m cap :
  truthy_obj (create_input_media m cap) = encodable m.
Proof.
  unfold encodable, create_input_media.
  by destruct (photo m), (video m), (document m), (audio m).
Qed.

Lemma build_media_list_later cap i rest :
  build_media_list cap (S i) rest = other_media rest.
Proof.
  revert i. induction rest as [|m r IH]; intros i; [done|].
  simpl. unfold other_media in *. simpl.
  destruct (create_input_media m None); by rewrite IH.
Qed.

Lemma build_media_list_split cap m0 rest :
  build_media_list cap O (m0 :: rest) = lead_media cap m0 ++ other_media rest.
Proof.
  simpl. unfold lead_media. rewrite build_media_list_later.
  by destruct (create_input_media m0 (Some cap)).
Qed.

Lemma other_media_truthy rest :
  truthy_list (other_media rest) = existsb encodable rest.
Proof.
  induction rest as [|m r IH]; [done|].
  unfold other_media in *. simpl. unfold encodable at 1.
  by destruct (create_input_media m None).
Qed.

Lemma build_media_list_truthy cap msgs :
  truthy_list (build_media_list cap O msgs) = existsb encodable msgs.
Proof.
  destruct msgs as [|m0 rest]; [done|].
  rewrite build_media_list_split. simpl.
  rewrite <- (create_input_media_truthy m0 (Some cap)), <- other_media_truthy.
  unfold lead_media. by destruct (create_input_media m0 (Some cap)).
Qed.

Lemma flat_map_nothing {A B} (f : A -> list B) (l : list A) :
  (forall x, f x = []) -> flat_map f l = [].
Proof. intros H. induction l as [|x r IH]; [done|]. simpl. by rewrite H, IH. Qed.

(** What a dispatch leaves behind, by whether the batch gives the
    destination loop something to send. *)
Lemma dispatch_outcomes strip cfg api client msgs :
  well_formed_batch msgs ->
  if sendable msgs
  then outcomes_recorded (notified_if (notify_admin_on_error cfg))
         (target_channels cfg) (length msgs)
         (forward_messages_group strip cfg api client msgs)
  else snd (forward_messages_group strip cfg api client msgs) = Ok tt /\
       attempts (fst (forward_messages_group strip cfg api client msgs)) = [] /\
       recorded (fst (forward_messages_group strip cfg api client msgs)) = [] /\
       notifications (fst (forward_messages_group strip cfg api client msgs)) = [].
Proof.
  destruct msgs as [|m0 [|m1 rest]]; [done| |]; intros Hwf.
  - simpl sendable. cbv iota. rewrite dispatch_single.
    split; [done|]. simpl fst.
    exists (map (fun t => sent_ok api (single_call strip cfg client m0 t))
                (target_channels cfg)).
    destruct (delay_silent cfg) as (Da & Dr & Dn & _).
    rewrite attempts_app, recorded_app, notifications_app, Da, Dr, Dn.
    split; [by rewrite length_map|].
    apply (rounds_outcomes (attempt_single strip cfg api client m0)
             (fun t => sent_ok api (single_call strip cfg client m0 t)) 1).
    intros t. apply attempt_single_read.
  - simpl in Hwf. rewrite dispatch_group by done.
    set (msgs := m0 :: m1 :: rest).
    change (sendable msgs) with (existsb encodable msgs).
    rewrite <- (build_media_list_truthy (build_caption strip cfg client m0) msgs).
    destruct (delay_silent cfg) as (Da & Dr & Dn & _).
    destruct (truthy_list (build_media_list (build_caption strip cfg client m0) O msgs))
      eqn:Hm.
    + split; [done|]. simpl fst.
      exists (map (fun t => sent_ok api
                     (send_media_group t
                        (build_media_list (build_caption strip cfg client m0) O msgs)))
                  (target_channels cfg)).
      rewrite attempts_app, recorded_app, notifications_app, Da, Dr, Dn.
      split; [by rewrite length_map|].
      apply (rounds_outcomes (attempt_group strip cfg api client m0 msgs)
               (fun t => sent_ok api
                  (send_media_group t
                     (build_media_list (build_caption strip cfg client m0) O msgs)))
               (length msgs)).
      intros t. by apply attempt_group_read.
    + simpl fst. simpl snd.
      rewrite flat_map_nothing by (intros t; by apply attempt_group_nothing).
      rewrite app_nil_r. done.
Qed.

(** C3, as amended. A dispatch never raises.  When the batch gives the loop
    something to send (always for one item; for an album when some item is
    encodable) every destination, in order, gets exactly one send, and the
    rows logged for it, one per item, carry the outcome of that send alone: a
    send that raises is recorded as a failure of its destination and the loop
    goes on; the admins are notified once per failed destination when
    [notify_admin_on_error] is on and never when it is off. *)
Theorem dispatch_records_each_destination strip cfg api client msgs :
  well_formed_batch msgs -> sendable msgs = true ->
  outcomes_recorded (notified_if (notify_admin_on_error cfg))
    (target_channels cfg) (length msgs)
    (forward_messages_group strip cfg api client msgs).
Proof.
  intros Hwf Hs.
  pose proof (dispatch_outcomes strip cfg api client msgs Hwf) as H.
  by rewrite Hs in H.
Qed.

Lemma dispatch_records_witness :
  outcomes_recorded (notified_if true) [7; 8] 1
    (forward_messages_group ascii_strip cfg_plain api_x_down None [cat_photo]).
Proof.
  exact (dispatch_records_each_destination
           ascii_strip cfg_plain api_x_down None [cat_photo] I eq_refl).
Defined.

(** C3, as stated, fails twice: with [notify_admin_on_error] off a failed
    destination is not reported to the admins, and an album without an
    encodable item leaves no outcome for any destination. *)
Lemma outcome_per_destination_fails :
  ~ one_outcome_per_destination ascii_strip cfg_silent api_x_down None [cat_photo] /\
  ~ one_outcome_per_destination ascii_strip cfg_plain api_up None [voice_1; voice_2].
Proof.
  split.
  - intros (_ & outcomes & Hlen & Hatt & _ & Hnot).
    destruct outcomes as [|b1 [|b2 [|b3 l]]]; try discriminate Hlen.
    vm_compute in Hatt. injection Hatt as <- <-.
    vm_compute in Hnot. discriminate Hnot.
  - intros (_ & outcomes & Hlen & Hatt & _).
    destruct outcomes as [|b1 [|b2 [|b3 l]]]; try discriminate Hlen.
    vm_compute in Hatt. discriminate Hatt.
Qed.

(** The scenario of the specification: destination 7 raises, destination 8
    succeeds. *)
Example scenario_two_destinations :
  let tr := fst (forward_messages_group ascii_strip cfg_plain api_x_down None [cat_photo]) in
  attempts tr = [(7, false); (8, true)] /\
  recorded tr = [(7, false); (8, true)] /\
  notifications tr = [7].
Proof. vm_compute. done. Qed.

(** ** What each destination is sent *)

Lemma rounds_calls (round : Z -> list effect) (c : Z -> api_call) (targets : list Z) :
  (forall t, calls (round t) = [c t]) ->
  calls (flat_map round targets) = map c targets.
Proof.
  intros H. induction targets as [|t r IH]; [done|].
  simpl. by rewrite calls_app, H, IH.
Qed.

Lemma calls_rows (f : Message -> log_row) msgs tail :
  calls (map (fun m => LogForward (f m)) msgs ++ tail) = calls tail.
Proof. induction msgs as [|m r IH]; [done|]. simpl. exact IH. Qed.

Lemma attempt_single_calls strip cfg api client m t :
  calls (attempt_single strip cfg api client m t) = [single_call strip cfg client m t].
Proof.
  unfold attempt_single, notify_effect.
  destruct (api _); simpl; [|done]. by destruct (notify_admin_on_error cfg).
Qed.

Lemma attempt_group_calls strip cfg api client m0 msgs t :
  truthy_list (build_media_list (build_caption strip cfg client m0) O msgs) = true ->
  calls (attempt_group strip cfg api client m0 msgs t)
  = [send_media_group t (build_media_list (build_caption strip cfg client m0) O msgs)].
Proof.
  intros H. unfold attempt_group, notify_effect. rewrite H.
  destruct (api _); simpl.
  - rewrite calls_rows. by destruct (notify_admin_on_error cfg).
  - rewrite <- (app_nil_r (map _ msgs)). by rewrite calls_rows.
Qed.

Lemma dispatch_single_calls strip cfg api client m :
  calls (fst (forward_messages_group strip cfg api client [m]))
  = map (single_call strip cfg client m) (target_channels cfg).
Proof.
  rewrite dispatch_single. simpl fst.
  destruct (delay_silent cfg) as (_ & _ & _ & Dc).
  rewrite calls_app, Dc. simpl.
  apply rounds_calls. intros t. apply attempt_single_calls.
Qed.

Lemma dispatch_group_calls strip cfg api client m0 m1 rest :
  truthy_str (media_group_id m0) = true ->
  calls (fst (forward_messages_group strip cfg api client (m0 :: m1 :: rest)))
  = if existsb encodable (m0 :: m1 :: rest)
    then map (fun t => send_media_group t
                (lead_media (build_caption strip cfg client m0) m0
                 ++ other_media (m1 :: rest)))
             (target_channels cfg)
    else [].
Proof.
  intros Hg. rewrite dispatch_group by done. simpl fst.
  destruct (delay_silent cfg) as (_ & _ & _ & Dc).
  rewrite calls_app, Dc.
  change ([] ++ ?x) with x.
  rewrite <- (build_media_list_truthy (build_caption strip cfg client m0)).
  rewrite <- build_media_list_split.
  destruct (truthy_list _) eqn:Hm.
  - apply (rounds_calls _ (fun t => send_media_group t _)).
    intros t. by apply attempt_group_calls.
  - by rewrite flat_map_nothing by (intros t; by apply attempt_group_nothing).
Qed.

Lemma build_caption_plain strip cfg client m :
  need_process cfg = false -> build_caption strip cfg client m = original_text m.
Proof.
  unfold need_process, build_caption, apply_paraphrase_rules, original_text.
  intros H. apply orb_false_iff in H as [H Hs]. apply orb_false_iff in H as [He Hr].
  by rewrite He, Hr, Hs.
Qed.

(** With no transformation configured, a one-item batch is delivered to every
    destination by [copy_message] of the source message; an album is not: each
    destination is sent one media group rebuilt from the file ids, whose only
    caption is the untransformed text of the first item. *)
Lemma passthrough_by_path strip cfg api client :
  need_process cfg = false ->
  (forall m, copied_verbatim strip cfg api client [m]) /\
  (forall m0 m1 rest,
     truthy_str (media_group_id m0) = true ->
     existsb encodable (m0 :: m1 :: rest) = true ->
     calls (fst (forward_messages_group strip cfg api client (m0 :: m1 :: rest)))
     = map (fun t => send_media_group t
              (lead_media (original_text m0) m0 ++ other_media (m1 :: rest)))
           (target_channels cfg)).
Proof.
  intros Hn. split.
  - intros m. unfold copied_verbatim. rewrite dispatch_single_calls.
    induction (target_channels cfg) as [|t r IH]; [done|].
    simpl. rewrite IH. f_equal. unfold single_call. by rewrite Hn.
  - intros m0 m1 rest Hg He.
    rewrite dispatch_group_calls by done. rewrite He.
    by rewrite build_caption_plain.
Qed.

(** C6. The single-message path copies verbatim when nothing is configured;
    the album path has no such branch.  For the album of two photos, the
    second with the caption "second", and no transformation configured, no
    destination is sent a copy: each is sent a rebuilt media group in which
    that caption is gone. *)
Theorem album_is_not_copied :
  need_process cfg_plain = false /\
  ~ copied_verbatim ascii_strip cfg_plain api_up None [photo_1; photo_2] /\
  calls (fst (forward_messages_group ascii_strip cfg_plain api_up None [photo_1; photo_2]))
  = map (fun t => send_media_group t
           [ {| im_kind := Photo; im_media := "p"; im_caption := Some "" |};
             {| im_kind := Photo; im_media := "p"; im_caption := None |} ])
        [7; 8].
Proof.
  split; [reflexivity|]. split.
  - unfold copied_verbatim. vm_compute. discriminate.
  - vm_compute. reflexivity.
Qed.

Lemma other_media_count rest :
  length (other_media rest) = length (filter (fun m => encodable m = true) rest).
Proof.
  induction rest as [|m r IH]; [done|].
  change (other_media (m :: r))
    with (match create_input_media m None with
          | Some y => y :: other_media r
          | None => other_media r
          end).
  destruct (create_input_media m None) eqn:E.
  - rewrite filter_cons_True by (unfold encodable; by rewrite E).
    simpl. by rewrite IH.
  - rewrite filter_cons_False by (unfold encodable; by rewrite E). exact IH.
Qed.

Lemma lead_media_captioned cap m0 :
  encodable m0 = true ->
  exists im, lead_media cap m0 = [im] /\ im_caption im = Some cap.
Proof.
  unfold encodable, lead_media, create_input_media.
  destruct (photo m0), (video m0), (document m0), (audio m0); try done;
    intros _; by eexists.
Qed.

(** C7. For an album of more than one item, the calls of the dispatch are
    exactly one [send_media_group] per destination, in order, each carrying
    the same media: the element built from the first item, which has the
    caption, followed by one element for each of the other items that can be
    encoded, none of which has a caption.  (When no item can be encoded
    nothing is sent; when the first item cannot, the caption goes with no
    item.) *)
Theorem caption_only_on_first_item strip cfg api client m0 m1 rest :
  truthy_str (media_group_id m0) = true ->
  let cap := build_caption strip cfg client m0 in
  let media := lead_media cap m0 ++ other_media (m1 :: rest) in
  calls (fst (forward_messages_group strip cfg api client (m0 :: m1 :: rest)))
  = (if existsb encodable (m0 :: m1 :: rest)
     then map (fun t => send_media_group t media) (target_channels cfg)
     else []) /\
  (encodable m0 = true ->
   exists im, lead_media cap m0 = [im] /\ im_caption im = Some cap) /\
  (encodable m0 = false -> lead_media cap m0 = []) /\
  length (other_media (m1 :: rest))
  = length (filter (fun m => encodable m = true) (m1 :: rest)) /\
  Forall (fun im => im_caption im = None) (other_media (m1 :: rest)).
Proof.
  intros Hg cap media. split_and!.
  - by apply dispatch_group_calls.
  - apply lead_media_captioned.
  - intros He. unfold lead_media.
    pose proof (create_input_media_truthy m0 (Some cap)) as Ht. rewrite He in Ht.
    by destruct (create_input_media m0 (Some cap)).
  - apply other_media_count.
  - unfold other_media. apply Forall_forall. intros im Him.
    apply list_elem_of_omap in Him as (m & _ & Hm).
    unfold create_input_media in Hm.
    destruct (photo m), (video m), (document m), (audio m);
      simplify_eq; done.
Qed.

Lemma caption_only_on_first_witness :
  calls (fst (forward_messages_group ascii_strip cfg_plain api_up None
                [with_text item_B None (Some "first"); photo_2]))
  = map (fun t => send_media_group t
           [ {| im_kind := Photo; im_media := "p"; im_caption := Some "first" |};
             {| im_kind := Photo; im_media := "p"; im_caption := None |} ])
        [7; 8].
Proof.
  exact (proj1 (caption_only_on_first_item ascii_strip cfg_plain api_up None
                  (with_text item_B None (Some "first")) photo_2 [] eq_refl)).
Defined.

(** ** Which items an album encodes *)

Lemma encodable_carries m : encodable m = true <-> carries_media m.
Proof.
  unfold encodable, carries_media, create_input_media.
  destruct (photo m), (video m), (document m), (audio m); simpl;
    split; try done; intros; try discriminate;
    try (right; left; by eexists); try (right; right; left; by eexists);
    try (right; right; right; by eexists); try (by left).
  destruct H as [H|[[? H]|[[? H]|[? H]]]]; done.
Qed.

Lemma encodable_count cap msgs :
  length (build_media_list cap O msgs)
  = length (filter (fun m => encodable m = true) msgs).
Proof.
  destruct msgs as [|m0 rest]; [done|].
  rewrite build_media_list_split, length_app, other_media_count.
  unfold lead_media.
  pose proof (create_input_media_truthy m0 (Some cap)) as Ht.
  destruct (create_input_media m0 (Some cap)); simpl in Ht.
  - by rewrite filter_cons_True by done.
  - by rewrite filter_cons_False by (rewrite <- Ht; done).
Qed.

Lemma content_type_blocked ct l :
  existsb (String.eqb ct) l = true <-> In ct l.
Proof.
  rewrite existsb_exists. split.
  - intros (x & Hx & He). apply String.eqb_eq in He. by subst.
  - intros H. exists ct. split; [done|]. apply String.eqb_refl.
Qed.

Lemma encoded_by_type_unless_text m :
  get_message_type m <> "text" -> encoded_by_content_type m.
Proof.
  intros Ht. unfold encoded_by_content_type, encodable, create_input_media.
  unfold get_message_type in *.
  destruct (truthy_str (text m)); [done|].
  destruct (photo m), (video m), (document m), (audio m), (voice m),
    (sticker m), (animation m), (location m), (poll m);
    simpl; split; intros H; try done;
    repeat (destruct H as [H|H]; try discriminate H); tauto.
Qed.

Lemma encoded_by_type m : text_or_media m -> encoded_by_content_type m.
Proof.
  unfold text_or_media. intros H.
  destruct (truthy_str (text m)) eqn:Ht.
  - simpl in H. unfold encoded_by_content_type, get_message_type.
    rewrite H, Ht. split; [done|]. simpl.
    intros Hin. repeat (destruct Hin as [Hin|Hin]; try discriminate Hin). done.
  - apply encoded_by_type_unless_text. unfold get_message_type. rewrite Ht.
    destruct (truthy_list (photo m)), (truthy_obj (video m)), (truthy_obj (document m)),
      (truthy_obj (audio m)), (truthy_obj (voice m)), (truthy_obj (sticker m)),
      (truthy_obj (animation m)), (location m), (poll m); discriminate.
Qed.

Lemma media_typed_encodable m : text_or_media m -> media_typed m = encodable m.
Proof.
  intros H. pose proof (encoded_by_type m H) as [H1 H2].
  unfold media_typed. destruct (encodable m).
  - apply content_type_blocked. by apply H1.
  - apply not_true_is_false. intros Hc. apply content_type_blocked in Hc.
    by specialize (H2 Hc).
Qed.

Lemma media_typed_exists l :
  Forall text_or_media l -> existsb media_typed l = existsb encodable l.
Proof.
  induction 1 as [|m r Hm Hr IH]; [done|].
  simpl. by rewrite IH, media_typed_encodable.
Qed.

Lemma media_typed_count l :
  Forall text_or_media l ->
  length (filter (fun m => media_typed m = true) l)
  = length (filter (fun m => encodable m = true) l).
Proof.
  induction 1 as [|m r Hm Hr IH]; [done|].
  pose proof (media_typed_encodable m Hm) as E.
  destruct (encodable m) eqn:He.
  - rewrite !filter_cons_True by done. simpl. by rewrite IH.
  - rewrite !filter_cons_False by congruence. exact IH.
Qed.

(** C10. An album whose items are as Telegram delivers them (no item has
    both a text body and photo, video, document or audio media) is sent to
    every destination, in order, as one media group that holds one element
    for each item of content type photo, video, document or audio and nothing
    for an item of another type: such an item is not encoded, with or without
    caption.  When no item has one of the four types the dispatch consists of
    the optional delay alone: no send, no row, no counter, no notification. *)
Theorem album_encodes_media_types strip cfg api client m0 m1 rest :
  truthy_str (media_group_id m0) = true ->
  Forall text_or_media (m0 :: m1 :: rest) ->
  let items := m0 :: m1 :: rest in
  let media := lead_media (build_caption strip cfg client m0) m0
               ++ other_media (m1 :: rest) in
  calls (fst (forward_messages_group strip cfg api client items))
  = (if existsb media_typed items
     then map (fun t => send_media_group t media) (target_channels cfg)
     else []) /\
  length media = length (filter (fun m => media_typed m = true) items) /\
  (forall m cap, m ∈ items ->
     (is_Some (create_input_media m cap) <-> In (get_message_type m) media_types)) /\
  (existsb media_typed items = false ->
   forward_messages_group strip cfg api client items = (delay_effects cfg, Ok tt)).
Proof.
  intros Hg Hall items media. split_and!.
  - rewrite media_typed_exists by done. by apply dispatch_group_calls.
  - rewrite media_typed_count by done. subst media items.
    rewrite <- build_media_list_split. apply encodable_count.
  - intros m cap Hm. rewrite Forall_forall in Hall.
    destruct (encoded_by_type m (Hall m Hm)) as [H1 H2].
    pose proof (create_input_media_truthy m cap) as Ht.
    split.
    + intros [im Him]. apply H1. rewrite <- Ht. by rewrite Him.
    + intros Hin. specialize (H2 Hin). rewrite <- Ht in H2.
      by destruct (create_input_media m cap).
  - intros He. rewrite media_typed_exists in He by done.
    subst items. rewrite dispatch_group by done.
    rewrite flat_map_nothing; [by rewrite app_nil_r|].
    intros t. apply attempt_group_nothing. by rewrite build_media_list_truthy.
Qed.

Lemma album_encodes_witness :
  calls (fst (forward_messages_group ascii_strip cfg_plain api_up None
                [photo_1; voice_2]))
  = map (fun t => send_media_group t
           [ {| im_kind := Photo; im_media := "p"; im_caption := Some "" |} ])
        [7; 8] /\
  forward_messages_group ascii_strip cfg_plain api_up None [voice_1; voice_2]
  = (delay_effects cfg_plain, Ok tt).
Proof.
  split.
  - exact (proj1 (album_encodes_media_types ascii_strip cfg_plain api_up None
                    photo_1 voice_2 [] eq_refl
                    ltac:(repeat constructor))).
  - exact (proj2 (proj2 (proj2
             (album_encodes_media_types ascii_strip cfg_plain api_up None
                voice_1 voice_2 [] eq_refl ltac:(repeat constructor))))
             eq_refl).
Defined.

(** The condition on the items is needed: an item with both a text body and
    a photo has content type text, and [create_input_media] still encodes it
    as a photo. *)
Remark text_item_with_photo_is_encoded :
  get_message_type text_photo = "text" /\
  ~ text_or_media text_photo /\
  ~ encoded_by_content_type text_photo.
Proof.
  split; [reflexivity|]. split; [by vm_compute|].
  unfold encoded_by_content_type. intros [H _].
  specialize (H eq_refl). vm_compute in H.
  repeat (destruct H as [H|H]; try discriminate H). exact H.
Qed.

(** ** The keyword and content-type filter *)

Lemma prefix_spec p : forall s,
  String.prefix p s = true <-> exists post, s = p +:+ post.
Proof.
  induction p as [|a p IH]; intros s.
  - split; [intros _; by exists s|]. intros _. by destruct s.
  - destruct s as [|b s]; simpl.
    + split; [done|]. intros [post H]. discriminate H.
    + destruct (ascii_dec a b) as [->|Hne].
      * rewrite IH. split; intros [post H]; exists post.
        -- by rewrite H.
        -- by injection H.
      * split; [done|]. intros [post H]. injection H as Hab _. by destruct Hne.
Qed.

Lemma is_substring_spec pat : forall s,
  is_substring pat s = true <-> exists pre post, s = pre +:+ pat +:+ post.
Proof.
  induction s as [|c s IH].
  - change (is_substring pat "") with (String.prefix pat "" || false).
    rewrite orb_false_r, prefix_spec. split.
    + intros [post H]. by exists "", post.
    + intros (pre & post & H). destruct pre; [by exists post|discriminate H].
  - change (is_substring pat (String c s))
      with (String.prefix pat (String c s) || is_substring pat s).
    rewrite orb_true_iff, prefix_spec, IH. split.
    + intros [[post H]|(pre & post & H)].
      * by exists "", post.
      * exists (String c pre), post. simpl. by rewrite H.
    + intros (pre & post & H). destruct pre as [|c' pre].
      * left. by exists post.
      * right. injection H as _ H. by exists pre, post.
Qed.

Lemma effective_text_content m :
  effective_text m =
  (if String.eqb (default "" (py_or (text m) (caption m))) ""
   then None else Some (default "" (py_or (text m) (caption m)))).
Proof.
  unfold effective_text, py_or, truthy_str.
  destruct (text m) as [s|]; simpl.
  - destruct (String.eqb_spec s ""); simpl; [|by rewrite (proj2 (String.eqb_neq _ _))].
    destruct (caption m) as [c|]; simpl; [|done].
    by destruct (String.eqb_spec c "").
  - destruct (caption m) as [c|]; simpl; [|done].
    by destruct (String.eqb_spec c "").
Qed.

(** The filter answers true exactly when the content type is blocklisted
    or the one text it examines, the text body when there is one and
    otherwise the caption, contains a configured keyword, case ignored. *)
Lemma filter_examines_effective_text lower cfg m ct :
  should_filter_message lower cfg m ct = true <->
    In ct (filter_content_types (forward_settings cfg)) \/
    exists kw s, In kw (keyword_filter (forward_settings cfg)) /\
                 effective_text m = Some s /\ keyword_hit lower kw s.
Proof.
  unfold should_filter_message. rewrite effective_text_content.
  set (content := default "" (py_or (text m) (caption m))).
  destruct (existsb (String.eqb ct) _) eqn:Hct.
  - split; [|done]. intros _. left. by apply content_type_blocked.
  - assert (Hnot : ~ In ct (filter_content_types (forward_settings cfg))).
    { intros H. apply content_type_blocked in H. congruence. }
    destruct (String.eqb content ""); simpl.
    + split; [done|]. intros [H|(kw & s & _ & H & _)]; done.
    + destruct (keyword_filter (forward_settings cfg)) as [|k ks] eqn:Hk.
      * simpl. split; [done|]. intros [H|(kw & s & H & _)]; done.
      * cbn [truthy_list]. rewrite existsb_exists. split.
        -- intros (kw & Hin & Hsub). right. exists kw, content.
           split; [done|]. split; [done|]. by apply is_substring_spec.
        -- intros [H|(kw & s & Hin & [= <-] & Hhit)]; [done|].
           exists kw. split; [done|]. by apply is_substring_spec.
Qed.

(** For an item that has a text body or a caption but not both, the text
    examined is the one it has. *)
Lemma effective_text_present m s :
  truthy_str (text m) && truthy_str (caption m) = false ->
  effective_text m = Some s <-> present (text m) s \/ present (caption m) s.
Proof.
  unfold effective_text, present, truthy_str.
  destruct (text m) as [t|], (caption m) as [c|]; simpl;
    try destruct (String.eqb_spec t ""); try destruct (String.eqb_spec c "");
    simpl; intros Hb; try discriminate Hb; subst;
    (split; [intros [= <-]; tauto || (by left) || (by right)
            | intros [[[= <-] H]|[[= <-] H]]; done]).
Qed.

(** C4. For an item as Telegram delivers it (a text body or a caption, not
    both), the filter answers true exactly when the content type is
    blocklisted or the text body or the caption contains a configured
    keyword, case ignored; an item for which it answers true never reaches
    the handler: nothing is buffered, timed or forwarded for it. *)
Theorem filter_matches_text_or_caption lower cfg m ct :
  truthy_str (text m) && truthy_str (caption m) = false ->
  filters_text_or_caption lower cfg m ct /\
  (should_filter_message lower cfg m (get_message_type m) = true ->
   forall awaiting h, handle_message lower cfg awaiting (Some m) h = h).
Proof.
  intros Hone. split.
  - unfold filters_text_or_caption. rewrite filter_examines_effective_text.
    split; (intros [H|(kw & s & Hin & Hs & Hhit)]; [by left|]);
      right; exists kw, s; (split; [done|]); (split; [|done]);
      by apply (effective_text_present m s Hone).
  - intros H awaiting h. unfold handle_message, handle_message_route. rewrite H.
    destruct (_ && awaiting); [done|]. by destruct (negb _).
Qed.

Lemma filter_witness :
  filters_text_or_caption ascii_lower cfg_plain item_spam "photo" /\
  handle_message ascii_lower cfg_plain false (Some item_spam)
    (run [Submit 0 item_A] (init 3))
  = run [Submit 0 item_A] (init 3).
Proof.
  destruct (filter_matches_text_or_caption ascii_lower cfg_plain item_spam "photo"
              eq_refl) as [Hf Hdrop].
  split; [exact Hf|].
  exact (Hdrop eq_refl false (run [Submit 0 item_A] (init 3))).
Defined.

(** The condition on the item is needed: were an item to carry both a text
    body and a caption, only the text body would be examined. *)
Remark caption_unseen_behind_text :
  ~ filters_text_or_caption ascii_lower cfg_plain item_both "text".
Proof.
  unfold filters_text_or_caption. intros [_ H].
  assert (Hf : should_filter_message ascii_lower cfg_plain item_both "text" = false)
    by (vm_compute; reflexivity).
  rewrite Hf in H. discriminate H.
  right. exists "spam", "this is spam". split; [by left|]. split.
  - right. split; [reflexivity|discriminate].
  - exists "this is ", "". reflexivity.
Qed.

(** ** The rewriter *)

(** C9. Whenever the client is missing or the request for a text raises
    (API error, timeout, malformed response), [rewrite_text] returns that text
    unchanged; a caption built from it is the caption built with AI rewriting
    off; and the dispatch of any batch returns without raising. *)
Theorem rewrite_failure_falls_back strip cfg client s :
  rewrite_unavailable client (chat_request (deepseek_settings cfg) s) ->
  rewrite_text strip (deepseek_settings cfg) client s = s /\
  (forall m, pre_transform_text cfg m = s ->
     build_caption strip cfg client m
     = build_caption strip (ai_disabled cfg) client m) /\
  (forall api msgs, well_formed_batch msgs ->
     snd (forward_messages_group strip cfg api client msgs) = Ok tt).
Proof.
  intros H.
  assert (H1 : rewrite_text strip (deepseek_settings cfg) client s = s).
  { unfold rewrite_text, rewrite_unavailable in *.
    destruct (enabled (deepseek_settings cfg)); [|done]. simpl.
    destruct client as [create|]; [|done].
    destruct (String.eqb s "" || String.eqb (strip s) ""); [done|].
    destruct (create _) as [e|[|[c|] r]]; done. }
  split; [exact H1|]. split.
  - intros m Hm. unfold build_caption. simpl.
    fold (pre_transform_text cfg m).
    change (apply_paraphrase_rules (ai_disabled cfg)
              (default "" (py_or (caption m) (text m))))
      with (pre_transform_text cfg m).
    rewrite Hm, H1.
    by destruct (enabled (deepseek_settings cfg)).
  - intros api msgs Hwf. by apply dispatch_returns.
Qed.

Lemma rewrite_failure_witness :
  rewrite_text ascii_strip (deepseek_settings cfg_ai) (Some client_timeout) "a dog"
  = "a dog" /\
  build_caption ascii_strip cfg_ai (Some client_timeout) cat_photo = "a dog".
Proof.
  destruct (rewrite_failure_falls_back ascii_strip cfg_ai (Some client_timeout)
              "a dog" I) as (Hr & Hc & _).
  split; [exact Hr|]. exact (Hc cat_photo eq_refl).
Defined.

(* ===================================================================== *)
(** * Further properties of the code *)
(* ===================================================================== *)

(** ** The sort of a batch *)

Lemma insert_by_id_ascending_head m l :
  ascending (m :: l) -> insert_by_id m l = m :: l.
Proof.
  unfold ascending. destruct l as [|x r]; [done|]. simpl. intros H.
  apply StronglySorted_inv in H as [_ H]. apply Forall_cons in H as [Hle _].
  by destruct (Z.leb_spec (message_id m) (message_id x)); [|lia].
Qed.

Lemma insert_by_id_filter k m l :
  filter (fun x => message_id x = k) (insert_by_id m l)
  = filter (fun x => message_id x = k) (m :: l).
Proof.
  induction l as [|x r IH]; [done|]. simpl.
  destruct (Z.leb_spec (message_id m) (message_id x)) as [Hle|Hgt]; [done|].
  rewrite filter_cons, IH, !filter_cons.
  repeat case_decide; try done; lia.
Qed.

(** X1. [messages.sort(key=message_id)] is stable and leaves an ascending
    buffer as it is: among items of equal id the arrival order is kept, and
    items that arrived in id order are forwarded in arrival order. *)
Theorem sort_by_id_stable l :
  (forall k, filter (fun x => message_id x = k) (sort_by_id l)
             = filter (fun x => message_id x = k) l) /\
  (ascending l -> sort_by_id l = l).
Proof.
  split.
  - intros k. induction l as [|x r IH]; [done|].
    change (sort_by_id (x :: r)) with (insert_by_id x (sort_by_id r)).
    by rewrite insert_by_id_filter, !filter_cons, IH.
  - induction l as [|x r IH]; [done|]. intros H.
    change (sort_by_id (x :: r)) with (insert_by_id x (sort_by_id r)).
    rewrite IH.
    + by apply insert_by_id_ascending_head.
    + unfold ascending in *. simpl in H. by apply StronglySorted_inv in H as [H _].
Qed.

Lemma sort_by_id_stable_witness : sort_by_id [item_B; item_A; item_C] = [item_B; item_A; item_C].
Proof.
  apply (proj2 (sort_by_id_stable [item_B; item_A; item_C])).
  unfold ascending. simpl. repeat constructor; lia.
Defined.

(** ** Invariants of the handler *)

Lemma coherent_init w : coherent (init w).
Proof.
  split_and!; simpl.
  - intros i x H. by rewrite lookup_nil in H.
  - intros g i H. by rewrite lookup_empty in H.
  - intros g. rewrite !lookup_empty. done.
Qed.

Lemma live_set_status i s ts j y :
  set_status i s ts !! j = Some y -> live y ->
  exists x, ts !! j = Some x /\ task_group x = task_group y /\
            ((j = i /\ status y = s) \/ (j <> i /\ live x)).
Proof.
  intros Hy Hl. apply set_status_group in Hy as (z & Hz & Hg & Hst).
  exists z. split_and!; try done.
  case_decide as Hd.
  - left. by subst.
  - right. split; [done|]. unfold live in *. by rewrite <- Hst.
Qed.

Lemma timer_fires_coherent i h : coherent h -> coherent (timer_fires i h).
Proof.
  intros (Ca & Cb & Cc). unfold timer_fires.
  destruct (tasks h !! i) as [x|] eqn:Hx; [|done].
  destruct (status x) as [d| | |] eqn:Hs; try done.
  destruct (d <=? now h); [|done].
  assert (Hlive : live x) by (unfold live; by rewrite Hs).
  pose proof (Ca i x Hx Hlive) as Hreg.
  destruct (media_groups h !! task_group x) as [buf|] eqn:Hb.
  - split_and!; simpl.
    + intros j y Hy Hl.
      destruct (live_set_status _ _ _ _ _ Hy Hl) as (z & Hz & Hg & [[-> _]|[Hn Hlz]]).
      * rewrite <- Hg. congruence.
      * rewrite <- Hg. by apply Ca.
    + intros g j Hj. destruct (Cb g j Hj) as (z & Hz & Hg & Hlz).
      rewrite set_status_lookup, Hz. simpl. eexists. split_and!; try done.
      unfold live. simpl. by case_decide.
    + intros g. rewrite Cc. destruct (decide (task_group x = g)) as [<-|Hn].
      * rewrite lookup_insert_eq, Hb. done.
      * by rewrite lookup_insert_ne.
  - exfalso. assert (Hsome : is_Some (media_groups h !! task_group x)).
    { apply Cc. by eexists. }
    rewrite Hb in Hsome. by destruct Hsome.
Qed.

Lemma forward_returns_coherent i h : coherent h -> coherent (forward_returns i h).
Proof.
  intros (Ca & Cb & Cc). unfold forward_returns.
  destruct (tasks h !! i) as [x|] eqn:Hx; [|done].
  destruct (status x) eqn:Hs; try done.
  assert (Hlive : live x) by (unfold live; by rewrite Hs).
  pose proof (Ca i x Hx Hlive) as Hreg.
  split_and!; simpl.
  - intros j y Hy Hl.
    destruct (live_set_status _ _ _ _ _ Hy Hl) as (z & Hz & Hg & [[-> Hst]|[Hn Hlz]]).
    + unfold live in Hl. by rewrite Hst in Hl.
    + pose proof (Ca j z Hz Hlz) as Hj.
      rewrite <- Hg. rewrite lookup_delete_ne; [done|].
      intros E. rewrite <- E in Hj. congruence.
  - intros g j Hj. apply lookup_delete_Some in Hj as [Hn Hj].
    destruct (Cb g j Hj) as (z & Hz & Hg & Hlz).
    assert (j <> i) by (intros ->; congruence).
    rewrite set_status_other by done. by exists z.
  - intros g. destruct (decide (task_group x = g)) as [<-|Hn].
    + rewrite !lookup_delete_eq. split; intros []; done.
    + by rewrite !lookup_delete_ne.
Qed.

Lemma add_message_coherent m h : coherent h -> coherent (add_message m h).
Proof.
  intros (Ca & Cb & Cc). unfold add_message.
  destruct (group_key m) as [g|]; [|done].
  set (ts := match group_timers h !! g with
             | Some tid => cancel tid (tasks h)
             | None => tasks h
             end).
  assert (Hlen : length ts = length (tasks h)).
  { subst ts. destruct (group_timers h !! g); [|done].
    by apply (retires_length n), cancel_retires. }
  assert (Hts : forall j y, ts !! j = Some y -> live y ->
                  tasks h !! j = Some y /\ task_group y <> g).
  { subst ts. intros j y Hy Hl.
    destruct (group_timers h !! g) as [tid|] eqn:Ht.
    - destruct (Cb g tid Ht) as (z & Hz & Hg & Hlz).
      assert (Hc : cancel tid (tasks h) = set_status tid Cancelled (tasks h)).
      { unfold cancel. rewrite Hz. unfold live in Hlz. by destruct (status z). }
      rewrite Hc in Hy.
      destruct (live_set_status _ _ _ _ _ Hy Hl) as (u & Hu & Hgu & [[-> Hst]|[Hn Hlu]]).
      + unfold live in Hl. by rewrite Hst in Hl.
      + rewrite set_status_other in Hy by done. split; [done|].
        intros E. assert (Hr := Ca j y Hy Hl). rewrite E, Ht in Hr. congruence.
    - split; [done|]. intros E. assert (Hr := Ca j y Hy Hl).
      rewrite E, Ht in Hr. done. }
  assert (Hkeep : forall j y, tasks h !! j = Some y -> task_group y <> g ->
                    ts !! j = Some y).
  { subst ts. intros j y Hy Hn.
    destruct (group_timers h !! g) as [tid|] eqn:Ht; [|done].
    destruct (Cb g tid Ht) as (z & Hz & Hg & _).
    assert (j <> tid) by (intros ->; congruence).
    rewrite (retires_other tid (tasks h)); [done|apply cancel_retires|done]. }
  split_and!; simpl.
  - intros j y Hy Hl. apply lookup_app_Some in Hy as [Hy|[Hge Hy]].
    + destruct (Hts j y Hy Hl) as [Hy' Hn].
      rewrite lookup_insert_ne by done. by apply Ca.
    + destruct (j - length ts)%nat eqn:E; [|done]. simpl in Hy. injection Hy as <-.
      simpl. rewrite lookup_insert_eq. f_equal. lia.
  - intros g' j Hj. destruct (decide (g = g')) as [<-|Hn].
    + rewrite lookup_insert_eq in Hj. injection Hj as <-.
      eexists. split; [by apply list_lookup_middle|]. by split.
    + rewrite lookup_insert_ne in Hj by done.
      destruct (Cb g' j Hj) as (z & Hz & Hg & Hlz).
      exists z. split_and!; try done.
      rewrite lookup_app_l; [apply Hkeep; congruence|].
      rewrite Hlen. by eapply lookup_lt_Some.
  - intros g'. destruct (decide (g = g')) as [<-|Hn].
    + rewrite !lookup_insert_eq. split; intros _; by eexists.
    + by rewrite !lookup_insert_ne.
Qed.

Lemma step_coherent h e : coherent h -> coherent (step h e).
Proof.
  intros Hc.
  assert (Hadv : forall t, coherent (advance t h)).
  { intros t. unfold advance. apply (foldl_invariant coherent); [done|].
    intros s i _. apply timer_fires_coherent. }
  destruct e as [t m|t|i]; simpl.
  - apply add_message_coherent, Hadv.
  - apply Hadv.
  - by apply forward_returns_coherent.
Qed.

Lemma run_coherent es : forall h, coherent h -> coherent (run es h).
Proof.
  induction es as [|e r IH]; intros h Hc; [done|].
  apply (IH (step h e)). by apply step_coherent.
Qed.

Lemma reached_coherent w es : coherent (run es (init w)).
Proof. apply run_coherent, coherent_init. Qed.

(** X2. In every state the handler reaches from a fresh start, timers, tasks
    and buffers go together: every live task (sleeping on its timer or
    dispatching) is the one registered in [group_timers] for its group, every
    registered task is live, and a group has a timer exactly when it has a
    buffer. *)
Theorem handler_stays_coherent w es : coherent (run es (init w)).
Proof. apply reached_coherent. Qed.

(** X3. In every reachable state a group has at most one live task; the
    buffer a firing timer looks up is there, and so are the two entries a
    finishing dispatch deletes (the [del] statements cannot raise KeyError). *)
Theorem one_live_task_per_group w es :
  let h := run es (init w) in
  (forall i j x y, tasks h !! i = Some x -> tasks h !! j = Some y ->
     live x -> live y -> task_group x = task_group y -> i = j) /\
  (forall i x, tasks h !! i = Some x -> live x ->
     is_Some (media_groups h !! task_group x) /\
     is_Some (group_timers h !! task_group x)).
Proof.
  intros h. destruct (reached_coherent w es) as (Ca & Cb & Cc).
  fold h in Ca, Cb, Cc. split.
  - intros i j x y Hx Hy Hlx Hly Hg.
    pose proof (Ca i x Hx Hlx) as Hi. pose proof (Ca j y Hy Hly) as Hj.
    rewrite Hg in Hi. congruence.
  - intros i x Hx Hl. pose proof (Ca i x Hx Hl) as Hi.
    split; [apply Cc|]; by eexists.
Qed.

(** X4. When the dispatch of a group returns, the group is fresh again:
    no buffer, no timer, no live task, so that a later album under the same
    group id starts from scratch. *)
Theorem finished_group_is_fresh w es i x :
  tasks (run es (init w)) !! i = Some x -> status x = Forwarding ->
  fresh (task_group x) (forward_returns i (run es (init w))) /\
  keyed (forward_returns i (run es (init w))).
Proof.
  intros Hx Hs.
  pose proof (reached_coherent w (es ++ [ForwardReturns i])) as Hc.
  rewrite run_snoc in Hc. simpl in Hc. destruct Hc as (Ca & _ & _).
  assert (Hdel : media_groups (forward_returns i (run es (init w))) !! task_group x = None /\
                 group_timers (forward_returns i (run es (init w))) !! task_group x = None).
  { unfold forward_returns. rewrite Hx, Hs. simpl. by rewrite !lookup_delete_eq. }
  destruct Hdel as [Hm Ht]. split.
  - split_and!; try done. intros j y Hy Hg Hl.
    pose proof (Ca j y Hy Hl) as Hr. rewrite Hg, Ht in Hr. done.
  - apply forward_returns_keyed, keyed_run, keyed_init.
Qed.

Lemma finished_group_witness :
  fresh "g1" (forward_returns 1%nat
                (run [Submit 0 item_A; Submit 1 item_B; Tick 4] (init 3))).
Proof.
  exact (proj1 (finished_group_is_fresh 3 [Submit 0 item_A; Submit 1 item_B; Tick 4]
                  1%nat {| task_group := "g1"; status := Forwarding |}
                  eq_refl eq_refl)).
Defined.

Lemma group_key_truthy m g :
  group_key m = Some g -> truthy_str (media_group_id m) = true.
Proof. unfold group_key. by destruct (truthy_str (media_group_id m)). Qed.

Lemma batch_shape_well_formed b : batch_shape b -> well_formed_batch b.
Proof.
  intros [(m & -> & _)|(g & Hne & Hk)]; [done|].
  destruct b as [|m0 [|m1 r]]; try done. simpl.
  apply Forall_cons in Hk as [Hm _]. by eapply group_key_truthy.
Qed.

Lemma timer_fires_shapes i h :
  keyed h ->
  Forall (fun b => batch_shape b /\ ascending b) (forwarded h) ->
  Forall (fun b => batch_shape b /\ ascending b) (forwarded (timer_fires i h)).
Proof.
  intros [K1 _] Hf. unfold timer_fires.
  destruct (tasks h !! i) as [x|]; [|done].
  destruct (status x); try done.
  destruct (_ <=? _); [|done].
  destruct (media_groups h !! task_group x) as [buf|] eqn:Hb; [|done].
  simpl. rewrite Forall_app. split; [done|].
  constructor; [|constructor].
  destruct (K1 _ _ Hb) as [Hne Hk].
  destruct (sort_by_id_keyed _ _ Hne Hk) as (Hsne & Hsk & _).
  split; [|apply sort_by_id_ascending]. right. by exists (task_group x).
Qed.

Lemma step_shapes h e :
  keyed h ->
  Forall (fun b => batch_shape b /\ ascending b) (forwarded h) ->
  Forall (fun b => batch_shape b /\ ascending b) (forwarded (step h e)).
Proof.
  intros Hk Hf.
  assert (Hadv : forall t, keyed (advance t h) /\
            Forall (fun b => batch_shape b /\ ascending b) (forwarded (advance t h))).
  { intros t. unfold advance.
    apply (foldl_invariant
      (fun s => keyed s /\
                Forall (fun b => batch_shape b /\ ascending b) (forwarded s)));
      [done|].
    intros s i _ [Hks Hfs]. split; [|by apply timer_fires_shapes].
    destruct (tasks s !! i) as [x|] eqn:Hx.
    - destruct (other_key (Some (task_group x))) as [g Hg].
      apply (timer_fires_frame g i s Hks). intros y Hy _. congruence.
    - apply (timer_fires_frame "" i s Hks). intros y Hy. congruence. }
  destruct e as [t m|t|i]; simpl.
  - destruct (Hadv t) as [_ Hfa]. unfold add_message.
    destruct (group_key m) eqn:Hg; [done|]. simpl.
    rewrite Forall_app. split; [done|]. constructor; [|constructor].
    split; [left; by exists m|]. unfold ascending. simpl. repeat constructor.
  - apply Hadv.
  - destruct (forward_returns_retires i h) as (_ & -> & _). done.
Qed.

Lemma run_shapes es : forall h,
  keyed h ->
  Forall (fun b => batch_shape b /\ ascending b) (forwarded h) ->
  Forall (fun b => batch_shape b /\ ascending b) (forwarded (run es h)).
Proof.
  induction es as [|e r IH]; intros h Hk Hf; [done|].
  apply (IH (step h e)); [by apply keyed_step | by apply step_shapes].
Qed.

(** X5. Every batch the handler hands to the forward callback is either one
    item without a group id or a non-empty list of items sharing one group
    id; it is ascending by message id; and its dispatch returns without
    raising, whatever the configuration and whatever Telegram answers. *)
Theorem forwarded_batches_are_dispatchable w es b :
  b ∈ forwarded (run es (init w)) ->
  batch_shape b /\ ascending b /\
  forall strip cfg api client,
    snd (forward_messages_group strip cfg api client b) = Ok tt.
Proof.
  intros Hb.
  assert (H : Forall (fun b => batch_shape b /\ ascending b)
                (forwarded (run es (init w)))).
  { apply run_shapes; [apply keyed_init|constructor]. }
  rewrite Forall_forall in H. destruct (H b Hb) as [Hs Ha].
  split_and!; try done.
  intros strip cfg api client. by apply dispatch_returns, batch_shape_well_formed.
Qed.

Lemma forwarded_batches_witness :
  batch_shape [item_B; item_A] /\ ascending [item_B; item_A].
Proof.
  destruct (forwarded_batches_are_dispatchable 3
              [Submit 0 item_A; Submit 1 item_B; Tick 4] [item_B; item_A])
    as (Hs & Ha & _).
  - vm_compute. apply list_elem_of_here.
  - exact (conj Hs Ha).
Defined.

(** ** The dispatch of any batch *)

Lemma dispatch_any strip cfg api client m0 rest :
  forward_messages_group strip cfg api client (m0 :: rest)
  = (delay_effects cfg ++ rounds strip cfg api client m0 rest, Ok tt).
Proof.
  unfold forward_messages_group, delay_effects, rounds.
  destruct (target_channels cfg) as [|t ts] eqn:Ht.
  - simpl. by destruct (_ && _).
  - cbn [negb truthy_list andb].
    destruct ((1 <? length (m0 :: rest))%nat && truthy_str (media_group_id m0)).
    + rewrite forward_media_group_trace, Ht.
      unfold when. by destruct (0 <? delay_seconds (forward_settings cfg)).
    + rewrite forward_single_message_trace, Ht.
      unfold when. by destruct (0 <? delay_seconds (forward_settings cfg)).
Qed.

Lemma sleeps_app a b : sleeps (a ++ b) = sleeps a ++ sleeps b.
Proof. apply omap_app. Qed.

Lemma sleeps_rows (f : Message -> log_row) msgs tail :
  sleeps (map (fun m => LogForward (f m)) msgs ++ tail) = sleeps tail.
Proof. induction msgs as [|m r IH]; [done|]. simpl. exact IH. Qed.

Lemma sleeps_rounds strip cfg api client m0 rest :
  sleeps (rounds strip cfg api client m0 rest) = [].
Proof.
  unfold rounds.
  assert (Hflat : forall (f : Z -> list effect) l,
            (forall t, sleeps (f t) = []) -> sleeps (flat_map f l) = []).
  { intros f l H. induction l as [|t r IH]; [done|].
    simpl. by rewrite sleeps_app, H, IH. }
  destruct (_ && _); apply Hflat; intros t.
  - unfold attempt_group, notify_effect. destruct (truthy_list _); [|done].
    destruct (api _); simpl.
    + rewrite sleeps_rows. by destruct (notify_admin_on_error cfg).
    + rewrite <- (app_nil_r (map _ _)). by rewrite sleeps_rows.
  - unfold attempt_single, notify_effect.
    destruct (api _); simpl; [|done]. by destruct (notify_admin_on_error cfg).
Qed.

(** X6. The forward delay is slept once per batch, before the first
    destination, and only when it is positive; an empty batch or an empty
    destination list leaves no effect at all, not even the delay. *)
Theorem delay_once_per_batch strip cfg api client msgs :
  sleeps (fst (forward_messages_group strip cfg api client msgs))
  = (if truthy_list msgs && truthy_list (target_channels cfg)
        && (0 <? delay_seconds (forward_settings cfg))
     then [delay_seconds (forward_settings cfg)] else []) /\
  (truthy_list msgs && truthy_list (target_channels cfg) = false ->
   forward_messages_group strip cfg api client msgs = ([], Ok tt)) /\
  (0 < delay_seconds (forward_settings cfg) ->
   truthy_list msgs && truthy_list (target_channels cfg) = true ->
   exists tr, fst (forward_messages_group strip cfg api client msgs)
              = Sleep (delay_seconds (forward_settings cfg)) :: tr).
Proof.
  destruct msgs as [|m0 rest]; [by split_and!|].
  rewrite dispatch_any. simpl fst. cbn [truthy_list andb].
  split_and!.
  - rewrite sleeps_app, sleeps_rounds, app_nil_r. unfold delay_effects.
    by destruct (truthy_list (target_channels cfg)),
               (0 <? delay_seconds (forward_settings cfg)).
  - intros Ht. unfold delay_effects, rounds. rewrite Ht.
    destruct (target_channels cfg); [|done]. simpl. by destruct (_ && _).
  - intros Hd Ht. unfold delay_effects. rewrite Ht. simpl.
    destruct (Z.ltb_spec 0 (delay_seconds (forward_settings cfg))); [|lia].
    by eexists.
Qed.

Lemma delay_once_witness :
  forward_messages_group ascii_strip cfg_plain api_up None [] = ([], Ok tt).
Proof.
  exact (proj1 (proj2 (delay_once_per_batch ascii_strip cfg_plain api_up None []))
               eq_refl).
Defined.

(** ** Counters and log rows of a dispatch *)

Lemma additive_flat_map (f g : list effect -> nat) (k : nat)
    (round : Z -> list effect) (targets : list Z) :
  additive f -> additive g ->
  (forall t, f (round t) = (g (round t) * k)%nat) ->
  f (flat_map round targets) = (g (flat_map round targets) * k)%nat.
Proof.
  intros [Hf0 Hf] [Hg0 Hg] H. induction targets as [|t r IH]; simpl.
  - by rewrite Hf0, Hg0.
  - rewrite Hf, Hg, H, IH. lia.
Qed.

Lemma stat_total_additive k : additive (stat_total k).
Proof.
  split; [done|]. intros a b. induction a as [|e r IH]; [done|].
  destruct e; simpl; rewrite IH; lia.
Qed.

Lemma delivered_additive : additive delivered.
Proof.
  split; [done|]. intros a b. unfold delivered.
  by rewrite attempts_app, List.filter_app, length_app.
Qed.

Lemma undelivered_additive : additive undelivered.
Proof.
  split; [done|]. intros a b. unfold undelivered.
  by rewrite attempts_app, List.filter_app, length_app.
Qed.

Lemma rows_ok_additive : additive rows_ok.
Proof.
  split; [done|]. intros a b. unfold rows_ok, logs.
  by rewrite omap_app, List.filter_app, length_app.
Qed.

Lemma rows_failed_additive : additive rows_failed.
Proof.
  split; [done|]. intros a b. unfold rows_failed, logs.
  by rewrite omap_app, List.filter_app, length_app.
Qed.

Lemma stat_total_rows k (f : Message -> log_row) msgs tail :
  stat_total k (map (fun m => LogForward (f m)) msgs ++ tail) = stat_total k tail.
Proof. induction msgs as [|x r IH]; [done|]. simpl. exact IH. Qed.

Lemma filter_map_const {A B} (p : B -> bool) (f : A -> B) (b : bool) l :
  (forall x, p (f x) = b) ->
  length (List.filter p (map f l)) = if b then length l else O.
Proof.
  intros H. induction l as [|x r IH]; simpl; [by destruct b|].
  rewrite H. destruct b; simpl; by rewrite IH.
Qed.

(** What one round of the single-message loop adds to counters and rows. *)
Lemma attempt_single_counts strip cfg api client m t :
  let tr := attempt_single strip cfg api client m t in
  stat_total messages_forwarded tr = (delivered tr * 1)%nat /\
  stat_total failed_forwards tr = (undelivered tr * 1)%nat /\
  stat_total media_groups_forwarded tr = (delivered tr * 0)%nat /\
  rows_ok tr = (delivered tr * 1)%nat /\
  rows_failed tr = (undelivered tr * 1)%nat.
Proof.
  unfold attempt_single, notify_effect.
  destruct (api _); simpl; [|done].
  by destruct (notify_admin_on_error cfg).
Qed.

Lemma counts_rows (f : Message -> log_row) (ok : bool) msgs tail :
  (forall m, success (f m) = ok) ->
  let tr := map (fun m => LogForward (f m)) msgs ++ tail in
  delivered tr = delivered tail /\ undelivered tr = undelivered tail /\
  rows_ok tr = ((if ok then length msgs else O) + rows_ok tail)%nat /\
  rows_failed tr = ((if ok then O else length msgs) + rows_failed tail)%nat.
Proof.
  intros Hok tr. subst tr. unfold delivered, undelivered, rows_ok, rows_failed.
  rewrite attempts_rows, logs_rows, !List.filter_app, !length_app.
  rewrite (filter_map_const success f ok) by done.
  rewrite (filter_map_const (fun r => negb (success r)) f (negb ok))
    by (intros m; by rewrite Hok).
  by destruct ok.
Qed.

(** What one round of the media-group loop adds to counters and rows. *)
Lemma attempt_group_counts strip cfg api client m0 msgs t :
  let tr := attempt_group strip cfg api client m0 msgs t in
  stat_total messages_forwarded tr = (delivered tr * length msgs)%nat /\
  stat_total failed_forwards tr = (undelivered tr * length msgs)%nat /\
  stat_total media_groups_forwarded tr = (delivered tr * 1)%nat /\
  rows_ok tr = (delivered tr * length msgs)%nat /\
  rows_failed tr = (undelivered tr * length msgs)%nat.
Proof.
  unfold attempt_group.
  destruct (truthy_list _); [|done].
  destruct delivered_additive as [_ Ad], undelivered_additive as [_ Au],
           rows_ok_additive as [_ Aok], rows_failed_additive as [_ Ako].
  destruct (api _) as [e|].
  - assert (Hn : forall k, stat_total k (notify_effect cfg m0 t e) = O).
    { intros k. unfold notify_effect. by destruct (notify_admin_on_error cfg). }
    assert (Hz : delivered (notify_effect cfg m0 t e) = O /\
                 undelivered (notify_effect cfg m0 t e) = O /\
                 rows_ok (notify_effect cfg m0 t e) = O /\
                 rows_failed (notify_effect cfg m0 t e) = O).
    { unfold notify_effect. by destruct (notify_admin_on_error cfg). }
    destruct Hz as (Z1 & Z2 & Z3 & Z4).
    destruct (counts_rows (group_row t false (Some e)) false msgs
                (notify_effect cfg m0 t e)) as (C1 & C2 & C3 & C4); [done|].
    rewrite Ad, Au, Aok, Ako, C1, C2, C3, C4, Z1, Z2, Z3, Z4.
    cbn [app stat_total same_stat]. rewrite !stat_total_rows, !Hn.
    split_and!; reflexivity || (cbn; lia).
  - rewrite <- (app_nil_r (map _ msgs)).
    destruct (counts_rows (group_row t true None) true msgs [])
      as (C1 & C2 & C3 & C4); [done|].
    rewrite Ad, Au, Aok, Ako, C1, C2, C3, C4.
    cbn [app stat_total same_stat]. rewrite !stat_total_rows.
    split_and!; reflexivity || (cbn; lia).
Qed.

Lemma attempt_group_once strip cfg api client m0 msgs t :
  (length (attempts (attempt_group strip cfg api client m0 msgs t)) <= 1)%nat.
Proof.
  unfold attempt_group. destruct (truthy_list _); [|simpl; lia].
  destruct (api _) as [e|]; rewrite attempts_app.
  - rewrite attempts_rows. unfold notify_effect.
    destruct (notify_admin_on_error cfg); simpl; lia.
  - rewrite <- (app_nil_r (map _ msgs)), attempts_rows. simpl. lia.
Qed.

Lemma delay_counts cfg (f : list effect -> nat) tr :
  additive f -> f (delay_effects cfg) = O -> f (delay_effects cfg ++ tr) = f tr.
Proof. intros [_ Hf] H0. by rewrite Hf, H0. Qed.

Lemma delay_adds_nothing cfg :
  (forall k, stat_total k (delay_effects cfg) = O) /\
  delivered (delay_effects cfg) = O /\ undelivered (delay_effects cfg) = O /\
  rows_ok (delay_effects cfg) = O /\ rows_failed (delay_effects cfg) = O.
Proof. unfold delay_effects. by destruct (_ && _). Qed.

(** X7. For a batch as the handler forms it, the counters and the log
    agree with the sends: [messages_forwarded] grows by the batch size for
    every destination whose send returned, [failed_forwards] by the batch
    size for every destination whose send raised, [media_groups_forwarded]
    by one per delivered album, and the rows logged as succeeded and as
    failed are as many as the two message counters added. *)
Theorem counters_match_outcomes strip cfg api client msgs :
  well_formed_batch msgs ->
  let tr := fst (forward_messages_group strip cfg api client msgs) in
  stat_total messages_forwarded tr = (delivered tr * length msgs)%nat /\
  stat_total failed_forwards tr = (undelivered tr * length msgs)%nat /\
  stat_total media_groups_forwarded tr
  = (if (1 <? length msgs)%nat then delivered tr else O) /\
  rows_ok tr = stat_total messages_forwarded tr /\
  rows_failed tr = stat_total failed_forwards tr /\
  (delivered tr + undelivered tr <= length (target_channels cfg))%nat.
Proof.
  intros Hwf tr.
  assert (Hle : forall round : Z -> list effect,
            (forall t, (length (attempts (round t)) <= 1)%nat) ->
            (delivered (flat_map round (target_channels cfg))
             + undelivered (flat_map round (target_channels cfg))
             <= length (target_channels cfg))%nat).
  { intros round H. induction (target_channels cfg) as [|t r IH]; [vm_compute; lia|].
    simpl. destruct delivered_additive as [_ Hd], undelivered_additive as [_ Hu].
    rewrite Hd, Hu. specialize (H t).
    assert (delivered (round t) + undelivered (round t) <= 1)%nat; [|lia].
    unfold delivered, undelivered.
    destruct (attempts (round t)) as [|[a []] [|? ?]]; simpl in *; lia. }
  destruct (delay_adds_nothing cfg) as (Ds & Dd & Du & Dok & Dko).
  pose proof (stat_total_additive messages_forwarded) as Amf.
  pose proof (stat_total_additive failed_forwards) as Aff.
  pose proof (stat_total_additive media_groups_forwarded) as Amg.
  pose proof delivered_additive as Ad. pose proof undelivered_additive as Au.
  pose proof rows_ok_additive as Aok. pose proof rows_failed_additive as Ako.
  destruct msgs as [|m0 [|m1 rest]]; [done| |].
  - subst tr. rewrite dispatch_single. simpl fst.
    rewrite !delay_counts by (done || apply Ds).
    set (round := attempt_single strip cfg api client m0).
    assert (H : forall t, _) by exact (attempt_single_counts strip cfg api client m0).
    fold round in H. cbn zeta in H.
    rewrite (additive_flat_map (stat_total messages_forwarded) delivered 1 round)
      by (done || apply H).
    rewrite (additive_flat_map (stat_total failed_forwards) undelivered 1 round)
      by (done || apply H).
    rewrite (additive_flat_map (stat_total media_groups_forwarded) delivered 0 round)
      by (done || apply H).
    rewrite (additive_flat_map rows_ok delivered 1 round) by (done || apply H).
    rewrite (additive_flat_map rows_failed undelivered 1 round) by (done || apply H).
    simpl. split_and!; try lia.
    apply Hle. intros t. subst round. unfold attempt_single, notify_effect.
    destruct (api _); simpl; [|lia]. destruct (notify_admin_on_error cfg); simpl; lia.
  - simpl in Hwf. subst tr. rewrite dispatch_group by done. simpl fst.
    rewrite !delay_counts by (done || apply Ds).
    set (msgs := m0 :: m1 :: rest).
    set (round := attempt_group strip cfg api client m0 msgs).
    assert (H : forall t, _) by exact (attempt_group_counts strip cfg api client m0 msgs).
    fold round in H. cbn zeta in H.
    rewrite (additive_flat_map (stat_total messages_forwarded) delivered
               (length msgs) round) by (done || apply H).
    rewrite (additive_flat_map (stat_total failed_forwards) undelivered
               (length msgs) round) by (done || apply H).
    rewrite (additive_flat_map (stat_total media_groups_forwarded) delivered 1 round)
      by (done || apply H).
    rewrite (additive_flat_map rows_ok delivered (length msgs) round)
      by (done || apply H).
    rewrite (additive_flat_map rows_failed undelivered (length msgs) round)
      by (done || apply H).
    change (1 <? length msgs)%nat with true. cbv iota.
    split_and!; try lia.
    apply Hle. intros t. apply attempt_group_once.
Qed.

Lemma counters_match_witness :
  let tr := fst (forward_messages_group ascii_strip cfg_plain api_x_down None
                   [photo_1; photo_2]) in
  stat_total messages_forwarded tr = (delivered tr * 2)%nat /\
  stat_total failed_forwards tr = (undelivered tr * 2)%nat /\
  rows_ok tr = 2%nat /\ rows_failed tr = 2%nat.
Proof.
  intros tr.
  destruct (counters_match_outcomes ascii_strip cfg_plain api_x_down None
              [photo_1; photo_2] eq_refl) as (H1 & H2 & _ & H4 & H5 & _).
  split_and!; [exact H1 | exact H2 | |].
  - etrans; [exact H4|]. by vm_compute.
  - etrans; [exact H5|]. by vm_compute.
Defined.

(** ** Which call a single message is delivered by *)





(** ** What the calls of a dispatch depend on *)

Lemma calls_nothing (targets : list Z) : calls (flat_map (fun _ => []) targets) = [].
Proof. by induction targets. Qed.

Lemma dispatch_calls strip cfg api client m0 rest :
  calls (fst (forward_messages_group strip cfg api client (m0 :: rest)))
  = if (1 <? length (m0 :: rest))%nat && truthy_str (media_group_id m0)
    then
      let media := build_media_list (build_caption strip cfg client m0) O (m0 :: rest) in
      if truthy_list media
      then map (fun t => send_media_group t media) (target_channels cfg)
      else []
    else map (single_call strip cfg client m0) (target_channels cfg).
Proof.
  rewrite dispatch_any. simpl fst.
  destruct (delay_silent cfg) as (_ & _ & _ & Dc).
  rewrite calls_app, Dc. cbn [app]. unfold rounds.
  destruct (_ && _).
  - cbv zeta.
    destruct (truthy_list (build_media_list _ _ _)) eqn:Hm.
    + apply rounds_calls. intros t. by apply attempt_group_calls.
    + rewrite <- (calls_nothing (target_channels cfg)). f_equal.
      apply flat_map_ext. intros t. unfold attempt_group. by rewrite Hm.
  - apply rounds_calls. intros t. apply attempt_single_calls.
Qed.

Lemma build_caption_sender strip cfg client m u :
  preserve_sender (forward_settings cfg) && add_source_info (forward_settings cfg) = false ->
  build_caption strip cfg client (with_sender m u) = build_caption strip cfg client m.
Proof.
  intros H. unfold build_caption, source_info. cbn [with_sender caption text chat date from_user].
  destruct (add_source_info (forward_settings cfg)); [|done].
  rewrite andb_true_r in H. rewrite H.
  by destruct u, (from_user m).
Qed.

Lemma build_media_list_sender cap (f : Message -> option User) msgs i :
  build_media_list cap i (map (fun m => with_sender m (f m)) msgs)
  = build_media_list cap i msgs.
Proof.
  revert i. induction msgs as [|m r IH]; [done|]. intros i.
  cbn [map build_media_list].
  change (create_input_media (with_sender m (f m))) with (create_input_media m).
  rewrite !IH. done.
Qed.

Lemma calls_without_sender strip cfg api client (f : Message -> option User) msgs :
  preserve_sender (forward_settings cfg) && add_source_info (forward_settings cfg) = false ->
  calls (fst (forward_messages_group strip cfg api client
                (map (fun m => with_sender m (f m)) msgs)))
  = calls (fst (forward_messages_group strip cfg api client msgs)).
Proof.
  intros H. destruct msgs as [|m0 rest]; [done|].
  cbn [map]. rewrite !dispatch_calls.
  cbn [length]. rewrite length_map.
  change (media_group_id (with_sender m0 (f m0))) with (media_group_id m0).
  rewrite build_caption_sender by done.
  change (with_sender m0 (f m0) :: map (fun m => with_sender m (f m)) rest)
    with (map (fun m => with_sender m (f m)) (m0 :: rest)).
  rewrite build_media_list_sender.
  destruct ((1 <? S (length rest))%nat && truthy_str (media_group_id m0)); [done|].
  apply map_ext. intros t. unfold single_call.
  rewrite build_caption_sender by done. done.
Qed.

Lemma append_assoc (a b c : string) : (a +:+ b) +:+ c = a +:+ (b +:+ c).
Proof.
  induction a as [|x a IH]; [done|].
  change (String x ((a +:+ b) +:+ c) = String x (a +:+ b +:+ c)). by rewrite IH.
Qed.

Lemma append_empty_l (a : string) : "" +:+ a = a.
Proof. reflexivity. Qed.

(** X9. The [from_user] attribute of an item takes part in a dispatch only
    when [preserve_sender] and [add_source_info] are both switched on: then
    the caption ends with the line naming the sender; otherwise the calls are
    the same whatever [from_user] is.  Whoever sent it, with
    [add_source_info] on the source note names the chat, and a chat without a
    title is named by its id, which for a private chat is the id of the
    user. *)
Theorem from_user_sent_only_with_both_switches strip cfg api client :
  (preserve_sender (forward_settings cfg) && add_source_info (forward_settings cfg) = false ->
   forall (f : Message -> option User) msgs,
     calls (fst (forward_messages_group strip cfg api client
                   (map (fun m => with_sender m (f m)) msgs)))
     = calls (fst (forward_messages_group strip cfg api client msgs))) /\
  (preserve_sender (forward_settings cfg) && add_source_info (forward_settings cfg) = true ->
   forall m u, from_user m = Some u ->
     build_caption strip cfg client m
     = build_caption strip cfg client (with_sender m None)
       +:+ nl +:+ "👤 发送者: " +:+ full_name u) /\
  (add_source_info (forward_settings cfg) = true ->
   forall m, truthy_str (title (chat m)) = false ->
     exists pre post,
       build_caption strip cfg client m
       = pre +:+ "📢 来源: " +:+ str_of_int (chat_id m) +:+ nl +:+ post).
Proof.
  split_and!.
  - intros H f msgs. by apply calls_without_sender.
  - intros H m u Hu. apply andb_true_iff in H as [Hp Ha].
    unfold build_caption, source_info.
    cbn [with_sender caption text chat date from_user]. rewrite Ha, Hp, Hu.
    generalize (if enabled (deepseek_settings cfg)
                then rewrite_text strip (deepseek_settings cfg) client
                       (apply_paraphrase_rules cfg
                          (default "" (py_or (caption m) (text m))))
                else apply_paraphrase_rules cfg
                       (default "" (py_or (caption m) (text m)))) as processed.
    generalize (if truthy_str (title (chat m)) then default "" (title (chat m))
                else str_of_int (chat_ident (chat m))) as chat_title.
    generalize (strftime (date m)) as time_str.
    generalize (nl +:+ "👤 发送者: " +:+ full_name u) as sender.
    intros sender time_str chat_title processed.
    rewrite !append_assoc. by rewrite (append_empty_l sender).
  - intros Ha m Ht. unfold build_caption, source_info, chat_id. rewrite Ha, Ht.
    generalize (if enabled (deepseek_settings cfg)
                then rewrite_text strip (deepseek_settings cfg) client
                       (apply_paraphrase_rules cfg
                          (default "" (py_or (caption m) (text m))))
                else apply_paraphrase_rules cfg
                       (default "" (py_or (caption m) (text m)))) as processed.
    intros processed.
    exists (processed +:+ nl +:+ nl).
    exists ("⏰ 时间: " +:+ strftime (date m)
            +:+ match from_user m with
                | Some u =>
                    if preserve_sender (forward_settings cfg)
                    then nl +:+ "👤 发送者: " +:+ full_name u
                    else ""
                | None => ""
                end).
    by rewrite !append_assoc.
Qed.

Lemma from_user_witness :
  calls (fst (forward_messages_group ascii_strip cfg_ai api_up None
                [with_sender cat_photo (Some {| user_id := 42; full_name := "Ann" |})]))
  = calls (fst (forward_messages_group ascii_strip cfg_ai api_up None [cat_photo])).
Proof.
  exact (proj1 (from_user_sent_only_with_both_switches ascii_strip cfg_ai api_up None)
           eq_refl (fun _ => Some {| user_id := 42; full_name := "Ann" |}) [cat_photo]).
Defined.




(** ** Escaping for MarkdownV2 *)

Lemma escape_head s c r :
  escape_markdown_v2 s = String c r -> is_escape_char c = false.
Proof.
  destruct s as [|d s']; [done|]. simpl.
  destruct (is_escape_char d) eqn:Hd; intros [= <- _]; done.
Qed.

Lemma escape_length s :
  String.length (escape_markdown_v2 s) = (String.length s + specials s)%nat.
Proof.
  induction s as [|c r IH]; [done|]. simpl.
  destruct (is_escape_char c); simpl; rewrite IH; lia.
Qed.

Lemma escape_injective s t :
  escape_markdown_v2 s = escape_markdown_v2 t -> s = t.
Proof.
  revert t. induction s as [|c r IH]; intros [|d t'].
  - done.
  - simpl. by destruct (is_escape_char d).
  - simpl. by destruct (is_escape_char c).
  - simpl.
    destruct (is_escape_char c) eqn:Hc, (is_escape_char d) eqn:Hd.
    + intros [= -> H]. f_equal. by apply IH.
    + intros [= <- H]. symmetry in H. apply escape_head in H. congruence.
    + intros [= -> H]. apply escape_head in H. congruence.
    + intros [= -> H]. f_equal. by apply IH.
Qed.

(** X11. [escape_markdown_v2] puts one backslash before each of the 18
    characters of its class and changes nothing else: the result is longer
    than the text by the number of such characters, it equals the text
    exactly when there are none, it is built piece by piece, and two
    different texts never escape to the same result. The backslash is not in
    the class, so escaping an escaped text that has such a character changes
    it again. *)
Theorem escape_markdown_v2_marks_specials s t :
  String.length (escape_markdown_v2 s) = (String.length s + specials s)%nat /\
  (escape_markdown_v2 s = s <-> specials s = O) /\
  escape_markdown_v2 (s +:+ t) = escape_markdown_v2 s +:+ escape_markdown_v2 t /\
  (escape_markdown_v2 s = escape_markdown_v2 t -> s = t) /\
  (specials s <> O ->
   escape_markdown_v2 (escape_markdown_v2 s) <> escape_markdown_v2 s).
Proof.
  split_and!.
  - apply escape_length.
  - split.
    + intros H. pose proof (escape_length s) as L. rewrite H in L. lia.
    + induction s as [|c r IH]; [done|]. simpl.
      destruct (is_escape_char c); [done|]. simpl. intros H. by rewrite IH.
  - induction s as [|c r IH]; [done|]. simpl.
    destruct (is_escape_char c); simpl; by rewrite IH.
  - apply escape_injective.
  - intros Hs H. apply escape_injective in H.
    pose proof (escape_length s) as L. rewrite H in L. lia.
Qed.

Lemma escape_markdown_v2_witness :
  escape_markdown_v2 (escape_markdown_v2 "a.b") <> escape_markdown_v2 "a.b".
Proof.
  apply (proj2 (proj2 (proj2 (proj2 (escape_markdown_v2_marks_specials "a.b" ""))))).
  vm_compute. lia.
Defined.

(** ** Replacement rules on a text they do not match *)

Lemma replace_from_unmatched old new s :
  is_substring old s = false -> replace_from old new O s = s.
Proof.
  induction s as [|c r IH]; [done|].
  change (is_substring old (String c r))
    with (String.prefix old (String c r) || is_substring old r).
  intros H. apply orb_false_iff in H as [Hp Hr].
  cbn [replace_from]. rewrite Hp. by rewrite IH.
Qed.

Lemma str_replace_unmatched old new s :
  is_substring old s = false -> str_replace old new s = s.
Proof.
  intros H. unfold str_replace.
  destruct (String.eqb_spec old "") as [->|_].
  - by destruct s.
  - by apply replace_from_unmatched.
Qed.

(** X12. Replacement rules leave a text alone when none of their keys
    occurs in it, and the empty text is returned as it is whatever the
    rules. *)
Theorem rules_leave_unmatched_text cfg s :
  (forall k v, In (k, v) (paraphrase_rules cfg) -> is_substring k s = false) ->
  apply_paraphrase_rules cfg s = s /\ apply_paraphrase_rules cfg "" = "".
Proof.
  intros H. split.
  - unfold apply_paraphrase_rules. destruct (_ || _); [done|].
    induction (paraphrase_rules cfg) as [|[k v] r IH]; [done|].
    simpl. rewrite str_replace_unmatched by (apply (H k v); by left).
    apply IH. intros k' v' Hin. apply (H k' v'). by right.
  - unfold apply_paraphrase_rules. by rewrite orb_true_r.
Qed.

Lemma rules_leave_unmatched_witness :
  apply_paraphrase_rules cfg_ai "a dog" = "a dog".
Proof.
  apply (rules_leave_unmatched_text cfg_ai "a dog").
  intros k v [[= <- <-]|[]]. reflexivity.
Defined.

(** ** Admin inputs *)

Lemma existsb_Z x (l : list Z) : existsb (Z.eqb x) l = true <-> x ∈ l.
Proof.
  rewrite existsb_exists, list_elem_of_In. split.
  - intros (y & Hy & E). apply Z.eqb_eq in E. by subst.
  - intros H. exists x. split; [done|]. apply Z.eqb_refl.
Qed.

Lemma existsb_str x (l : list string) : existsb (String.eqb x) l = true <-> x ∈ l.
Proof.
  rewrite existsb_exists, list_elem_of_In. split.
  - intros (y & Hy & E). apply String.eqb_eq in E. by subst.
  - intros H. exists x. split; [done|]. apply String.eqb_refl.
Qed.

Section Removal.

Context {A : Type} (eqb : A -> A -> bool).
Hypothesis eqb_eq : forall a b, eqb a b = true <-> a = b.

Lemma py_remove_sub x y l : y ∈ py_remove eqb x l -> y ∈ l.
Proof.
  induction l as [|z r IH]; [done|]. simpl.
  destruct (eqb z x); [by right|].
  intros [->|H]%elem_of_cons; [by left|]. right. by apply IH.
Qed.

Lemma py_remove_NoDup x l : NoDup l -> NoDup (py_remove eqb x l).
Proof.
  induction 1 as [|z r Hz Hr IH]; simpl; [constructor|].
  destruct (eqb z x); [done|]. constructor; [|done].
  intros H. by apply py_remove_sub in H.
Qed.

Lemma py_remove_gone x l : NoDup l -> x ∉ py_remove eqb x l.
Proof.
  induction 1 as [|z r Hz Hr IH]; simpl; [by intros ?%elem_of_nil|].
  destruct (eqb z x) eqn:E.
  - apply eqb_eq in E. by subst.
  - intros [->|H]%elem_of_cons; [|done].
    assert (eqb z z = true) by by apply eqb_eq. congruence.
Qed.

Lemma py_remove_other x y l : y <> x -> y ∈ l -> y ∈ py_remove eqb x l.
Proof.
  intros Hne. induction l as [|z r IH]; [done|]. simpl.
  intros [->|H]%elem_of_cons.
  - destruct (eqb z x) eqn:E; [apply eqb_eq in E; by subst|]. by left.
  - destruct (eqb z x); [done|]. right. by apply IH.
Qed.

Lemma py_remove_Forall (P : A -> Prop) x l : Forall P l -> Forall P (py_remove eqb x l).
Proof.
  induction 1 as [|z r Hz Hr IH]; simpl; [constructor|].
  destruct (eqb z x); [done|]. by constructor.
Qed.

End Removal.

Lemma dict_set_keys k v d :
  map fst (dict_set k v d) = if dict_has k d then map fst d else map fst d ++ [k].
Proof.
  induction d as [|[k' v'] r IH]; [done|]. simpl. unfold dict_has in *. simpl.
  destruct (String.eqb k' k); simpl; [done|]. rewrite IH.
  by destruct (existsb _ r).
Qed.

Lemma dict_has_keys k d : dict_has k d = true <-> k ∈ map fst d.
Proof.
  unfold dict_has. induction d as [|[k' v'] r IH]; simpl.
  - split; [done|]. by intros ?%elem_of_nil.
  - rewrite orb_true_iff, IH, elem_of_cons, String.eqb_eq.
    split; (intros [H|H]; [left; by symmetry|by right]).
Qed.

Lemma dict_del_keys k d : map fst (dict_del k d) = py_remove String.eqb k (map fst d).
Proof.
  induction d as [|[k' v'] r IH]; [done|]. simpl.
  destruct (String.eqb k' k); simpl; [done|]. by rewrite IH.
Qed.

Lemma dict_del_Forall (P : string * string -> Prop) k d :
  Forall P d -> Forall P (dict_del k d).
Proof.
  induction 1 as [|[k' v'] r Hz Hr IH]; simpl; [constructor|].
  destruct (String.eqb k' k); [done|]. by constructor.
Qed.

Lemma NoDup_snoc_Z (l : list Z) x : NoDup l -> x ∉ l -> NoDup (l ++ [x]).
Proof.
  intros Hl Hx. apply NoDup_app. split_and!; [done| |apply NoDup_singleton].
  intros y Hy ->%list_elem_of_singleton. done.
Qed.

Lemma NoDup_snoc_str (l : list string) x : NoDup l -> x ∉ l -> NoDup (l ++ [x]).
Proof.
  intros Hl Hx. apply NoDup_app. split_and!; [done| |apply NoDup_singleton].
  intros y Hy ->%list_elem_of_singleton. done.
Qed.

Lemma handle_admin_input_tidy parse_int strip a i cfg :
  tidy cfg -> tidy (fst (handle_admin_input parse_int strip a i cfg)).
Proof.
  intros T. pose proof T as (Ha & Hs & Ht & Hk & Hr & Hd & Hkw & Hrl).
  destruct i as [s|]; [|done].
  assert (Hadd : forall l x store,
            NoDup l -> (forall l', NoDup l' -> tidy (store l')) ->
            tidy (fst (add_to l x store cfg))).
  { intros l x store Hl Hst. unfold add_to.
    destruct (existsb (Z.eqb x) l) eqn:E; [done|]. simpl.
    apply Hst, NoDup_snoc_Z; [done|]. rewrite <- existsb_Z. congruence. }
  assert (Hrem : forall l x store,
            NoDup l -> (forall l', NoDup l' -> tidy (store l')) ->
            tidy (fst (remove_from l x store cfg))).
  { intros l x store Hl Hst. unfold remove_from.
    destruct (existsb (Z.eqb x) l); [|done]. simpl.
    by apply Hst, py_remove_NoDup. }
  destruct a; cbn [handle_admin_input].
  - destruct (parse_int s); [|done]. apply Hadd; [done|]. intros l' Hl'.
    by unfold tidy.
  - destruct (parse_int s); [|done]. apply Hrem; [done|]. intros l' Hl'.
    by unfold tidy.
  - destruct (parse_int s); [|done]. apply Hadd; [done|]. intros l' Hl'.
    by unfold tidy.
  - destruct (parse_int s); [|done]. apply Hrem; [done|]. intros l' Hl'.
    by unfold tidy.
  - destruct (parse_int s); [|done]. apply Hadd; [done|]. intros l' Hl'.
    by unfold tidy.
  - destruct (parse_int s); [|done]. apply Hrem; [done|]. intros l' Hl'.
    by unfold tidy.
  - destruct (parse_int s) as [d|]; [|done].
    destruct (Z.ltb_spec d 0); [done|]. by unfold tidy.
  - destruct (split_eq s) as [[k v]|]; [|done]. cbv zeta.
    destruct (String.eqb_spec (strip k) ""); [done|].
    destruct (String.eqb_spec (strip v) ""); [done|].
    cbn [negb andb fst]. unfold tidy. cbn [with_rules admins source_channels
      target_channels forward_settings paraphrase_rules].
    split_and!; try done.
    + rewrite dict_set_keys. destruct (dict_has _ _) eqn:E; [done|].
      apply NoDup_snoc_str; [done|]. rewrite <- dict_has_keys. congruence.
    + apply Forall_forall. intros r Hin.
      assert (Forall (fun r => fst r <> "" /\ snd r <> "")
                (dict_set (strip k) (strip v) (paraphrase_rules cfg))) as HF.
      { clear Hin. induction Hrl as [|[k' v'] r' Hz Hr' IH]; simpl.
        - by repeat constructor.
        - inversion Hr as [|? ? Hnk Hnd]; subst.
          destruct (String.eqb k' (strip k)).
          + constructor; [|done]. simpl in *. tauto.
          + constructor; [done|]. by apply IH. }
      by eapply Forall_forall in HF.
  - cbv zeta. destruct (dict_has _ _); [|done]. cbn [fst]. unfold tidy.
    cbn [with_rules admins source_channels target_channels forward_settings
         paraphrase_rules].
    split_and!; try done.
    + rewrite dict_del_keys. by apply py_remove_NoDup.
    + by apply dict_del_Forall.
  - cbv zeta. destruct (String.eqb_spec (strip s) ""); [done|].
    destruct (existsb _ _) eqn:E; [done|]. cbn [negb andb fst]. unfold tidy.
    cbn [with_keywords with_forward_settings admins source_channels target_channels
         forward_settings paraphrase_rules keyword_filter delay_seconds].
    split_and!; try done.
    + apply NoDup_snoc_str; [done|]. rewrite <- existsb_str. congruence.
    + apply Forall_app. split; [done|]. by repeat constructor.
  - cbv zeta. destruct (existsb _ _); [|done]. cbn [fst]. unfold tidy.
    cbn [with_keywords with_forward_settings admins source_channels target_channels
         forward_settings paraphrase_rules keyword_filter delay_seconds].
    split_and!; try done.
    + by apply py_remove_NoDup.
    + by apply py_remove_Forall.
  - by unfold tidy.
  - by unfold tidy.
Qed.

(** X13. Whatever the admins send, in any order, the configuration stays
    tidy: no admin, source, destination, keyword or rule key is listed twice,
    the delay is not negative, and neither a keyword nor a side of a rule is
    empty. *)
Theorem admin_inputs_keep_config_tidy parse_int strip ins cfg :
  tidy cfg -> tidy (admin_inputs parse_int strip ins cfg).
Proof.
  unfold admin_inputs. revert cfg.
  induction ins as [|i r IH]; intros cfg T; [done|].
  simpl. apply IH. by apply handle_admin_input_tidy.
Qed.

Lemma admin_inputs_tidy_witness :
  tidy (admin_inputs parse_decimal ascii_strip
          [(add_target, Some "7"); (set_delay, Some "-3");
           (add_keyword_filter, Some "  "); (add_paraphrase_rule, Some "cat = dog")]
          cfg_plain).
Proof.
  apply (admin_inputs_keep_config_tidy parse_decimal ascii_strip).
  unfold tidy. simpl. split_and!; try lia; repeat constructor;
    try (by apply (bool_decide_unpack _); vm_compute); done.
Defined.

(** X14. An input that is not accepted changes nothing: a text that is not
    a number, a negative delay, an id that is already listed or not listed,
    a rule without an equals sign or with an empty side, an empty or known
    keyword, or an update without text leave the configuration as it was. *)
Theorem rejected_input_changes_nothing parse_int strip a i cfg :
  snd (handle_admin_input parse_int strip a i cfg) <> Accepted ->
  fst (handle_admin_input parse_int strip a i cfg) = cfg.
Proof.
  destruct i as [s|]; [|done].
  destruct a; cbn [handle_admin_input]; unfold add_to, remove_from;
    try (destruct (parse_int s) as [n|]; [|done]);
    try (destruct (split_eq s) as [[k v]|]; [|done]);
    cbv zeta;
    try (by destruct (_ && _));
    try (by destruct (negb _));
    try (by destruct (existsb _ _));
    try (by destruct (dict_has _ _));
    try (by destruct (n <? 0));
    done.
Qed.

Lemma rejected_input_witness :
  fst (handle_admin_input parse_decimal ascii_strip set_delay (Some "-5") cfg_plain)
  = cfg_plain.
Proof.
  apply (rejected_input_changes_nothing parse_decimal ascii_strip set_delay
           (Some "-5") cfg_plain).
  vm_compute. discriminate.
Defined.




(** X16. Source edits reach the routing. A message from a chat that an
    admin has asked to remove from a source list without duplicates leaves
    the media-group handler untouched; a message from a chat that was asked
    to be added is never turned away as coming from an unknown chat. *)
Theorem source_edits_reach_routing lower parse_int strip cfg s m aw h :
  parse_int s = Some (chat_id m) -> NoDup (source_channels cfg) ->
  handle_message lower
    (fst (handle_admin_input parse_int strip remove_source (Some s) cfg))
    aw (Some m) h = h /\
  handle_message_route lower
    (fst (handle_admin_input parse_int strip add_source (Some s) cfg))
    aw (Some m) <> NotSource.
Proof.
  intros Hp Hnd. split.
  - unfold handle_message, handle_message_route.
    destruct (_ && aw); [done|].
    assert (existsb (Z.eqb (chat_id m))
              (source_channels
                 (fst (handle_admin_input parse_int strip remove_source (Some s) cfg)))
            = false) as ->; [|done].
    apply not_true_is_false. rewrite existsb_Z.
    cbn [handle_admin_input]. rewrite Hp. unfold remove_from.
    destruct (existsb _ _) eqn:E; cbn [fst with_sources source_channels].
    + apply py_remove_gone; [apply Z.eqb_eq|done].
    + rewrite <- existsb_Z. congruence.
  - unfold handle_message_route.
    destruct (_ && aw); [done|].
    assert (existsb (Z.eqb (chat_id m))
              (source_channels
                 (fst (handle_admin_input parse_int strip add_source (Some s) cfg)))
            = true) as ->.
    { rewrite existsb_Z. cbn [handle_admin_input]. rewrite Hp. unfold add_to.
      destruct (existsb _ _) eqn:E; cbn [negb fst with_sources source_channels].
      - by apply existsb_Z.
      - apply elem_of_app. right. by left. }
    cbn [negb]. by destruct (should_filter_message _ _ _ _).
Qed.

Lemma source_edits_witness :
  handle_message ascii_lower
    (fst (handle_admin_input parse_decimal ascii_strip remove_source (Some "-100")
            cfg_plain))
    false (Some cat_photo) (init 3) = init 3.
Proof.
  apply (proj1 (source_edits_reach_routing ascii_lower parse_decimal ascii_strip
                  cfg_plain "-100" cat_photo false (init 3) eq_refl
                  ltac:(apply (bool_decide_unpack _); vm_compute; exact I))).
Defined.

(** X17. A keyword an admin sends (not blank) is in force from then on:
    every message whose text, or caption when there is no text, contains it
    with case ignored is filtered, and every message that was filtered before
    still is. *)
Theorem added_keyword_is_in_force lower parse_int strip cfg s m ct :
  strip s <> "" ->
  let cfg' := fst (handle_admin_input parse_int strip add_keyword_filter (Some s) cfg) in
  (forall t, effective_text m = Some t ->
             is_substring (lower (strip s)) (lower t) = true ->
             should_filter_message lower cfg' m ct = true) /\
  (should_filter_message lower cfg m ct = true ->
   should_filter_message lower cfg' m ct = true).
Proof.
  intros Hne cfg'.
  assert (Hk : strip s ∈ keyword_filter (forward_settings cfg') /\
               (forall kw, kw ∈ keyword_filter (forward_settings cfg) ->
                           kw ∈ keyword_filter (forward_settings cfg')) /\
               filter_content_types (forward_settings cfg')
               = filter_content_types (forward_settings cfg)).
  { subst cfg'. cbn [handle_admin_input]. cbv zeta.
    destruct (String.eqb_spec (strip s) ""); [done|]. cbn [negb andb].
    destruct (existsb _ _) eqn:E; cbn [negb fst].
    - apply existsb_str in E. done.
    - cbn [with_keywords with_forward_settings forward_settings keyword_filter
           filter_content_types].
      split_and!; [|intros kw Hkw|done]; apply elem_of_app; [right; by left|by left]. }
  destruct Hk as (Hin & Hsub & Hct). split.
  - intros t Ht Hsubstr. unfold should_filter_message. rewrite Hct.
    destruct (existsb (String.eqb ct) _); [done|].
    rewrite effective_text_content in Ht.
    destruct (String.eqb (default "" (py_or (text m) (caption m))) "") eqn:E; [done|].
    injection Ht as <-. cbn [negb andb].
    destruct (keyword_filter (forward_settings cfg')) as [|k0 ks] eqn:Ek;
      [by apply elem_of_nil in Hin|].
    cbn [truthy_list]. apply existsb_exists. exists (strip s).
    split; [by apply list_elem_of_In|done].
  - unfold should_filter_message. rewrite Hct.
    destruct (existsb (String.eqb ct) _); [done|].
    destruct (negb _); [|done]. cbn [andb].
    destruct (keyword_filter (forward_settings cfg)) as [|k0 ks] eqn:Ek; [done|].
    cbn [truthy_list]. intros H. apply existsb_exists in H as (kw & Hkw & Hhit).
    apply list_elem_of_In, Hsub in Hkw.
    destruct (keyword_filter (forward_settings cfg')) as [|k1 ks'] eqn:Ek';
      [by apply elem_of_nil in Hkw|].
    cbn [truthy_list]. apply existsb_exists. exists kw.
    split; [by apply list_elem_of_In|done].
Qed.

Lemma added_keyword_witness :
  should_filter_message ascii_lower
    (fst (handle_admin_input parse_decimal ascii_strip add_keyword_filter
            (Some " Cat ") cfg_plain))
    cat_photo "photo" = true.
Proof.
  apply (proj1 (added_keyword_is_in_force ascii_lower parse_decimal ascii_strip
                  cfg_plain " Cat " cat_photo "photo" ltac:(vm_compute; discriminate))
           "a cat" eq_refl eq_refl).
Defined.

Lemma split_eq_spec k v :
  is_substring "=" k = false -> split_eq (k +:+ "=" +:+ v) = Some (k, v).
Proof.
  induction k as [|c r IH]; [done|].
  change (is_substring "=" (String c r))
    with (String.prefix "=" (String c r) || is_substring "=" r).
  intros H. apply orb_false_iff in H as [Hp Hr].
  change (String c r +:+ "=" +:+ v) with (String c (r +:+ "=" +:+ v)).
  cbn [split_eq]. cbn [String.prefix] in Hp.
  destruct (Ascii.eqb_spec c "="%char) as [->|Hc].
  - destruct (ascii_dec "=" "="); [by destruct r|done].
  - by rewrite IH.
Qed.

Lemma dict_set_new k v d : dict_has k d = false -> dict_set k v d = d ++ [(k, v)].
Proof.
  unfold dict_has. induction d as [|[k' v'] r IH]; [done|]. simpl.
  intros H. apply orb_false_iff in H as [-> Hr]. by rewrite IH.
Qed.

Lemma dict_set_In k v d : In (k, v) (dict_set k v d).
Proof.
  induction d as [|[k' v'] r IH]; simpl; [by left|].
  destruct (String.eqb_spec k' k) as [->|_]; [by left|by right].
Qed.

(** X18. A rule sent as [key=value] (the key before the first equals sign,
    both sides not blank) is stored under the stripped key. Under a new key
    it is applied last, to what the earlier rules made of the text; under a
    key already in use it takes the place of the old rule, whose position in
    the order of application is kept. *)
Theorem added_rule_applies_last parse_int strip cfg k v t :
  is_substring "=" k = false -> strip k <> "" -> strip v <> "" ->
  let cfg' := fst (handle_admin_input parse_int strip add_paraphrase_rule
                     (Some (k +:+ "=" +:+ v)) cfg) in
  In (strip k, strip v) (paraphrase_rules cfg') /\
  (dict_has (strip k) (paraphrase_rules cfg) = false ->
   apply_paraphrase_rules cfg' t
   = str_replace (strip k) (strip v) (apply_paraphrase_rules cfg t)) /\
  (dict_has (strip k) (paraphrase_rules cfg) = true ->
   map fst (paraphrase_rules cfg') = map fst (paraphrase_rules cfg)).
Proof.
  intros Heq Hk Hv cfg'.
  assert (Hr : paraphrase_rules cfg'
               = dict_set (strip k) (strip v) (paraphrase_rules cfg)).
  { subst cfg'. cbn [handle_admin_input]. rewrite split_eq_spec by done. cbv zeta.
    destruct (String.eqb_spec (strip k) ""); [done|].
    by destruct (String.eqb_spec (strip v) ""). }
  split_and!.
  - rewrite Hr. apply dict_set_In.
  - intros Hnew. unfold apply_paraphrase_rules. rewrite Hr, dict_set_new by done.
    destruct (String.eqb_spec t "") as [->|Ht].
    + rewrite !orb_true_r. unfold str_replace.
      by destruct (String.eqb_spec (strip k) "").
    + rewrite !orb_false_r.
      destruct (paraphrase_rules cfg) as [|r0 rs]; [done|].
      rewrite foldl_snoc. done.
  - intros Hold. by rewrite Hr, dict_set_keys, Hold.
Qed.

Lemma added_rule_witness :
  apply_paraphrase_rules
    (fst (handle_admin_input parse_decimal ascii_strip add_paraphrase_rule
            (Some ("dog" +:+ "=" +:+ " wolf ")) cfg_ai))
    "a cat"
  = str_replace "dog" "wolf" (apply_paraphrase_rules cfg_ai "a cat").
Proof.
  apply (proj1 (proj2 (added_rule_applies_last parse_decimal ascii_strip cfg_ai
                         "dog" " wolf " "a cat" eq_refl
                         ltac:(vm_compute; discriminate)
                         ltac:(vm_compute; discriminate)))).
  reflexivity.
Defined.

(** X19. Removal removes. On a tidy configuration, an admin who has been
    removed is no longer treated as one: a message of theirs is never taken
    as admin input; a keyword or rule that has been removed is no longer
    listed; and in each case the entries that were not named stay. *)
Theorem removal_removes lower parse_int strip cfg s :
  tidy cfg ->
  (forall n m u aw,
     parse_int s = Some n -> from_user m = Some u -> user_id u = n ->
     let cfg' := fst (handle_admin_input parse_int strip remove_admin (Some s) cfg) in
     handle_message_route lower cfg' aw (Some m) <> AdminInput /\
     (forall x, x <> n -> x ∈ admins cfg -> x ∈ admins cfg')) /\
  (let cfg' := fst (handle_admin_input parse_int strip remove_keyword_filter
                      (Some s) cfg) in
   (strip s ∉ keyword_filter (forward_settings cfg')) /\
   (forall kw, kw <> strip s -> kw ∈ keyword_filter (forward_settings cfg) ->
               kw ∈ keyword_filter (forward_settings cfg'))) /\
  (let cfg' := fst (handle_admin_input parse_int strip remove_paraphrase_rule
                      (Some s) cfg) in
   dict_has (strip s) (paraphrase_rules cfg') = false /\
   (forall k v, k <> strip s -> In (k, v) (paraphrase_rules cfg) ->
                In (k, v) (paraphrase_rules cfg'))).
Proof.
  intros (Ha & _ & _ & Hk & Hr & _). split_and!.
  - intros n m u aw Hp Hu Hid cfg'.
    assert (Hl : (n ∉ admins cfg') /\
                 (forall x, x <> n -> x ∈ admins cfg -> x ∈ admins cfg')).
    { subst cfg'. cbn [handle_admin_input]. rewrite Hp. unfold remove_from.
      destruct (existsb _ _) eqn:E; cbn [fst with_admins admins].
      - split; [apply py_remove_gone; [apply Z.eqb_eq|done]|].
        intros x Hx Hin. apply py_remove_other; [apply Z.eqb_eq|done|done].
      - split; [|done]. rewrite <- existsb_Z. congruence. }
    destruct Hl as [Hgone Hkept]. split; [|done].
    unfold handle_message_route. rewrite Hu, Hid.
    assert (existsb (Z.eqb n) (admins cfg') = false) as ->.
    { apply not_true_is_false. by rewrite existsb_Z. }
    rewrite andb_false_r. cbn [andb].
    destruct (negb _); [done|]. by destruct (should_filter_message _ _ _ _).
  - cbn [handle_admin_input]. cbv zeta.
    destruct (existsb _ _) eqn:E;
      cbn [fst with_keywords with_forward_settings forward_settings keyword_filter].
    + split; [apply py_remove_gone; [apply String.eqb_eq|done]|].
      intros kw Hne Hin. apply py_remove_other; [apply String.eqb_eq|done|done].
    + split; [|done]. rewrite <- existsb_str. congruence.
  - cbn [handle_admin_input]. cbv zeta.
    destruct (dict_has (strip s) (paraphrase_rules cfg)) eqn:E;
      cbn [fst with_rules paraphrase_rules].
    + split.
      * apply not_true_is_false. intros H%dict_has_keys. revert H.
        rewrite dict_del_keys. apply py_remove_gone; [apply String.eqb_eq|done].
      * intros k v Hne. clear -Hne. induction (paraphrase_rules cfg) as [|[k' v'] r IH];
          [done|]. simpl. intros [[= -> ->]|Hin].
        -- destruct (String.eqb_spec k (strip s)); [done|]. by left.
        -- destruct (String.eqb k' (strip s)); [done|]. right. by apply IH.
    + done.
Qed.

Lemma removal_removes_witness :
  handle_message_route ascii_lower
    (fst (handle_admin_input parse_decimal ascii_strip remove_admin (Some "1") cfg_plain))
    true
    (Some (with_sender cat_photo (Some {| user_id := 1; full_name := "Ann" |})))
  <> AdminInput.
Proof.
  assert (T : tidy cfg_plain).
  { unfold tidy. simpl. split_and!; try lia; repeat constructor;
      try (by apply (bool_decide_unpack _); vm_compute); done. }
  apply (proj1 (proj1 (removal_removes ascii_lower parse_decimal ascii_strip
                         cfg_plain "1" T)
                  1 (with_sender cat_photo (Some {| user_id := 1; full_name := "Ann" |}))
                  {| user_id := 1; full_name := "Ann" |} true
                  eq_refl eq_refl eq_refl)).
Defined.

(** ** Telling the admins of a failure *)

(** X20. [notify_admins_error] sends the same text to every admin, in the
    order of the list, whatever happens to the earlier sends, makes no other
    call, and returns normally even when every send raises. *)
Theorem every_admin_is_told cfg api now m t e :
  notify_admins_error cfg api now m t e
  = (map (fun a => Called (send_message a (error_text now m t e))
                          (api (send_message a (error_text now m t e))))
         (admins cfg),
     Ok tt).
Proof.
  unfold notify_admins_error. cbv zeta.
  rewrite (for_each_rounds _ _
             (fun a => [Called (send_message a (error_text now m t e))
                               (api (send_message a (error_text now m t e)))])).
  - reflexivity.
  - intros a. unfold try_except, call.
    by destruct (api (send_message a (error_text now m t e))).
Qed.

(** ** Loading the configuration *)

Lemma jget_jset_same k v d : jget k (jset k v d) = Some v.
Proof.
  induction d as [|[k' v'] r IH]; simpl; [by rewrite String.eqb_refl|].
  destruct (String.eqb k' k) eqn:E; simpl; by rewrite E.
Qed.

Lemma jget_jset_other k k' v d : k <> k' -> jget k' (jset k v d) = jget k' d.
Proof.
  intros Hne. induction d as [|[k0 v0] r IH]; simpl.
  - by destruct (String.eqb_spec k k').
  - destruct (String.eqb_spec k0 k) as [->|Hk]; simpl.
    + by destruct (String.eqb_spec k k').
    + by rewrite IH.
Qed.

Lemma jset_same k v d : jget k d = Some v -> jset k v d = d.
Proof.
  induction d as [|[k0 v0] r IH]; [done|]. simpl.
  destruct (String.eqb k0 k); [by intros [= ->]|]. intros H. by rewrite IH.
Qed.

Lemma jget_In k v d : jget k d = Some v -> In (k, v) d.
Proof.
  induction d as [|[k0 v0] r IH]; [done|]. simpl.
  destruct (String.eqb_spec k0 k) as [->|_]; [intros [= ->]; by left|].
  intros H. right. by apply IH.
Qed.

Lemma jget_first k d : k ∉ map fst d -> jget k d = None.
Proof.
  induction d as [|[k0 v0] r IH]; [done|]. simpl. intros H.
  apply not_elem_of_cons in H as [Hne Hr].
  destruct (String.eqb_spec k0 k); [congruence|]. by apply IH.
Qed.

Lemma In_jget k v d : NoDup (map fst d) -> In (k, v) d -> jget k d = Some v.
Proof.
  induction d as [|[k0 v0] r IH]; [done|]. simpl.
  intros Hnd [[= -> ->]|Hin]; [by rewrite String.eqb_refl|].
  apply NoDup_cons in Hnd as [Hk Hr].
  destruct (String.eqb_spec k0 k) as [->|_]; [|by apply IH].
  exfalso. apply Hk. apply list_elem_of_In. by apply (in_map fst _ (k, v)).
Qed.

(** The inner loop on an object: it succeeds, the sub-keys of the file keep
    their values, and the missing ones get the defaults. *)
Lemma fill_section_dict subs : forall d,
  exists d', fill_section subs (JDict d) = Some (JDict d') /\
             forall k, jget k d' = match jget k d with
                                   | Some v => Some v
                                   | None => jget k subs
                                   end.
Proof.
  induction subs as [|[sk sv] rest IH]; intros d.
  - exists d. split; [done|]. intros k. by destruct (jget k d).
  - cbn [fill_section py_contains py_setitem].
    destruct (jget sk d) as [v|] eqn:E.
    + rewrite bool_decide_eq_true_2 by done.
      destruct (IH d) as (d' & Hm & Hl). exists d'. split; [done|].
      intros k. rewrite Hl. destruct (jget k d) as [w|] eqn:Ek; [done|].
      simpl. destruct (String.eqb_spec sk k) as [->|_]; [congruence|done].
    + rewrite bool_decide_eq_false_2 by (intros [? ?]; done).
      destruct (IH (jset sk sv d)) as (d' & Hm & Hl). exists d'. split; [done|].
      intros k. rewrite Hl. simpl.
      destruct (String.eqb_spec sk k) as [->|Hne].
      * by rewrite jget_jset_same, E.
      * by rewrite jget_jset_other.
Qed.

(** On anything but an object it changes nothing: it raises or returns
    its argument. *)
Lemma fill_section_other subs section s' :
  is_dict section = false -> fill_section subs section = Some s' -> s' = section.
Proof.
  intros Hd. induction subs as [|[sk sv] rest IH]; simpl; [by intros [= <-]|].
  destruct (py_contains section sk) as [[]|]; [done| |done].
  by destruct section.
Qed.

Lemma fill_section_full subs d :
  (forall k, is_Some (jget k subs) -> is_Some (jget k d)) ->
  fill_section subs (JDict d) = Some (JDict d).
Proof.
  intros Hall. induction subs as [|[sk sv] rest IH]; [done|].
  cbn [fill_section py_contains].
  rewrite bool_decide_eq_true_2.
  - apply IH. intros k Hk. apply Hall. simpl.
    destruct (String.eqb sk k); [done|exact Hk].
  - apply Hall. simpl. by rewrite String.eqb_refl.
Qed.

Lemma fill_section_again subs section s' :
  fill_section subs section = Some s' -> fill_section subs s' = Some s'.
Proof.
  destruct (is_dict section) eqn:Hd.
  - destruct section as [| | | | | |d]; try done. clear Hd. intros H.
    destruct (fill_section_dict subs d) as (d' & Hm & Hl).
    rewrite Hm in H. injection H as <-.
    apply fill_section_full. intros k Hk. rewrite Hl. by destruct (jget k d).
  - intros H. pose proof (fill_section_other _ _ _ Hd H) as ->. exact H.
Qed.

Lemma jset_jset k v w d : jset k w (jset k v d) = jset k w d.
Proof.
  induction d as [|[k0 v0] r IH]; simpl; [by rewrite String.eqb_refl|].
  destruct (String.eqb k0 k) eqn:E; simpl; rewrite E; [done|]. by rewrite IH.
Qed.

(** The inner loop of [load_config] on an object that has the section. *)
Lemma merge_sub_section subs key : forall d section,
  jget key d = Some section ->
  merge_sub subs key (JDict d)
  = match fill_section subs section with
    | Some s' => Some (JDict (jset key s' d))
    | None => None
    end.
Proof.
  induction subs as [|[sk sv] rest IH]; intros d section Hg.
  - simpl. by rewrite jset_same.
  - cbn [merge_sub fill_section py_getitem]. rewrite Hg.
    destruct (py_contains section sk) as [[]|]; [by apply IH| |done].
    destruct (py_setitem section sk sv) as [section'|]; [|done].
    cbn [py_setitem]. rewrite (IH _ section') by apply jget_jset_same.
    destruct (fill_section rest section'); [|done]. by rewrite jset_jset.
Qed.

Lemma merge_sub_other subs key c c' :
  is_dict c = false -> merge_sub subs key c = Some c' -> subs = [] /\ c' = c.
Proof.
  intros Hd. destruct subs as [|[sk sv] rest]; simpl; [by intros [= <-]|].
  by destruct c.
Qed.

(** On anything but an object the outer loop raises or returns its
    argument, and it raises as soon as a default is an object with
    sub-keys. *)
Lemma merge_top_keeps ds c c' :
  is_dict c = false -> merge_top ds c = Some c' -> c' = c.
Proof.
  intros Hd. induction ds as [|[key value] rest IH]; simpl; [by intros [= <-]|].
  destruct (py_contains c key) as [[]|]; [|by destruct c|done].
  destruct value as [| | | | | |subs]; try exact IH.
  destruct (merge_sub subs key c) as [c1|] eqn:E; [|done].
  destruct (merge_sub_other _ _ _ _ Hd E) as [_ ->]. exact IH.
Qed.

Lemma merge_top_other ds c :
  is_dict c = false -> (exists k subs, In (k, JDict subs) ds /\ subs <> []) ->
  merge_top ds c = None.
Proof.
  intros Hd. induction ds as [|[key value] rest IH]; [by intros (k & subs & [] & _)|].
  intros (k & subs & Hin & Hne). simpl.
  destruct (py_contains c key) as [[]|]; [|by destruct c|done].
  destruct Hin as [[= -> ->]|Hin].
  - destruct (merge_sub subs k c) as [c1|] eqn:E; [|done].
    by destruct (merge_sub_other _ _ _ _ Hd E) as [-> _].
  - destruct value as [| | | | | |subs']; try (apply IH; by exists k, subs).
    destruct (merge_sub subs' key c) as [c1|] eqn:E; [|done].
    destruct (merge_sub_other _ _ _ _ Hd E) as [_ ->]. apply IH. by exists k, subs.
Qed.

Lemma merge_top_dict ds : NoDup (map fst ds) -> forall d c,
  merge_top ds (JDict d) = Some c ->
  exists r, c = JDict r /\ forall k, jget k r = merged_entry ds d k.
Proof.
  induction ds as [|[key value] rest IH]; intros Hnd d c.
  - intros [= <-]. exists d. split; [done|]. intros k. unfold merged_entry.
    by destruct (jget k d).
  - apply NoDup_cons in Hnd as [Hkey Hnd]. specialize (IH Hnd).
    pose proof (jget_first key rest Hkey) as Hfirst.
    cbn [merge_top py_contains py_setitem].
    destruct (jget key d) as [v|] eqn:E.
    + rewrite bool_decide_eq_true_2 by done.
      assert (Hplain : (forall subs, value <> JDict subs) ->
                merge_top rest (JDict d) = Some c ->
                exists r, c = JDict r /\
                  forall k, jget k r = merged_entry ((key, value) :: rest) d k).
      { intros Hv H. destruct (IH d c H) as (r & -> & Hl). exists r. split; [done|].
        intros k. rewrite Hl. unfold merged_entry. simpl.
        destruct (String.eqb_spec key k) as [<-|Hne]; [|done].
        rewrite E, Hfirst. destruct value; try done. by destruct (Hv d0). }
      destruct value as [| | | | | |subs]; try (apply Hplain; done).
      rewrite (merge_sub_section subs key d v E).
      destruct (fill_section subs v) as [s'|] eqn:Hs; [|done].
      intros H. destruct (IH _ c H) as (r & -> & Hl). exists r. split; [done|].
      intros k. rewrite Hl. unfold merged_entry. simpl.
      destruct (String.eqb_spec key k) as [<-|Hne].
      * by rewrite jget_jset_same, Hfirst, E.
      * by rewrite jget_jset_other.
    + rewrite bool_decide_eq_false_2 by (intros [? ?]; done).
      intros H. destruct (IH _ c H) as (r & -> & Hl). exists r. split; [done|].
      intros k. rewrite Hl. unfold merged_entry. simpl.
      destruct (String.eqb_spec key k) as [<-|Hne].
      * rewrite jget_jset_same, Hfirst, E. by destruct value.
      * by rewrite jget_jset_other.
Qed.

Lemma merge_top_succeeds ds : NoDup (map fst ds) -> forall d,
  (forall k subs v, In (k, JDict subs) ds -> jget k d = Some v ->
                    is_Some (fill_section subs v)) ->
  is_Some (merge_top ds (JDict d)).
Proof.
  induction ds as [|[key value] rest IH]; intros Hnd d Hok; [done|].
  apply NoDup_cons in Hnd as [Hkey Hnd]. specialize (IH Hnd).
  assert (Hrest : forall d', (forall k, k <> key -> jget k d' = jget k d) ->
            is_Some (merge_top rest (JDict d'))).
  { intros d' Hd'. apply IH. intros k subs v Hin Hv.
    assert (k <> key) as Hne.
    { intros ->. apply Hkey, list_elem_of_In. by apply (in_map fst _ (key, JDict subs)). }
    rewrite Hd' in Hv by done. apply (Hok k subs v); [by right|done]. }
  cbn [merge_top py_contains py_setitem].
  destruct (jget key d) as [v|] eqn:E.
  - rewrite bool_decide_eq_true_2 by done.
    destruct value as [| | | | | |subs]; try (by apply Hrest).
    rewrite (merge_sub_section subs key d v E).
    destruct (Hok key subs v) as [s' Hs]; [by left|done|]. rewrite Hs.
    apply Hrest. intros k Hne. by rewrite jget_jset_other.
  - rewrite bool_decide_eq_false_2 by (intros [? ?]; done).
    apply Hrest. intros k Hne. by rewrite jget_jset_other.
Qed.

Lemma merge_top_fails ds : NoDup (map fst ds) -> forall d k subs v,
  In (k, JDict subs) ds -> jget k d = Some v -> fill_section subs v = None ->
  merge_top ds (JDict d) = None.
Proof.
  induction ds as [|[key value] rest IH]; intros Hnd d k subs v Hin Hv Hs; [done|].
  apply NoDup_cons in Hnd as [Hkey Hnd]. specialize (IH Hnd).
  cbn [merge_top py_contains py_setitem].
  destruct Hin as [[= -> ->]|Hin].
  - rewrite Hv, bool_decide_eq_true_2 by done.
    by rewrite (merge_sub_section subs k d v Hv), Hs.
  - assert (k <> key) as Hne.
    { intros ->. apply Hkey, list_elem_of_In. by apply (in_map fst _ (key, JDict subs)). }
    assert (Hrest : forall d', jget k d' = jget k d -> merge_top rest (JDict d') = None).
    { intros d' Hd'. apply (IH d' k subs v); [done| |done]. by rewrite Hd'. }
    destruct (jget key d) as [w|] eqn:E.
    + rewrite bool_decide_eq_true_2 by done.
      destruct value as [| | | | | |subs']; try (by apply Hrest).
      rewrite (merge_sub_section subs' key d w E).
      destruct (fill_section subs' w); [|done].
      apply Hrest. by rewrite jget_jset_other.
    + rewrite bool_decide_eq_false_2 by (intros [? ?]; done).
      apply Hrest. by rewrite jget_jset_other.
Qed.

Lemma merge_top_full ds r :
  (forall key value, In (key, value) ds ->
     exists cur, jget key r = Some cur /\
                 forall subs, value = JDict subs -> fill_section subs cur = Some cur) ->
  merge_top ds (JDict r) = Some (JDict r).
Proof.
  induction ds as [|[key value] rest IH]; intros H; [done|].
  cbn [merge_top py_contains py_setitem].
  destruct (H key value) as (cur & Hc & Hs); [by left|].
  rewrite Hc, bool_decide_eq_true_2 by done.
  assert (Hrest : merge_top rest (JDict r) = Some (JDict r)).
  { apply IH. intros k v Hin. apply H. by right. }
  destruct value as [| | | | | |subs]; try exact Hrest.
  rewrite (merge_sub_section subs key r cur Hc), (Hs subs) by done.
  by rewrite jset_same.
Qed.

Lemma merge_top_again ds c c' :
  NoDup (map fst ds) -> merge_top ds c = Some c' -> merge_top ds c' = Some c'.
Proof.
  intros Hnd H. destruct (is_dict c) eqn:Hd.
  2:{ pose proof (merge_top_keeps _ _ _ Hd H) as ->. exact H. }
  destruct c as [| | | | | |d]; try done. clear Hd.
  destruct (merge_top_dict ds Hnd d c' H) as (r & -> & Hl).
  apply merge_top_full. intros key value Hin.
  pose proof (In_jget _ _ _ Hnd Hin) as Hdef.
  specialize (Hl key). unfold merged_entry in Hl. rewrite Hdef in Hl.
  destruct (jget key d) as [v|] eqn:E.
  - destruct value as [| | | | | |subs];
      try (exists v; split; [done|]; intros subs' [=]).
    destruct (fill_section subs v) as [s'|] eqn:Hs.
    + exists s'. split; [done|]. intros subs' [= <-]. by eapply fill_section_again.
    + by rewrite (merge_top_fails ds Hnd d key subs v Hin E Hs) in H.
  - exists value. split; [done|]. intros subs ->.
    by apply fill_section_full.
Qed.

Lemma default_entries_NoDup : NoDup (map fst default_entries).
Proof. apply (bool_decide_unpack _). by vm_compute. Qed.

Lemma section_defaults_In k subs :
  section_defaults k = Some subs <-> In (k, JDict subs) default_entries.
Proof.
  unfold section_defaults. split.
  - destruct (jget k default_entries) as [v|] eqn:E; [|done].
    destruct v; try done. intros [= ->]. by apply jget_In.
  - intros H. by rewrite (In_jget _ _ _ default_entries_NoDup H).
Qed.

(** X21. When the file holds an object whose sections are objects,
    [load_config] returns it completed: every key of the defaults is there,
    a key the file lacks has the default value, a key the file has keeps the
    file's value, and in a section the sub-keys of the file keep their values
    while the missing ones get their defaults. Nothing is written. *)
Theorem load_config_fills_defaults d :
  (forall k subs v, section_defaults k = Some subs -> jget k d = Some v ->
                    is_dict v = true) ->
  exists r,
    load_config (Loaded (JDict d)) = (JDict r, None) /\
    (forall k, is_Some (jget k default_entries) -> is_Some (jget k r)) /\
    (forall k, jget k d = None -> jget k r = jget k default_entries) /\
    (forall k v, jget k d = Some v -> section_defaults k = None -> jget k r = Some v) /\
    (forall k sd subs,
       jget k d = Some (JDict sd) -> section_defaults k = Some subs ->
       exists sd', jget k r = Some (JDict sd') /\
                   forall sk, jget sk sd' = match jget sk sd with
                                            | Some v => Some v
                                            | None => jget sk subs
                                            end).
Proof.
  intros Hsec. unfold load_config.
  destruct (merge_top_succeeds default_entries default_entries_NoDup d) as [c Hc].
  { intros k subs v Hin Hv. apply section_defaults_In in Hin.
    pose proof (Hsec k subs v Hin Hv) as Hd.
    destruct v as [| | | | | |sd]; try done.
    destruct (fill_section_dict subs sd) as (d' & Hm & _). by rewrite Hm. }
  rewrite Hc.
  destruct (merge_top_dict _ default_entries_NoDup d c Hc) as (r & -> & Hl).
  exists r. split_and!; [done|..].
  - intros k [dv Hdv]. rewrite Hl. unfold merged_entry. rewrite Hdv.
    destruct (jget k d) as [v|] eqn:E; [|done].
    destruct dv as [| | | | | |subs]; try done.
    assert (section_defaults k = Some subs) as Hs.
    { unfold section_defaults. by rewrite Hdv. }
    pose proof (Hsec k subs v Hs E) as Hd.
    destruct v as [| | | | | |sd]; try done.
    destruct (fill_section_dict subs sd) as (d' & Hm & _). by rewrite Hm.
  - intros k E. rewrite Hl. unfold merged_entry. by rewrite E.
  - intros k v E Hs. rewrite Hl. unfold merged_entry. rewrite E.
    unfold section_defaults in Hs.
    destruct (jget k default_entries) as [dv|]; [|done]. by destruct dv.
  - intros k sd subs E Hs. rewrite Hl. unfold merged_entry. rewrite E.
    unfold section_defaults in Hs.
    destruct (jget k default_entries) as [dv|]; [|done].
    destruct dv; try done. injection Hs as ->.
    destruct (fill_section_dict subs sd) as (d' & Hm & Hd'). exists d'. by rewrite Hm.
Qed.

Lemma load_config_fills_witness :
  exists r,
    load_config (Loaded (JDict [("admins", JList [JInt 5]);
                                ("forward_settings", JDict [("delay_seconds", JInt 9)])]))
    = (JDict r, None) /\
    jget "admins" r = Some (JList [JInt 5]) /\
    jget "target_channels" r = Some (JList []).
Proof.
  destruct (load_config_fills_defaults
              [("admins", JList [JInt 5]);
               ("forward_settings", JDict [("delay_seconds", JInt 9)])])
    as (r & Hr & _ & Hmiss & Hkeep & _).
  - intros k subs v Hs. cbn [jget].
    destruct (String.eqb_spec "admins" k) as [<-|_]; [by vm_compute in Hs|].
    destruct (String.eqb "forward_settings" k); [by intros [= <-]|done].
  - exists r. split_and!; [exact Hr| |].
    + by apply Hkeep.
    + by rewrite Hmiss.
Defined.

(** X22. [load_config] falls back to the defaults, dropping everything the
    file says, when the file is missing (the defaults are then written to
    it), when it cannot be read as JSON, when what it holds is not an object,
    and when one of its sections with default sub-keys is null, a boolean or
    a number. *)
Theorem load_config_falls_back :
  load_config Missing = (default_config, Some default_config) /\
  load_config Unreadable = (default_config, None) /\
  (forall j, is_dict j = false -> load_config (Loaded j) = (default_config, None)) /\
  (forall d k subs v,
     section_defaults k = Some subs -> subs <> [] ->
     jget k d = Some v -> scalar v = true ->
     load_config (Loaded (JDict d)) = (default_config, None)).
Proof.
  split_and!; [done|done| |].
  - intros j Hj. unfold load_config. rewrite merge_top_other; [done|done|].
    exists "forward_settings". eexists.
    split; [right; right; right; right; by left|done].
  - intros d k subs v Hs Hne Hv Hsc. unfold load_config.
    rewrite (merge_top_fails default_entries default_entries_NoDup d k subs v);
      [done| |done|].
    + by apply section_defaults_In.
    + destruct subs as [|[sk sv] rest]; [done|]. simpl. by destruct v.
Qed.

Lemma load_config_falls_back_witness :
  load_config (Loaded (JDict [("admins", JList [JInt 5]); ("forward_settings", JNull)]))
  = (default_config, None).
Proof.
  apply (proj2 (proj2 (proj2 load_config_falls_back))
           [("admins", JList [JInt 5]); ("forward_settings", JNull)]
           "forward_settings" _ JNull eq_refl); done.
Defined.

(** X23. Loading what [load_config] returned gives it back unchanged: the
    configuration it returns is complete. *)
Theorem load_config_is_idempotent f :
  fst (load_config (Loaded (fst (load_config f)))) = fst (load_config f).
Proof.
  assert (Hdef : merge_top default_entries default_config = Some default_config).
  { apply merge_top_full. intros key value Hin.
    exists value. split; [by apply In_jget; [apply default_entries_NoDup|]|].
    intros subs ->. by apply fill_section_full. }
  destruct f as [| |j]; cbn [load_config fst]; try by rewrite Hdef.
  destruct (merge_top default_entries j) as [c|] eqn:E; cbn [fst].
  - by rewrite (merge_top_again _ _ _ default_entries_NoDup E).
  - by rewrite Hdef.
Qed.

(** ** Only submitted items are buffered or forwarded *)

Lemma from_among_mono S S' h :
  (forall x, x ∈ S -> x ∈ S') -> from_among S h -> from_among S' h.
Proof.
  intros Hs [Hb Hf]. split.
  - intros g buf x Hg Hx. apply Hs. by eapply Hb.
  - intros b x Hbf Hx. apply Hs. by eapply Hf.
Qed.

Lemma timer_fires_from_among S i h : from_among S h -> from_among S (timer_fires i h).
Proof.
  intros [Hb Hf]. unfold timer_fires.
  destruct (tasks h !! i) as [x|]; [|done].
  destruct (status x); try done.
  destruct (_ <=? _); [|done].
  destruct (media_groups h !! task_group x) as [buf|] eqn:E; [|done].
  assert (Hs : forall y, y ∈ sort_by_id buf -> y ∈ S).
  { intros y Hy. rewrite (sort_by_id_perm buf) in Hy. by eapply Hb. }
  split; simpl.
  - intros g buf' y Hg Hy. destruct (decide (g = task_group x)) as [->|Hne].
    + rewrite lookup_insert_eq in Hg. injection Hg as <-. by apply Hs.
    + rewrite lookup_insert_ne in Hg by done. by eapply Hb.
  - intros b y Hbf Hy. apply elem_of_app in Hbf as [Hbf|Hbf]; [by eapply Hf|].
    apply list_elem_of_singleton in Hbf as ->. by apply Hs.
Qed.

Lemma advance_from_among S t h : from_among S h -> from_among S (advance t h).
Proof.
  intros H. unfold advance. apply (foldl_invariant (from_among S)); [done|].
  intros a i _. apply timer_fires_from_among.
Qed.

Lemma step_from_among S h e :
  from_among S h ->
  from_among (S ++ match e with Submit _ m => [m] | _ => [] end) (step h e).
Proof.
  intros H. destruct e as [t m|t|i]; simpl.
  - apply (advance_from_among S t) in H. destruct H as [Hb Hf].
    unfold add_message. destruct (group_key m) as [g|]; split; simpl.
    + intros g' buf x Hg Hx. destruct (decide (g' = g)) as [->|Hne].
      * rewrite lookup_insert_eq in Hg. injection Hg as <-.
        apply elem_of_app in Hx as [Hx|Hx]; apply elem_of_app.
        -- left. destruct (media_groups (advance t h) !! g) as [old|] eqn:E;
             [by eapply Hb|by apply elem_of_nil in Hx].
        -- by right.
      * rewrite lookup_insert_ne in Hg by done. apply elem_of_app. left. by eapply Hb.
    + intros b x Hbf Hx. apply elem_of_app. left. by eapply Hf.
    + intros g' buf x Hg Hx. apply elem_of_app. left. by eapply Hb.
    + intros b x Hbf Hx. apply elem_of_app.
      apply elem_of_app in Hbf as [Hbf|Hbf]; [left; by eapply Hf|].
      apply list_elem_of_singleton in Hbf as ->. by right.
  - rewrite app_nil_r. by apply advance_from_among.
  - rewrite app_nil_r. destruct H as [Hb Hf]. unfold forward_returns.
    destruct (tasks h !! i) as [x|]; [|done].
    destruct (status x); try done. split; simpl; [|done].
    intros g buf y Hg Hy. apply lookup_delete_Some in Hg as [_ Hg]. by eapply Hb.
Qed.

(** X24. The handler never makes up an item: whatever the events, every
    item in a buffer and every item of a batch handed to the forward callback
    is one that was submitted. *)
Theorem only_submitted_items_are_forwarded w es :
  from_among (submitted es) (run es (init w)).
Proof.
  induction es as [|e es IH] using rev_ind.
  - split; simpl.
    + intros g buf x Hg. by rewrite lookup_empty in Hg.
    + intros b x Hb. by apply elem_of_nil in Hb.
  - rewrite run_snoc, submitted_snoc. by apply step_from_among.
Qed.

(** ** The rewriter's client and what the panel says about it *)

(** X25. The rewriter has a client exactly when the API key is a string
    other than the empty one and the two placeholders; without a client
    [rewrite_text] returns every text unchanged even when rewriting is
    enabled. The status panel calls the key configured whenever there is a
    client, and the two disagree for exactly one key, [your_api_key], which
    the panel shows as configured while no client exists. *)
Theorem client_and_status_panel connect strip settings api_key base_url s :
  (init_client connect api_key base_url = None ->
   rewrite_text strip settings (init_client connect api_key base_url) s = s) /\
  (is_Some (init_client connect api_key base_url) -> api_configured api_key = true) /\
  (api_configured api_key = true /\ init_client connect api_key base_url = None
   <-> api_key = Some "your_api_key").
Proof.
  assert (Hc : init_client connect api_key base_url
               = if negb (String.eqb (default "" api_key) "")
                    && negb (String.eqb (default "" api_key) "put your api key here")
                    && negb (String.eqb (default "" api_key) "your_api_key")
                 then Some (connect (default "" api_key)
                              (default "https://api.deepseek.com" base_url))
                 else None).
  { unfold init_client. cbv zeta. cbn [existsb].
    destruct (String.eqb (default "" api_key) ""); [done|].
    destruct (String.eqb (default "" api_key) "put your api key here"); [done|].
    by destruct (String.eqb (default "" api_key) "your_api_key"). }
  assert (Ha : api_configured api_key
               = negb (String.eqb (default "" api_key) "")
                 && negb (String.eqb (default "" api_key) "put your api key here")).
  { unfold api_configured, truthy_str. cbn [existsb].
    destruct api_key as [k|]; [|done].
    change (default "" (Some k)) with k.
    destruct (String.eqb k ""); [done|].
    by destruct (String.eqb k "put your api key here"). }
  rewrite Hc, Ha. clear Hc Ha.
  assert (Hk : default "" api_key = "your_api_key" <-> api_key = Some "your_api_key").
  { destruct api_key as [k|]; [|done]. change (default "" (Some k)) with k.
    split; [by intros ->|by intros [= ->]]. }
  split_and!.
  - intros H. rewrite H. unfold rewrite_text. by destruct (enabled settings).
  - destruct (String.eqb (default "" api_key) ""); [by intros [? ?]|].
    destruct (String.eqb (default "" api_key) "put your api key here");
      [by intros [? ?]|done].
  - rewrite <- Hk.
    destruct (String.eqb_spec (default "" api_key) "") as [->|_];
      [split; [by intros [? ?]|done]|].
    destruct (String.eqb_spec (default "" api_key) "put your api key here") as [->|_];
      [split; [by intros [? ?]|done]|].
    destruct (String.eqb_spec (default "" api_key) "your_api_key") as [->|Hne];
      [done|].
    split; [by intros [? ?]|done].
Qed.

Lemma client_and_status_witness :
  rewrite_text ascii_strip (deepseek_settings cfg_ai)
    (init_client (fun _ _ => client_timeout) (Some "your_api_key") None) "a cat"
  = "a cat".
Proof.
  apply (proj1 (client_and_status_panel (fun _ _ => client_timeout) ascii_strip
                  (deepseek_settings cfg_ai) (Some "your_api_key") None "a cat")).
  reflexivity.
Defined.
